(** * lip-sync-translator: the signal, decoding, timeline and messaging core

    A shallow embedding of the JavaScript sources
      - services/stt.js      (STTService: resample, mel features, normalise,
                              greedy decode)
      - services/mt.js       (MTService: greedy decode, DictionaryMT)
      - utils/phonemes.js    (textToPhonemes, phonemeToViseme,
                              generateVisemeSequence)
      - services/lipSync.js  (LipSyncService: timeline generation, scheduler;
                              AvatarLipSyncController)
      - services/webrtc.js   (WebRTCService: send / receive of envelopes;
                              SignalingServer)
      - utils/audioUtils.js  (AudioBufferUtils: base64 conversion)
      - the text-to-speech service with models (TTSService: normalisation
                              and fade)
    together with properties of theirs, among them those the specification
    states.

    Conventions.
      - A JavaScript string is its sequence of UTF-16 code units ([list N]).
      - A JavaScript number that holds sample data is an IEEE-754 binary64
        value ([PrimFloat.float]); a [Float32Array] element is such a value
        after rounding to binary32 ([fround]).
      - Array lengths and indices are natural numbers.
      - [undefined] is [None]; a thrown exception is the [Throw] result.
      - Host facilities the sources call but do not define
        ([String.prototype.toLowerCase], [Math.cos], ...) are section
        variables, so every statement holds for whatever the host provides. *)

From Stdlib Require Import ZArith NArith Lia List Bool.
From Stdlib Require Import PrimFloat FloatOps FloatAxioms SpecFloat Uint63.
From Stdlib Require Import String Ascii.
From Stdlib Require Strings.Byte.
From Stdlib Require Import DecimalFacts DecimalPos DecimalN.
From stdpp Require Import base option list gmap.

Local Open Scope N_scope.

(* ===================================================================== *)
(** * JavaScript strings                                                   *)
(* ===================================================================== *)

Module JS.

(** A UTF-16 code unit. *)
Abbreviation unit16 := N.
Abbreviation jsstring := (list N).

(** Results of calls that may throw. *)
Inductive result (A : Type) : Type :=
| Return (a : A)
| Throw (message : jsstring).
Arguments Return {A} a.
Arguments Throw {A} message.

#[export] Instance result_bind : MBind result := fun A B k r =>
  match r with
  | Return a => k a
  | Throw e => Throw e
  end.

(** ** The WHATWG UTF-8 decoder ([new TextDecoder().decode]) *)

Record utf8_state := Utf8State {
  u8_cp : N;          (* code point being assembled *)
  u8_needed : nat;    (* continuation bytes still expected *)
  u8_lower : N;       (* admissible range of the next continuation byte *)
  u8_upper : N
}.

Definition utf8_init : utf8_state := Utf8State 0 0 0x80 0xBF.

Definition replacement : N := 0xFFFD.

(** A byte met while no sequence is open. *)
Definition utf8_lead (b : N) : utf8_state * list N :=
  if b <=? 0x7F then (utf8_init, [b])
  else if (0xC2 <=? b) && (b <=? 0xDF)
       then (Utf8State (N.land b 0x1F) 1 0x80 0xBF, [])
  else if (0xE0 <=? b) && (b <=? 0xEF)
       then (Utf8State (N.land b 0xF) 2
               (if b =? 0xE0 then 0xA0 else 0x80)
               (if b =? 0xED then 0x9F else 0xBF), [])
  else if (0xF0 <=? b) && (b <=? 0xF4)
       then (Utf8State (N.land b 0x7) 3
               (if b =? 0xF0 then 0x90 else 0x80)
               (if b =? 0xF4 then 0x8F else 0xBF), [])
  else (utf8_init, [replacement]).

(** One step of the decoder: the new state and the code points emitted. *)
Definition utf8_step (st : utf8_state) (b : N) : utf8_state * list N :=
  match u8_needed st with
  | O => utf8_lead b
  | S k =>
      if (u8_lower st <=? b) && (b <=? u8_upper st) then
        let cp := N.lor (N.shiftl (u8_cp st) 6) (N.land b 0x3F) in
        match k with
        | O => (utf8_init, [cp])
        | S _ => (Utf8State cp k 0x80 0xBF, [])
        end
      else
        (* the byte is put back and read again from the initial state *)
        let '(st', out) := utf8_lead b in (st', replacement :: out)
  end.

Fixpoint utf8_run (st : utf8_state) (bs : list N) : list N :=
  match bs with
  | [] => match u8_needed st with O => [] | S _ => [replacement] end
  | b :: bs' => let '(st', out) := utf8_step st b in out ++ utf8_run st' bs'
  end.

(** A code point as UTF-16 code units. *)
Definition utf16_of_cp (cp : N) : jsstring :=
  if cp <? 0x10000 then [cp]
  else let c := cp - 0x10000 in
       [0xD800 + N.shiftr c 10; 0xDC00 + N.land c 0x3FF].

Definition strip_bom (bs : list N) : list N :=
  match bs with
  | a :: b :: c :: rest =>
      if (a =? 0xEF) && (b =? 0xBB) && (c =? 0xBF) then rest else bs
  | _ => bs
  end.

Definition TextDecoder_decode (bs : list Byte.byte) : jsstring :=
  concat (List.map utf16_of_cp (utf8_run utf8_init (strip_bom (List.map Byte.to_N bs)))).

(** String literals of this file are written in UTF-8 and read as the
    JavaScript string they denote. *)
Definition js (s : string) : jsstring :=
  concat (List.map utf16_of_cp
            (utf8_run utf8_init (List.map Byte.to_N (list_byte_of_string s)))).

(** ** Equality, truthiness *)

Definition str_eqb (a b : jsstring) : bool := bool_decide (a = b).

(** A string is truthy unless it is empty; [undefined] is falsy. *)
Definition truthy (v : option jsstring) : bool :=
  match v with
  | Some (_ :: _) => true
  | _ => false
  end.

(** ** White space: the characters matched by [\s] and removed by [trim]
    (ECMAScript WhiteSpace and LineTerminator). *)
Definition isWhiteSpace (c : unit16) : bool :=
  (c =? 0x09) || (c =? 0x0A) || (c =? 0x0B) || (c =? 0x0C) || (c =? 0x0D)
  || (c =? 0x20) || (c =? 0xA0) || (c =? 0x1680)
  || ((0x2000 <=? c) && (c <=? 0x200A))
  || (c =? 0x2028) || (c =? 0x2029) || (c =? 0x202F) || (c =? 0x205F)
  || (c =? 0x3000) || (c =? 0xFEFF).

(** [s.split(/\s+/)]: cut at every maximal run of white space; an empty
    piece is kept before a leading run and after a trailing one. [inRun]
    tells that the previous character belonged to a separator; [cur] is the
    current piece, reversed. *)
Fixpoint split_ws_from (inRun : bool) (cur : jsstring) (s : jsstring)
  : list jsstring :=
  match s with
  | [] => [rev cur]
  | c :: s' =>
      if isWhiteSpace c then
        if inRun then split_ws_from true cur s'
        else rev cur :: split_ws_from true [] s'
      else split_ws_from false (c :: cur) s'
  end.

Definition split_ws (s : jsstring) : list jsstring := split_ws_from false [] s.

(** [parts.join(sep)] for an array of strings. *)
Fixpoint join (sep : jsstring) (parts : list jsstring) : jsstring :=
  match parts with
  | [] => []
  | [p] => p
  | p :: rest => p ++ sep ++ join sep rest
  end.

(** [s.trim()] *)
Fixpoint trimStart (s : jsstring) : jsstring :=
  match s with
  | c :: s' => if isWhiteSpace c then trimStart s' else s
  | [] => []
  end.

Definition trim (s : jsstring) : jsstring := rev (trimStart (rev (trimStart s))).

(** [haystack.includes(needle)] *)
Fixpoint starts_with (needle s : jsstring) : bool :=
  match needle, s with
  | [], _ => true
  | n :: needle', c :: s' => (n =? c) && starts_with needle' s'
  | _ :: _, [] => false
  end.

Fixpoint includes (needle s : jsstring) : bool :=
  starts_with needle s ||
  match s with
  | [] => false
  | _ :: s' => includes needle s'
  end.

End JS.

Import JS.


(** The host's [String.prototype.toLowerCase]. It is full Unicode case
    mapping in an engine; nothing below depends on what it returns. *)
Class Host := { toLowerCase : jsstring -> jsstring }.

(** A plain object used as a table from string keys to values: the map
    of its own entries. A literal lists its entries in source order and a
    repeated key keeps the last value. Reading [table[key]] also finds
    the members the table inherits from [Object.prototype]; where the
    key can be one of their names the reading is modelled with them (see
    [DictionaryMT.translateWord]), elsewhere a remark tells why it
    cannot. *)
Abbreviation object V := (gmap jsstring V).

(** The names of the members of [Object.prototype]. Each member is a
    function, but for [__proto__], which reads as the prototype itself;
    all are truthy. *)
Definition prototypeMembers : list jsstring := List.map js [
  "constructor"; "__defineGetter__"; "__defineSetter__"; "hasOwnProperty";
  "__lookupGetter__"; "__lookupSetter__"; "isPrototypeOf";
  "propertyIsEnumerable"; "toString"; "valueOf"; "__proto__";
  "toLocaleString"
]%string.

(** The string an engine makes of such a member when it is joined into a
    text: for a function its source text, which engines print in their
    own ways. *)
Class Engine := { memberText : jsstring -> jsstring }.

Definition object_of_entries {V} (entries : list (jsstring * V)) : object V :=
  foldl (fun o kv => <[kv.1 := kv.2]> o) ∅ entries.

Definition literal (entries : list (string * string)) : object jsstring :=
  object_of_entries (List.map (fun kv => (js kv.1, js kv.2)) entries).

(* ===================================================================== *)
(** * JavaScript numbers used as times                                     *)
(* ===================================================================== *)

(** The timeline code only multiplies, divides, adds and compares numbers.
    It is written once over these operations; the instance [float] is the
    binary64 arithmetic an engine performs. What is proved over the class
    holds whatever the operations are, and so in binary64. Integer-valued
    expressions ([index + 1], [array.length]) are computed on [nat] and
    injected by [ofNat]; they are exact in binary64 for every array an
    engine can hold. *)
Class Number (num : Type) := {
  ofNat : nat -> num;
  tenth : num;                       (* the literal [0.1] *)
  nadd : num -> num -> num;
  nmul : num -> num -> num;
  ndiv : num -> num -> num;
  nltb : num -> num -> bool;         (* [a < b] *)
  nleb : num -> num -> bool          (* [a <= b], also [b >= a] *)
}.

#[export] Instance float_number : Number float := {|
  ofNat n := PrimFloat.of_uint63 (Uint63.of_Z (Z.of_nat n));
  tenth := PrimFloat.div (PrimFloat.of_uint63 1) (PrimFloat.of_uint63 10);
  nadd := PrimFloat.add;
  nmul := PrimFloat.mul;
  ndiv := PrimFloat.div;
  nltb := PrimFloat.ltb;
  nleb := PrimFloat.leb
|}.

(** The one order law the scheduler relies on; it holds in binary64, also
    when an operand is NaN. *)
Class NumberOrder (num : Type) `{Number num} : Prop := {
  nleb_not_nltb : forall a b : num, nleb a b = true -> nltb b a = false
}.

(* ===================================================================== *)
(** * utils/phonemes.js                                                    *)
(* ===================================================================== *)

Module Phonemes.

(** [PHONEMES]: IPA phoneme to viseme code. The key ['r'] occurs twice in
    the source, with the same value. *)
Definition PHONEMES : object jsstring := literal [
  ("i", "EE"); ("ɪ", "IH"); ("e", "EH"); ("æ", "AA"); ("ɑ", "AA");
  ("ɔ", "AW"); ("oʊ", "OW"); ("ʊ", "UH"); ("u", "UW"); ("ʌ", "AH");
  ("ɜr", "ER"); ("ər", "ER");
  ("p", "PP"); ("b", "BB"); ("t", "DD"); ("d", "DD"); ("k", "KK");
  ("g", "GG"); ("f", "FF"); ("v", "VV"); ("θ", "TH"); ("ð", "TH");
  ("s", "SS"); ("z", "ZZ"); ("ʃ", "SH"); ("ʒ", "ZH"); ("h", "HH");
  ("m", "MM"); ("n", "NN"); ("ŋ", "NG"); ("l", "LL"); ("r", "RR");
  ("w", "WW"); ("j", "YY");
  ("x", "HH"); ("ɲ", "NN"); ("ʎ", "LL"); ("ɾ", "DD"); ("r", "RR")
]%string.

(** [VISEMES]: viseme code to blend-shape name. *)
Definition VISEMES : object jsstring := literal [
  ("AA", "viseme_aa"); ("IH", "viseme_ih"); ("EH", "viseme_eh");
  ("AH", "viseme_ah"); ("AW", "viseme_aw"); ("OW", "viseme_ow");
  ("UW", "viseme_uw"); ("UH", "viseme_uh"); ("ER", "viseme_er");
  ("PP", "viseme_pp"); ("BB", "viseme_bb"); ("DD", "viseme_dd");
  ("KK", "viseme_kk"); ("GG", "viseme_gg"); ("FF", "viseme_ff");
  ("VV", "viseme_vv"); ("TH", "viseme_th"); ("SS", "viseme_ss");
  ("ZZ", "viseme_zz"); ("SH", "viseme_sh"); ("ZH", "viseme_zh");
  ("HH", "viseme_hh"); ("MM", "viseme_mm"); ("NN", "viseme_nn");
  ("NG", "viseme_ng"); ("LL", "viseme_ll"); ("RR", "viseme_rr");
  ("WW", "viseme_ww"); ("YY", "viseme_yy"); ("REST", "viseme_rest")
]%string.

(** [phonemeToViseme]. The result is [undefined] when the viseme code has
    no entry in [VISEMES] (the code ["EE"] of phoneme ["i"]). The phonemes
    [textToPhonemes] produces are table values or single characters, none
    of which names a member of [Object.prototype]. *)
Definition phonemeToViseme `{Host} (phoneme : jsstring) : option jsstring :=
  let normalized := toLowerCase phoneme in
  let viseme := PHONEMES !! normalized in
  if truthy viseme then VISEMES !! default [] viseme
  else VISEMES !! js "REST".

Definition englishPhonemes : object jsstring := literal [
  ("a", "æ"); ("e", "e"); ("i", "ɪ"); ("o", "oʊ"); ("u", "u");
  ("th", "θ"); ("sh", "ʃ"); ("ch", "tʃ"); ("ng", "ŋ");
  ("ar", "ɑr"); ("er", "ər"); ("or", "ɔr")
]%string.

Definition spanishPhonemes : object jsstring := literal [
  ("a", "a"); ("e", "e"); ("i", "i"); ("o", "o"); ("u", "u");
  ("ñ", "ɲ"); ("ll", "ʎ"); ("rr", "r"); ("j", "x")
]%string.

(** The inner loop of [textToPhonemes] over the characters of one word.
    [word[i + 1]] is [undefined] at the last character, and the two
    character key is then the character followed by the text
    ["undefined"]. A two character match skips the next character. *)
Fixpoint wordPhonemes (phonemeMap : object jsstring) (word : jsstring)
  : list jsstring :=
  match word with
  | [] => []
  | char :: rest =>
      let twoChar := char :: match rest with
                             | [] => js "undefined"
                             | nextChar :: _ => [nextChar]
                             end in
      if truthy (phonemeMap !! twoChar) then
        default [] (phonemeMap !! twoChar) ::
          match rest with
          | [] => []
          | _ :: rest' => wordPhonemes phonemeMap rest'
          end
      else if truthy (phonemeMap !! [char]) then
        default [] (phonemeMap !! [char]) :: wordPhonemes phonemeMap rest
      else [char] :: wordPhonemes phonemeMap rest
  end.

Definition textToPhonemes `{Host} (text language : jsstring) : list jsstring :=
  let phonemeMap :=
    if str_eqb language (js "es") then spanishPhonemes else englishPhonemes in
  let words := split_ws (toLowerCase text) in
  let phonemes :=
    concat (List.map (fun word => wordPhonemes phonemeMap word ++ [js " "]) words) in
  List.filter (fun p => negb (str_eqb p (js " "))) phonemes.

Record VisemeItem (num : Type) := {
  vi_phoneme : jsstring;
  vi_viseme : option jsstring;
  vi_duration : num
}.
Arguments vi_phoneme {num} _.
Arguments vi_viseme {num} _.
Arguments vi_duration {num} _.

Definition generateVisemeSequence `{Host} {num : Type} `{Number num}
  (text language : jsstring) : list (VisemeItem num) :=
  List.map (fun phoneme =>
              {| vi_phoneme := phoneme;
                 vi_viseme := phonemeToViseme phoneme;
                 vi_duration := tenth |})
           (textToPhonemes text language).

End Phonemes.

(* ===================================================================== *)
(** * services/lipSync.js                                                  *)
(* ===================================================================== *)

Module LipSync.
Import Phonemes.

(** A viseme with its interval: the object [{...viseme, startTime, endTime}]. *)
Record TimedViseme (num : Type) := {
  phoneme : jsstring;
  viseme : option jsstring;
  duration : num;
  startTime : num;
  endTime : num
}.
Arguments phoneme {num} _.
Arguments viseme {num} _.
Arguments duration {num} _.
Arguments startTime {num} _.
Arguments endTime {num} _.

Definition REST : option jsstring := Some (js "viseme_rest").

Section Timeline.
Context `{Host} {num : Type} `{Number num}.

(** [generateLipSyncFromText(text, language, duration)] *)
Definition generateLipSyncFromText (text language : jsstring) (total : num)
  : list (TimedViseme num) :=
  let visemes := generateVisemeSequence text language in
  let visemeDuration := ndiv total (ofNat (length visemes)) in
  imap (fun index v =>
          {| phoneme := vi_phoneme v;
             viseme := vi_viseme v;
             duration := vi_duration v;
             startTime := nmul (ofNat index) visemeDuration;
             endTime := nmul (ofNat (index + 1)) visemeDuration |})
       visemes.

(** The fields of a [LipSyncService]. [animationFrame] is the handle of the
    last frame request or [null]; [onVisemeChange] tells whether a listener
    is installed. *)
Record Service := {
  currentViseme : option jsstring;
  visemeQueue : list (TimedViseme num);
  isPlaying : bool;
  animationFrame : option positive;
  onVisemeChange : bool
}.

(** The service with what it shares with the host: the counter from which
    [requestAnimationFrame] draws its handles (always positive), the
    requests that are pending, and the arguments of the calls made to the
    listener, oldest first. *)
Record World := {
  this : Service;
  nextHandle : positive;
  pendingFrames : list positive;
  notified : list (option jsstring)
}.

Definition constructor : Service :=
  {| currentViseme := REST; visemeQueue := []; isPlaying := false;
     animationFrame := None; onVisemeChange := false |}.

Definition with_this (f : Service -> Service) (w : World) : World :=
  {| this := f (this w); nextHandle := nextHandle w;
     pendingFrames := pendingFrames w; notified := notified w |}.

(** [setViseme(viseme)] *)
Definition setViseme (v : option jsstring) (w : World) : World :=
  let s := this w in
  {| this := {| currentViseme := v; visemeQueue := visemeQueue s;
                isPlaying := isPlaying s; animationFrame := animationFrame s;
                onVisemeChange := onVisemeChange s |};
     nextHandle := nextHandle w;
     pendingFrames := pendingFrames w;
     notified := if onVisemeChange s then notified w ++ [v] else notified w |}.

(** [stopLipSync()] *)
Definition stopLipSync (w : World) : World :=
  let s := this w in
  let w1 :=
    {| this := {| currentViseme := currentViseme s; visemeQueue := visemeQueue s;
                  isPlaying := false; animationFrame := None;
                  onVisemeChange := onVisemeChange s |};
       nextHandle := nextHandle w;
       pendingFrames :=
         match animationFrame s with
         | Some h => List.filter (fun h' => negb (Pos.eqb h h')) (pendingFrames w)
         | None => pendingFrames w
         end;
       notified := notified w |} in
  setViseme REST w1.

(** [this.animationFrame = requestAnimationFrame(() => this.animate())] *)
Definition requestFrame (w : World) : World :=
  let s := this w in
  let h := nextHandle w in
  {| this := {| currentViseme := currentViseme s; visemeQueue := visemeQueue s;
                isPlaying := isPlaying s; animationFrame := Some h;
                onVisemeChange := onVisemeChange s |};
     nextHandle := Pos.succ h;
     pendingFrames := pendingFrames w ++ [h];
     notified := notified w |}.

Definition setQueue (q : list (TimedViseme num)) (w : World) : World :=
  with_this (fun s =>
    {| currentViseme := currentViseme s; visemeQueue := q;
       isPlaying := isPlaying s; animationFrame := animationFrame s;
       onVisemeChange := onVisemeChange s |}) w.

(** [currentTime >= v.startTime && currentTime < v.endTime] *)
Definition covers (currentTime : num) (v : TimedViseme num) : bool :=
  nleb (startTime v) currentTime && nltb currentTime (endTime v).

(** [animate()], given the reading [currentTime] of the audio clock. *)
Definition animate (currentTime : num) (w : World) : World :=
  if negb (isPlaying (this w)) then w
  else
    let current := List.find (covers currentTime) (visemeQueue (this w)) in
    let w1 :=
      match current with
      | Some v =>
          if bool_decide (viseme v <> currentViseme (this w))
          then setViseme (viseme v) w else w
      | None => w
      end in
    let w2 :=
      setQueue (List.filter (fun v => nltb currentTime (endTime v))
                            (visemeQueue (this w1))) w1 in
    if Nat.eqb (length (visemeQueue (this w2))) 0 then stopLipSync w2
    else requestFrame w2.

(** [startLipSync(visemeSequence, startTime)]; [animate] runs at once and
    reads the clock. *)
Definition startLipSync (visemeSequence : list (TimedViseme num))
  (start currentTime : num) (w : World) : World :=
  let w1 := if isPlaying (this w) then stopLipSync w else w in
  let queue :=
    List.map (fun v =>
                {| phoneme := phoneme v; viseme := viseme v;
                   duration := duration v;
                   startTime := nadd (startTime v) start;
                   endTime := nadd (endTime v) start |})
             visemeSequence in
  let w2 := with_this (fun s =>
    {| currentViseme := currentViseme s; visemeQueue := queue;
       isPlaying := true; animationFrame := animationFrame s;
       onVisemeChange := onVisemeChange s |}) w1 in
  animate currentTime w2.

(** The host's render loop: the oldest pending frame request, if any, is
    served by running its callback, [animate], at clock reading [now]. *)
Definition tick (now : num) (w : World) : World :=
  match pendingFrames w with
  | [] => w
  | _ :: rest =>
      animate now {| this := this w; nextHandle := nextHandle w;
                     pendingFrames := rest; notified := notified w |}
  end.

Definition run (clock : list num) (w : World) : World :=
  foldl (fun w now => tick now w) w clock.

End Timeline.

Arguments Service : clear implicits.
Arguments World : clear implicits.

End LipSync.

(* ===================================================================== *)
(** * Typed arrays and [Math]                                              *)
(* ===================================================================== *)

Module Float32.

(** [Math.fround]: the binary32 value nearest to a binary64 one, as a
    binary64 value. Storing into a [Float32Array] applies it. *)
Definition fround (x : float) : float :=
  match Prim2SF x with
  | S754_finite s m e => SF2Prim (binary_round 24 128 s m e)
  | _ => x
  end.

(** A [Float32Array] is the list of its elements. *)
Abbreviation Float32Array := (list float).

(** [array[i] = v]; a write outside the array is ignored. *)
Definition store (i : nat) (v : float) (a : Float32Array) : Float32Array :=
  <[i := fround v]> a.

(** [array[i]] as an operand of arithmetic: [undefined] outside the array,
    which arithmetic turns into NaN. *)
Definition load (a : Float32Array) (i : nat) : float := nth i a nan.

(** [new Float32Array(length)] for an integer [length]: a negative length
    throws a [RangeError], otherwise the array is filled with zeros. *)
Definition new_Float32Array (len : Z) : result Float32Array :=
  if (len <? 0)%Z then Throw (js "RangeError: Invalid typed array length")
  else Return (replicate (Z.to_nat len) PrimFloat.zero).

(** [array.slice(start, end)] for [0 <= start <= end]. *)
Definition slice (a : Float32Array) (start stop : nat) : Float32Array :=
  take (stop - start) (drop start a).

End Float32.

Module JSMath.

Definition ofZ (z : Z) : float :=
  match z with
  | Zneg p => PrimFloat.opp (PrimFloat.of_uint63 (Uint63.of_Z (Zpos p)))
  | _ => PrimFloat.of_uint63 (Uint63.of_Z z)
  end.

(** The integer part used by [Math.floor] on a finite number. *)
Definition floorZ (x : float) : option Z :=
  match Prim2SF x with
  | S754_zero _ => Some 0%Z
  | S754_finite s m e => Some (Z.shiftl (if s then Zneg m else Zpos m) e)
  | _ => None
  end.

(** [Math.floor]: NaN, the infinities, the zeros and every number that is
    already an integer are returned as they are. *)
Definition floor (x : float) : float :=
  match Prim2SF x with
  | S754_finite s m e =>
      if (0 <=? e)%Z then x
      else let z := Z.shiftl (if s then Zneg m else Zpos m) e in
           if (z =? 0)%Z then PrimFloat.zero else ofZ z
  | _ => x
  end.

(** [Math.max] and [Math.min] of two numbers: NaN if either is NaN, and
    [-0] is smaller than [+0]. *)
Definition max (a b : float) : float :=
  if PrimFloat.is_nan a || PrimFloat.is_nan b then PrimFloat.nan
  else if PrimFloat.ltb a b then b
  else if PrimFloat.ltb b a then a
  else if PrimFloat.get_sign a then b else a.

Definition min (a b : float) : float :=
  if PrimFloat.is_nan a || PrimFloat.is_nan b then PrimFloat.nan
  else if PrimFloat.ltb a b then a
  else if PrimFloat.ltb b a then b
  else if PrimFloat.get_sign a then a else b.

(** [Math.PI] and the decimal literals of the sources, as the binary64
    values they denote. *)
Definition PI : float := 0x1.921fb54442d18p+1%float.          (* 3.141592653589793 *)
Definition lit_0_54 : float := 0x1.147ae147ae148p-1%float.    (* 0.54 *)
Definition lit_0_46 : float := 0x1.d70a3d70a3d71p-2%float.    (* 0.46 *)
Definition lit_1e_10 : float := 0x1.b7cdfd9d7bdbbp-34%float.  (* 1e-10 *)

(** The transcendental functions of [Math], whose results an engine may
    approximate. [Math.sqrt] is the correctly rounded square root. *)
Class Lib := {
  cos : float -> float;
  sin : float -> float;
  exp : float -> float;
  log : float -> float
}.

(** A number used as an index of an array: an integer that is not negative. *)
Definition toIndex (x : float) : option nat :=
  match floorZ x with
  | Some z => if PrimFloat.eqb (floor x) x && (0 <=? z)%Z then Some (Z.to_nat z) else None
  | None => None
  end.

End JSMath.

(* ===================================================================== *)
(** * services/stt.js                                                      *)
(* ===================================================================== *)

Module STT.
Import Float32.

Definition num (n : nat) : float := ofNat n.

(** [array[index]] for a number [index], as an operand of arithmetic. *)
Definition at_index (a : Float32Array) (index : float) : float :=
  match JSMath.toIndex index with
  | Some i => load a i
  | None => PrimFloat.nan
  end.

(** [new Float32Array(n)] for a number [n] that is an integer, NaN or
    infinite: NaN counts as 0 and an infinity throws. *)
Definition new_Float32Array_of (n : float) : result Float32Array :=
  if PrimFloat.is_nan n then Return []
  else match JSMath.floorZ n with
       | Some z => new_Float32Array z
       | None => Throw (js "RangeError: Invalid typed array length")
       end.

(** [resample(audio, targetSampleRate)] *)
Definition originalSampleRate : float := 44100%float.

Definition resample (audio : Float32Array) (targetSampleRate : float)
  : result Float32Array :=
  let ratio := (targetSampleRate / originalSampleRate)%float in
  let newLength := JSMath.floor (num (length audio) * ratio)%float in
  resampled0 ← new_Float32Array_of newLength;
  Return
    (foldl (fun resampled i =>
              let originalIndex := (num i / ratio)%float in
              let index1 := JSMath.floor originalIndex in
              let index2 := JSMath.min (index1 + 1)%float (num (length audio) - 1)%float in
              let fraction := (originalIndex - index1)%float in
              store i (at_index audio index1 * (1 - fraction)
                       + at_index audio index2 * fraction)%float resampled)
           resampled0 (seq 0 (length resampled0))).

Section Features.
Context `{JSMath.Lib}.

(** [applyWindow(data)] *)
Definition applyWindow (data : Float32Array) : Float32Array :=
  foldl (fun windowed i =>
           let windowValue :=
             (JSMath.lit_0_54
              - JSMath.lit_0_46
                * JSMath.cos (2 * JSMath.PI * num i / (num (length data) - 1)))%float in
           store i (load data i * windowValue)%float windowed)
        (replicate (length data) PrimFloat.zero) (seq 0 (length data)).

(** [computePowerSpectrum(data)] *)
Definition fftSize : nat := 512.

Definition computePowerSpectrum (data : Float32Array) : Float32Array :=
  foldl (fun spectrum k =>
           let '(real, imag) :=
             foldl (fun '(real, imag) n =>
                      let angle := ((-2) * JSMath.PI * num k * num n / num fftSize)%float in
                      ((real + load data n * JSMath.cos angle)%float,
                       (imag + load data n * JSMath.sin angle)%float))
                   (PrimFloat.zero, PrimFloat.zero) (seq 0 (length data)) in
           store k (real * real + imag * imag)%float spectrum)
        (replicate (fftSize / 2) PrimFloat.zero) (seq 0 (fftSize / 2)).

(** [applyMelFilterbank(spectrum, numMels)] *)
Definition applyMelFilterbank (spectrum : Float32Array) (numMels : nat)
  : Float32Array :=
  foldl (fun melFeatures mel =>
           let sum :=
             foldl (fun sum bin =>
                      let weight :=
                        JSMath.exp (- PrimFloat.abs
                                        (num bin - num mel * num (length spectrum) / num numMels))%float in
                      (sum + load spectrum bin * weight)%float)
                   PrimFloat.zero (seq 0 (length spectrum)) in
           store mel (JSMath.log (JSMath.max sum JSMath.lit_1e_10)) melFeatures)
        (replicate numMels PrimFloat.zero) (seq 0 numMels).

(** [computeMelSpectrogram(audio)]. The frame count is computed on
    integers: for every array length an engine allows, the binary64
    quotient [(length - 400) / 160] has the same floor as the exact one. *)
Definition frameSize : nat := 400.
Definition hopSize : nat := 160.
Definition numMels : nat := 80.

Definition numFrames (audio : Float32Array) : Z :=
  ((Z.of_nat (length audio) - Z.of_nat frameSize) / Z.of_nat hopSize + 1)%Z.

Definition computeMelSpectrogram (audio : Float32Array) : result Float32Array :=
  spectrogram0 ← new_Float32Array (numFrames audio * Z.of_nat numMels);
  Return
    (foldl (fun spectrogram frame =>
              let start := (frame * hopSize)%nat in
              let stop := (start + frameSize)%nat in
              let frameData := slice audio start stop in
              let windowed := applyWindow frameData in
              let powerSpectrum := computePowerSpectrum windowed in
              let melFeatures := applyMelFilterbank powerSpectrum numMels in
              foldl (fun spectrogram mel =>
                       store (frame * numMels + mel) (load melFeatures mel) spectrogram)
                    spectrogram (seq 0 numMels))
           spectrogram0 (seq 0 (Z.to_nat (numFrames audio)))).

(** [normalize(spectrogram)]. [x ** 2] is taken as [x * x]. *)
Definition mean_of (spectrogram : Float32Array) : float :=
  (foldl (fun sum val => sum + val) PrimFloat.zero spectrogram
   / num (length spectrogram))%float.

Definition variance_of (spectrogram : Float32Array) : float :=
  let mean := mean_of spectrogram in
  (foldl (fun sum val => sum + (val - mean) * (val - mean)) PrimFloat.zero spectrogram
   / num (length spectrogram))%float.

Definition normalize (spectrogram : Float32Array) : Float32Array :=
  let mean := mean_of spectrogram in
  let std := PrimFloat.sqrt (variance_of spectrogram) in
  foldl (fun normalized i =>
           store i ((load spectrogram i - mean) / std)%float normalized)
        (replicate (length spectrogram) PrimFloat.zero)
        (seq 0 (length spectrogram)).

(** The first stage of [preprocessAudio]: the test is on the number of
    samples, and [resample] is given the target rate only. *)
Definition targetSampleRate : float := 16000%float.

Definition resampleStage (audioData : Float32Array) : result Float32Array :=
  if negb (Z.of_nat (length audioData) =? 16000)%Z then resample audioData targetSampleRate
  else Return audioData.

(** [preprocessAudio(audioData)] *)
Definition preprocessAudio (audioData : Float32Array) : result Float32Array :=
  resampled ← resampleStage audioData;
  melSpectrogram ← computeMelSpectrogram resampled;
  Return (normalize melSpectrogram).

End Features.

(** [argmax(array)]; [array[0]] is [undefined] for an empty array, the
    loop does not run and the result is 0. *)
Definition argmax (array : Float32Array) : nat :=
  match array with
  | [] => 0%nat
  | first :: _ =>
      fst (foldl (fun '(maxIndex, maxValue) i =>
                    if PrimFloat.ltb maxValue (load array i)
                    then (i, load array i) else (maxIndex, maxValue))
                 (0%nat, first) (seq 1 (length array - 1)))
  end.

(** [tokensToText(tokens, language)]; [vocab] is the array of symbols,
    indexed by token, or [null] before it is loaded. *)
Definition keptSymbol (symbol : option jsstring) : bool :=
  truthy symbol
  && negb (bool_decide (symbol = Some (js "<sos>")))
  && negb (bool_decide (symbol = Some (js "<eos>"))).

Definition tokensToText (vocab : option (list jsstring)) (tokens : list nat)
  : result jsstring :=
  match vocab with
  | None => Throw (js "Vocabulary not loaded")
  | Some vocab =>
      let symbols := List.map (fun token => vocab !! token) tokens in
      let kept := List.filter keptSymbol symbols in
      let text := join (js " ") (List.map (default []) kept) in
      Return (trim text)
  end.

(** The loop of [decodeOutput]: [i] advances by [vocabSize] while it is
    below [output.length]. With an empty vocabulary it never advances;
    [fuel] bounds the number of iterations and [None] reports that it ran
    out. *)
Fixpoint decodeLoop (fuel vocabSize : nat) (output : Float32Array)
  : option (list nat) :=
  match output with
  | [] => Some []
  | _ :: _ =>
      match fuel with
      | O => None
      | S fuel' =>
          tokens ← decodeLoop fuel' vocabSize (drop vocabSize output);
          Some (argmax (take vocabSize output) :: tokens)
      end
  end.

Definition decodeOutput (fuel : nat) (vocab : option (list jsstring))
  (output : Float32Array) : option (result jsstring) :=
  match vocab with
  | None => Some (Throw (js "TypeError: Cannot read properties of null"))
  | Some v =>
      tokens ← decodeLoop fuel (length v) output;
      Some (tokensToText vocab tokens)
  end.

End STT.

(* ===================================================================== *)
(** * services/mt.js                                                       *)
(* ===================================================================== *)

Module MT.

(** [this.vocab] of [MTService] is an object from words to token ids; it
    is given by the sequence of entries [Object.entries] yields. *)
Abbreviation Vocab := (list (jsstring * nat)).

(** The loop that fills [reverseVocab]: a later entry with the same id
    replaces an earlier one. *)
Definition reverseVocab (vocab : Vocab) : gmap nat jsstring :=
  foldl (fun reverse '(word, index) => <[index := word]> reverse) ∅ vocab.

Definition keptWord (word : option jsstring) : bool :=
  truthy word
  && negb (bool_decide (word = Some (js "<sos>")))
  && negb (bool_decide (word = Some (js "<eos>")))
  && negb (bool_decide (word = Some (js "<unk>"))).

(** [MTService.tokensToText(tokens, language)] *)
Definition tokensToText (vocab : option Vocab) (tokens : list nat)
  : result jsstring :=
  match vocab with
  | None => Throw (js "Vocabulary not loaded")
  | Some vocab =>
      let reverse := reverseVocab vocab in
      let words := List.map (fun token => reverse !! token) tokens in
      let kept := List.filter keptWord words in
      let text := join (js " ") (List.map (default []) kept) in
      Return (trim text)
  end.

(** [this.vocab[key]] for the keys [length] and [<eos>], neither of which
    names a member of [Object.prototype]; [Object.entries] yields every
    key once. *)
Definition lookupWord (vocab : Vocab) (key : jsstring) : option nat :=
  snd <$> List.find (fun entry => str_eqb entry.1 key) vocab.

(** [MTService.argmax] has the text of [STTService.argmax]. *)
Definition argmax (array : list float) : nat := STT.argmax array.

(** The loop of [MTService.decodeOutput]. [vocabSize] is
    [this.vocab.length], which is [undefined] unless the vocabulary has a
    word [length]: then [output.slice(i, i + vocabSize)] is
    [output.slice(i, NaN)], the empty array, and [i += vocabSize] makes
    [i] NaN, which ends the loop after its first round. [eos] is
    [this.vocab['<eos>']]. As in [STT.decodeLoop], [fuel] bounds the
    number of rounds. *)
Fixpoint decodeLoop (fuel : nat) (vocabSize eos : option nat) (output : list float)
  : option (list nat) :=
  match output with
  | [] => Some []
  | _ :: _ =>
      match fuel with
      | O => None
      | S fuel' =>
          let logits := match vocabSize with
                        | Some size => take size output
                        | None => []
                        end in
          let token := argmax logits in
          if bool_decide (eos = Some token) then Some []
          else match vocabSize with
               | Some size =>
                   tokens ← decodeLoop fuel' vocabSize eos (drop size output);
                   Some (token :: tokens)
               | None => Some [token]
               end
      end
  end.

(** [MTService.decodeOutput(output, language)] *)
Definition decodeOutput (fuel : nat) (vocab : option Vocab) (output : list float)
  : option (result jsstring) :=
  match vocab with
  | None => Some (Throw (js "TypeError: Cannot read properties of null"))
  | Some v =>
      tokens ← decodeLoop fuel (lookupWord v (js "length")) (lookupWord v (js "<eos>"))
                          output;
      Some (tokensToText vocab tokens)
  end.

End MT.

Module DictionaryMT.

Definition en_es : object jsstring := literal [
  ("hello", "hola"); ("goodbye", "adiós"); ("thank you", "gracias");
  ("please", "por favor"); ("yes", "sí"); ("no", "no");
  ("how are you", "cómo estás"); ("good morning", "buenos días");
  ("good afternoon", "buenas tardes"); ("good night", "buenas noches");
  ("what is your name", "cómo te llamas"); ("my name is", "me llamo");
  ("nice to meet you", "encantado de conocerte");
  ("where are you from", "de dónde eres"); ("i am from", "soy de");
  ("do you speak english", "hablas inglés");
  ("do you speak spanish", "hablas español");
  ("i understand", "entiendo"); ("i do not understand", "no entiendo");
  ("can you help me", "puedes ayudarme"); ("excuse me", "disculpa");
  ("sorry", "lo siento"); ("good", "bueno"); ("bad", "malo");
  ("big", "grande"); ("small", "pequeño"); ("hot", "caliente");
  ("cold", "frío"); ("water", "agua"); ("food", "comida");
  ("house", "casa"); ("car", "coche"); ("time", "tiempo"); ("day", "día");
  ("night", "noche"); ("today", "hoy"); ("tomorrow", "mañana");
  ("yesterday", "ayer")
]%string.

Definition es_en : object jsstring := literal [
  ("hola", "hello"); ("adiós", "goodbye"); ("gracias", "thank you");
  ("por favor", "please"); ("sí", "yes"); ("no", "no");
  ("cómo estás", "how are you"); ("buenos días", "good morning");
  ("buenas tardes", "good afternoon"); ("buenas noches", "good night");
  ("cómo te llamas", "what is your name"); ("me llamo", "my name is");
  ("encantado de conocerte", "nice to meet you");
  ("de dónde eres", "where are you from"); ("soy de", "i am from");
  ("hablas inglés", "do you speak english");
  ("hablas español", "do you speak spanish");
  ("entiendo", "i understand"); ("no entiendo", "i do not understand");
  ("puedes ayudarme", "can you help me"); ("disculpa", "excuse me");
  ("lo siento", "sorry"); ("bueno", "good"); ("malo", "bad");
  ("grande", "big"); ("pequeño", "small"); ("caliente", "hot");
  ("frío", "cold"); ("agua", "water"); ("comida", "food");
  ("casa", "house"); ("coche", "car"); ("tiempo", "time"); ("día", "day");
  ("noche", "night"); ("hoy", "today"); ("mañana", "tomorrow");
  ("ayer", "yesterday")
]%string.

(** [this.dictionaries], as the constructor sets it. *)
Abbreviation Dictionaries := (object (object jsstring)).

Definition constructor : Dictionaries :=
  object_of_entries [(js "en-es", en_es); (js "es-en", es_en)].

Definition dictKey (sourceLang targetLang : jsstring) : jsstring :=
  sourceLang ++ js "-" ++ targetLang.

Section Translate.
Context `{Host} `{Engine}.

(** [dictionary[word] || word], as the string [join] makes of it. An
    entry of the table that is the empty string counts as absent. A word
    the table has no entry for, and which names a member of
    [Object.prototype], reads as that member, which is truthy and so
    takes the place of the word. *)
Definition translateWord (dictionary : object jsstring) (word : jsstring)
  : jsstring :=
  match dictionary !! word with
  | Some entry => if truthy (Some entry) then entry else word
  | None => if bool_decide (word ∈ prototypeMembers) then memberText word else word
  end.

Definition translatedWords (dictionary : object jsstring) (text : jsstring)
  : list jsstring :=
  let words := split_ws (toLowerCase text) in
  List.map (translateWord dictionary) words.

(** [translate(text, sourceLang, targetLang)]; a rejected promise is the
    [Throw] result. The key of a pair holds a hyphen, which no name of a
    member of [Object.prototype] does. *)
Definition translate (dictionaries : Dictionaries)
  (text sourceLang targetLang : jsstring) : result jsstring :=
  match dictionaries !! dictKey sourceLang targetLang with
  | None =>
      Throw (js "Translation not supported: " ++ sourceLang ++ js " to " ++ targetLang)
  | Some dictionary => Return (join (js " ") (translatedWords dictionary text))
  end.

(** [addTranslation(source, target, sourceLang, targetLang)]. Assigning
    a string to [__proto__] in a table without an entry of that name
    calls the inherited setter, which ignores it. *)
Definition addTranslation (dictionaries : Dictionaries)
  (source target sourceLang targetLang : jsstring) : Dictionaries :=
  let key := dictKey sourceLang targetLang in
  let dictionary := default ∅ (dictionaries !! key) in
  let word := toLowerCase source in
  if str_eqb word (js "__proto__") && negb (bool_decide (is_Some (dictionary !! word)))
  then <[key := dictionary]> dictionaries
  else <[key := <[word := toLowerCase target]> dictionary]> dictionaries.

End Translate.

End DictionaryMT.

(* ===================================================================== *)
(** * Host codecs: [TextEncoder], [JSON], base64                           *)
(* ===================================================================== *)

Module Codec.

Definition isHighSurrogate (c : N) : bool := (0xD800 <=? c) && (c <=? 0xDBFF).
Definition isLowSurrogate (c : N) : bool := (0xDC00 <=? c) && (c <=? 0xDFFF).

(** The scalar values of a string; a surrogate without its partner is
    replaced by U+FFFD. *)
Fixpoint codePoints (s : jsstring) : list N :=
  match s with
  | [] => []
  | c :: rest =>
      if isHighSurrogate c then
        match rest with
        | lo :: rest' =>
            if isLowSurrogate lo
            then (0x10000 + (c - 0xD800) * 0x400 + (lo - 0xDC00)) :: codePoints rest'
            else replacement :: codePoints rest
        | [] => [replacement]
        end
      else if isLowSurrogate c then replacement :: codePoints rest
      else c :: codePoints rest
  end.

Definition utf8_of_cp (cp : N) : list N :=
  if cp <? 0x80 then [cp]
  else if cp <? 0x800 then
    [N.lor 0xC0 (N.shiftr cp 6); N.lor 0x80 (N.land cp 0x3F)]
  else if cp <? 0x10000 then
    [N.lor 0xE0 (N.shiftr cp 12); N.lor 0x80 (N.land (N.shiftr cp 6) 0x3F);
     N.lor 0x80 (N.land cp 0x3F)]
  else
    [N.lor 0xF0 (N.shiftr cp 18); N.lor 0x80 (N.land (N.shiftr cp 12) 0x3F);
     N.lor 0x80 (N.land (N.shiftr cp 6) 0x3F); N.lor 0x80 (N.land cp 0x3F)].

(** A number as an element of a [Uint8Array]: its value modulo 256. *)
Definition toUint8 (n : N) : Byte.byte :=
  default Byte.x00 (Byte.of_N (n mod 256)).

(** [new TextEncoder().encode(s)] *)
Definition TextEncoder_encode (s : jsstring) : list Byte.byte :=
  List.map toUint8 (concat (List.map utf8_of_cp (codePoints s))).

(** ** Base64 *)

Definition sextetChar (n : N) : N :=
  if n <? 26 then 0x41 + n
  else if n <? 52 then 0x61 + (n - 26)
  else if n <? 62 then 0x30 + (n - 52)
  else if n =? 62 then 0x2B
  else 0x2F.

Definition charSextet (c : N) : option N :=
  if (0x41 <=? c) && (c <=? 0x5A) then Some (c - 0x41)
  else if (0x61 <=? c) && (c <=? 0x7A) then Some (c - 0x61 + 26)
  else if (0x30 <=? c) && (c <=? 0x39) then Some (c - 0x30 + 52)
  else if c =? 0x2B then Some 62
  else if c =? 0x2F then Some 63
  else None.

(** The base64 text of a sequence of bytes, as [readAsDataURL] and [btoa]
    produce it: four characters for three bytes, padded with [=]. *)
Fixpoint base64 (bytes : list N) : jsstring :=
  match bytes with
  | [] => []
  | [a] =>
      [sextetChar (a / 4); sextetChar (a mod 4 * 16); 0x3D; 0x3D]
  | [a; b] =>
      [sextetChar (a / 4); sextetChar (a mod 4 * 16 + b / 16);
       sextetChar (b mod 16 * 4); 0x3D]
  | a :: b :: c :: rest =>
      sextetChar (a / 4) :: sextetChar (a mod 4 * 16 + b / 16)
      :: sextetChar (b mod 16 * 4 + c / 64) :: sextetChar (c mod 64)
      :: base64 rest
  end.

(** [atob]: the forgiving base64 decoder. ASCII white space is removed;
    if the length is then a multiple of four, one or two [=] at the end
    are removed; a length of 1 modulo 4 or a character outside the
    alphabet is an error; bits left over at the end are dropped. The
    result is a string of code units below 256. *)
Definition isAsciiWhitespace (c : N) : bool :=
  (c =? 0x09) || (c =? 0x0A) || (c =? 0x0C) || (c =? 0x0D) || (c =? 0x20).

Fixpoint stripPadding (s : jsstring) : jsstring :=
  match s with
  | [] => []
  | c :: rest =>
      match c, rest with
      | 0x3D, [] => []
      | 0x3D, [0x3D] => []
      | _, _ => c :: stripPadding rest
      end
  end.

Fixpoint sextets (s : jsstring) : option (list N) :=
  match s with
  | [] => Some []
  | c :: rest =>
      n ← charSextet c; ns ← sextets rest; Some (n :: ns)
  end.

Fixpoint decodeSextets (ns : list N) : jsstring :=
  match ns with
  | a :: b :: c :: d :: rest =>
      (a * 4 + b / 16) :: (b mod 16 * 16 + c / 4) :: (c mod 4 * 64 + d)
      :: decodeSextets rest
  | [a; b; c] => [a * 4 + b / 16; b mod 16 * 16 + c / 4]
  | [a; b] => [a * 4 + b / 16]
  | _ => []
  end.

Definition atob (data : jsstring) : result jsstring :=
  let data := List.filter (fun c => negb (isAsciiWhitespace c)) data in
  let data := if (N.of_nat (length data) mod 4 =? 0) then stripPadding data else data in
  if N.of_nat (length data) mod 4 =? 1
  then Throw (js "InvalidCharacterError")
  else match sextets data with
       | Some ns => Return (decodeSextets ns)
       | None => Throw (js "InvalidCharacterError")
       end.

(** [s.split(',')] *)
Fixpoint split_at (sep : N) (cur : jsstring) (s : jsstring) : list jsstring :=
  match s with
  | [] => [rev cur]
  | c :: rest =>
      if c =? sep then rev cur :: split_at sep [] rest
      else split_at sep (c :: cur) rest
  end.

Definition split_comma (s : jsstring) : list jsstring := split_at 0x2C [] s.

(** ** JSON *)

#[local] Unset Elimination Schemes.
Inductive value : Type :=
| Null
| Bool (b : bool)
| Number (mantissa exponent : Z)        (* [mantissa * 10 ^ exponent] *)
| String (s : jsstring)
| Array (items : list value)
| Object (members : list (jsstring * value)).
#[local] Set Elimination Schemes.

Definition hexDigit (n : N) : N := if n <? 10 then 0x30 + n else 0x61 + (n - 10).

Definition hexValue (c : N) : option N :=
  if (0x30 <=? c) && (c <=? 0x39) then Some (c - 0x30)
  else if (0x61 <=? c) && (c <=? 0x66) then Some (c - 0x61 + 10)
  else if (0x41 <=? c) && (c <=? 0x46) then Some (c - 0x41 + 10)
  else None.

(** The escape [\uXXXX] of a code unit. *)
Definition unicodeEscape (c : N) : jsstring :=
  [0x5C; 0x75; hexDigit (c / 4096 mod 16); hexDigit (c / 256 mod 16);
   hexDigit (c / 16 mod 16); hexDigit (c mod 16)].

(** The characters of a string between the quotes of its JSON text
    (QuoteJSONString). *)
Fixpoint escape (s : jsstring) : jsstring :=
  match s with
  | [] => []
  | c :: rest =>
      if c =? 0x08 then 0x5C :: 0x62 :: escape rest
      else if c =? 0x09 then 0x5C :: 0x74 :: escape rest
      else if c =? 0x0A then 0x5C :: 0x6E :: escape rest
      else if c =? 0x0C then 0x5C :: 0x66 :: escape rest
      else if c =? 0x0D then 0x5C :: 0x72 :: escape rest
      else if c <? 0x20 then unicodeEscape c ++ escape rest
      else if c =? 0x22 then 0x5C :: 0x22 :: escape rest
      else if c =? 0x5C then 0x5C :: 0x5C :: escape rest
      else if isHighSurrogate c then
        match rest with
        | lo :: rest' =>
            if isLowSurrogate lo then c :: lo :: escape rest'
            else unicodeEscape c ++ escape rest
        | [] => unicodeEscape c
        end
      else if isLowSurrogate c then unicodeEscape c ++ escape rest
      else c :: escape rest
  end.

Definition quote (s : jsstring) : jsstring := 0x22 :: escape s ++ [0x22].

(** The decimal digits of a natural number. *)
Fixpoint digitChars (d : Decimal.uint) : jsstring :=
  match d with
  | Decimal.Nil => []
  | Decimal.D0 d => 0x30 :: digitChars d
  | Decimal.D1 d => 0x31 :: digitChars d
  | Decimal.D2 d => 0x32 :: digitChars d
  | Decimal.D3 d => 0x33 :: digitChars d
  | Decimal.D4 d => 0x34 :: digitChars d
  | Decimal.D5 d => 0x35 :: digitChars d
  | Decimal.D6 d => 0x36 :: digitChars d
  | Decimal.D7 d => 0x37 :: digitChars d
  | Decimal.D8 d => 0x38 :: digitChars d
  | Decimal.D9 d => 0x39 :: digitChars d
  end.

Definition decimal (n : N) : jsstring := digitChars (N.to_uint n).

(** *** [JSON.parse] *)

Definition isJsonSpace (c : N) : bool :=
  (c =? 0x20) || (c =? 0x09) || (c =? 0x0A) || (c =? 0x0D).

Fixpoint skipSpace (s : jsstring) : jsstring :=
  match s with
  | c :: rest => if isJsonSpace c then skipSpace rest else s
  | [] => []
  end.

(** The characters of a string up to its closing quote. *)
Fixpoint parseChars (acc : jsstring) (s : jsstring) : option (jsstring * jsstring) :=
  match s with
  | [] => None
  | c :: rest =>
      if c =? 0x22 then Some (rev acc, rest)
      else if c =? 0x5C then
        match rest with
        | [] => None
        | e :: rest1 =>
            if e =? 0x22 then parseChars (0x22 :: acc) rest1
            else if e =? 0x5C then parseChars (0x5C :: acc) rest1
            else if e =? 0x2F then parseChars (0x2F :: acc) rest1
            else if e =? 0x62 then parseChars (0x08 :: acc) rest1
            else if e =? 0x66 then parseChars (0x0C :: acc) rest1
            else if e =? 0x6E then parseChars (0x0A :: acc) rest1
            else if e =? 0x72 then parseChars (0x0D :: acc) rest1
            else if e =? 0x74 then parseChars (0x09 :: acc) rest1
            else if e =? 0x75 then
              match rest1 with
              | h1 :: h2 :: h3 :: h4 :: rest2 =>
                  match hexValue h1, hexValue h2, hexValue h3, hexValue h4 with
                  | Some a, Some b, Some c', Some d =>
                      parseChars ((a * 4096 + b * 256 + c' * 16 + d) :: acc) rest2
                  | _, _, _, _ => None
                  end
              | _ => None
              end
            else None
        end
      else if c <? 0x20 then None
      else parseChars (c :: acc) rest
  end.

Definition isDigit (c : N) : bool := (0x30 <=? c) && (c <=? 0x39).

(** The leading digits of a text, as a number and a count, and the rest. *)
Fixpoint takeDigits (value : Z) (count : nat) (s : jsstring) : Z * nat * jsstring :=
  match s with
  | c :: rest =>
      if isDigit c then takeDigits (value * 10 + Z.of_N (c - 0x30)) (S count) rest
      else (value, count, s)
  | [] => (value, count, [])
  end.

(** A number: [-? int frac? exp?], where [int] has no superfluous
    leading zero. *)
Definition stripMinus (s : jsstring) : bool * jsstring :=
  match s with
  | c :: rest => if c =? 0x2D then (true, rest) else (false, s)
  | [] => (false, [])
  end.

Definition startsWithZero (s : jsstring) : bool :=
  match s with
  | c :: _ => c =? 0x30
  | [] => false
  end.

Definition parseInt (s : jsstring) : option (Z * jsstring) :=
  let '(int, count, rest) := takeDigits 0 0 s in
  if Nat.eqb count 0 then None
  else if startsWithZero s && Nat.ltb 1 count then None
  else Some (int, rest).

(** The mantissa with the digits of the fraction, and their number. *)
Definition parseFraction (int : Z) (s : jsstring) : option (Z * Z * jsstring) :=
  match s with
  | c :: rest =>
      if c =? 0x2E then
        let '(m, count, rest') := takeDigits int 0 rest in
        if Nat.eqb count 0 then None else Some (m, Z.of_nat count, rest')
      else Some (int, 0%Z, s)
  | [] => Some (int, 0%Z, [])
  end.

Definition parseDigits (sign : Z) (s : jsstring) : option (Z * jsstring) :=
  let '(e, count, rest) := takeDigits 0 0 s in
  if Nat.eqb count 0 then None else Some ((sign * e)%Z, rest).

Definition parseExponent (s : jsstring) : option (Z * jsstring) :=
  match s with
  | c :: rest =>
      if (c =? 0x65) || (c =? 0x45) then
        match rest with
        | sign :: rest' =>
            if sign =? 0x2B then parseDigits 1 rest'
            else if sign =? 0x2D then parseDigits (-1) rest'
            else parseDigits 1 rest
        | [] => None
        end
      else Some (0%Z, s)
  | [] => Some (0%Z, [])
  end.

Definition parseNumber (s : jsstring) : option (value * jsstring) :=
  let '(negative, s1) := stripMinus s in
  '(int, s2) ← parseInt s1;
  '(m, scale, s3) ← parseFraction int s2;
  '(e, s4) ← parseExponent s3;
  Some (Number (if negative then (- m)%Z else m) (e - scale)%Z, s4).

Definition parseKeyword (s : jsstring) : option (value * jsstring) :=
  match s with
  | 0x74 :: 0x72 :: 0x75 :: 0x65 :: rest => Some (Bool true, rest)
  | 0x66 :: 0x61 :: 0x6C :: 0x73 :: 0x65 :: rest => Some (Bool false, rest)
  | 0x6E :: 0x75 :: 0x6C :: 0x6C :: rest => Some (Null, rest)
  | _ => None
  end.

(** A value, the members of an object after its brace, the items of an
    array after its bracket. Every call passes one unit of [fuel] less;
    a text never needs more than its length. *)
Fixpoint parseValue (fuel : nat) (s : jsstring) {struct fuel}
  : option (value * jsstring) :=
  match fuel with
  | O => None
  | S fuel' =>
      match skipSpace s with
      | [] => None
      | c :: rest =>
          if c =? 0x7B then
            match skipSpace rest with
            | 0x7D :: rest' => Some (Object [], rest')
            | _ => parseMembers fuel' [] rest
            end
          else if c =? 0x5B then
            match skipSpace rest with
            | 0x5D :: rest' => Some (Array [], rest')
            | _ => parseItems fuel' [] rest
            end
          else if c =? 0x22 then
            '(str, rest') ← parseChars [] rest; Some (String str, rest')
          else if (c =? 0x2D) || isDigit c then parseNumber (c :: rest)
          else parseKeyword (c :: rest)
      end
  end
with parseMembers (fuel : nat) (acc : list (jsstring * value)) (s : jsstring)
  {struct fuel} : option (value * jsstring) :=
  match fuel with
  | O => None
  | S fuel' =>
      match skipSpace s with
      | 0x22 :: rest =>
          match parseChars [] rest with
          | None => None
          | Some (key, rest1) =>
              match skipSpace rest1 with
              | 0x3A :: rest2 =>
                  match parseValue fuel' rest2 with
                  | None => None
                  | Some (v, rest3) =>
                      match skipSpace rest3 with
                      | 0x2C :: rest4 => parseMembers fuel' ((key, v) :: acc) rest4
                      | 0x7D :: rest4 => Some (Object (rev ((key, v) :: acc)), rest4)
                      | _ => None
                      end
                  end
              | _ => None
              end
          end
      | _ => None
      end
  end
with parseItems (fuel : nat) (acc : list value) (s : jsstring)
  {struct fuel} : option (value * jsstring) :=
  match fuel with
  | O => None
  | S fuel' =>
      match parseValue fuel' s with
      | None => None
      | Some (v, rest) =>
          match skipSpace rest with
          | 0x2C :: rest' => parseItems fuel' (v :: acc) rest'
          | 0x5D :: rest' => Some (Array (rev (v :: acc)), rest')
          | _ => None
          end
      end
  end.

Definition JSON_parse (text : jsstring) : result value :=
  match parseValue (S (length text)) text with
  | Some (v, rest) =>
      match skipSpace rest with
      | [] => Return v
      | _ :: _ => Throw (js "SyntaxError")
      end
  | None => Throw (js "SyntaxError")
  end.

(** [v[key]] for a parsed value: the last member with that key of an
    object, [undefined] otherwise. Reading a property of [null] throws. *)
Fixpoint lastMember (key : jsstring) (members : list (jsstring * value))
  : option value :=
  match members with
  | [] => None
  | (k, v) :: rest =>
      match lastMember key rest with
      | Some v' => Some v'
      | None => if bool_decide (k = key) then Some v else None
      end
  end.

Definition getMember (v : value) (key : jsstring) : result (option value) :=
  match v with
  | Null => Throw (js "TypeError: Cannot read properties of null")
  | Object members => Return (lastMember key members)
  | _ => Return None
  end.

End Codec.

(* ===================================================================== *)
(** * services/webrtc.js and AudioBufferUtils                              *)
(* ===================================================================== *)

Module WebRTC.
Import Codec.

(** A [Blob]: its MIME type and its bytes. *)
Record Blob := { blobType : jsstring; blobBytes : list Byte.byte }.

(** What [sendAudio] may be given. *)
Inductive AudioData :=
| IsBlob (blob : Blob)
| IsArrayBuffer (bytes : list Byte.byte)
| Unsupported.

(** The media type a data URL names: that of the blob, and
    [application/octet-stream] for a blob that has none. *)
Definition mediaType (blob : Blob) : jsstring :=
  match blobType blob with
  | [] => js "application/octet-stream"
  | c :: type => c :: type
  end.

(** [FileReader.readAsDataURL(blob)], the value [blobToBase64] and
    [convertAudioToBase64] resolve to: the media type and the base64 text
    of the bytes. *)
Definition readAsDataURL (blob : Blob) : jsstring :=
  js "data:" ++ mediaType blob ++ js ";base64,"
  ++ base64 (List.map Byte.to_N (blobBytes blob)).

(** [AudioBufferUtils.blobToBase64(audioBlob)] *)
Definition blobToBase64 (audioBlob : Blob) : jsstring := readAsDataURL audioBlob.

(** [convertAudioToBase64(audioData)]; a rejected promise is [Throw]. *)
Definition convertAudioToBase64 (audioData : AudioData) : result jsstring :=
  match audioData with
  | IsBlob blob => Return (readAsDataURL blob)
  | IsArrayBuffer bytes =>
      Return (readAsDataURL {| blobType := js "audio/wav"; blobBytes := bytes |})
  | Unsupported => Throw (js "Unsupported audio data type")
  end.

(** The common body of [convertBase64ToAudio] and [base64ToBlob]:
    [atob(base64.split(',')[1])], then one byte per character. *)
Definition decodeDataURL (base64 : jsstring) : result (list Byte.byte) :=
  let payload := default (js "undefined") (split_comma base64 !! 1%nat) in
  byteCharacters ← atob payload;
  Return (List.map toUint8 byteCharacters).

(** [WebRTCService.convertBase64ToAudio(base64)] *)
Definition convertBase64ToAudio (base64 : jsstring) : result Blob :=
  bytes ← decodeDataURL base64;
  Return {| blobType := js "audio/wav"; blobBytes := bytes |}.

(** [AudioBufferUtils.base64ToBlob(base64)] *)
Definition base64ToBlob (base64 : jsstring) : result Blob :=
  bytes ← decodeDataURL base64;
  Return {| blobType := js "audio/webm"; blobBytes := bytes |}.

(** The three messages the service builds; [timestamp] is [Date.now()]. *)
Inductive Message :=
| AudioMessage (audio : jsstring) (timestamp : N)
| TranscriptMessage (text language : jsstring) (timestamp : N)
| TranslationMessage (original translated sourceLang targetLang : jsstring)
    (timestamp : N).

(** [JSON.stringify(message)]: the members in the order of the object
    literal. A time stamp is printed with all its digits, as numbers
    below [1e21] are. *)
Definition member (key : string) (text : jsstring) : jsstring :=
  quote (js key) ++ [0x3A] ++ text.

Definition JSON_stringify (message : Message) : jsstring :=
  match message with
  | AudioMessage audio timestamp =>
      [0x7B] ++ member "type" (quote (js "audio"))
      ++ [0x2C] ++ member "audio" (quote audio)
      ++ [0x2C] ++ member "timestamp" (decimal timestamp) ++ [0x7D]
  | TranscriptMessage text language timestamp =>
      [0x7B] ++ member "type" (quote (js "transcript"))
      ++ [0x2C] ++ member "text" (quote text)
      ++ [0x2C] ++ member "language" (quote language)
      ++ [0x2C] ++ member "timestamp" (decimal timestamp) ++ [0x7D]
  | TranslationMessage original translated sourceLang targetLang timestamp =>
      [0x7B] ++ member "type" (quote (js "translation"))
      ++ [0x2C] ++ member "original" (quote original)
      ++ [0x2C] ++ member "translated" (quote translated)
      ++ [0x2C] ++ member "sourceLang" (quote sourceLang)
      ++ [0x2C] ++ member "targetLang" (quote targetLang)
      ++ [0x2C] ++ member "timestamp" (decimal timestamp) ++ [0x7D]
  end.

(** The object a message is, as a parsed value. *)
Definition text (key : string) (s : jsstring) : jsstring * value :=
  (js key, String s).

Definition stamp (timestamp : N) : jsstring * value :=
  (js "timestamp", Number (Z.of_N timestamp) 0).

Definition toValue (message : Message) : value :=
  match message with
  | AudioMessage audio timestamp =>
      Object [text "type" (js "audio"); text "audio" audio; stamp timestamp]
  | TranscriptMessage transcript language timestamp =>
      Object [text "type" (js "transcript"); text "text" transcript;
              text "language" language; stamp timestamp]
  | TranslationMessage original translated sourceLang targetLang timestamp =>
      Object [text "type" (js "translation"); text "original" original;
              text "translated" translated; text "sourceLang" sourceLang;
              text "targetLang" targetLang; stamp timestamp]
  end.

(** The bytes [sendMessage] hands to the peer. *)
Definition encode (message : Message) : list Byte.byte :=
  TextEncoder_encode (JSON_stringify message).

(** The peer object: [send] throws unless its channel is open. *)
Record Peer := { channelOpen : bool }.

(** The fields of a [WebRTCService]; a callback field tells whether a
    callback is installed. *)
Record Service := {
  peer : option Peer;
  isConnected : bool;
  isInitiator : bool;
  onAudioData : bool;
  onConnectionStateChange : bool;
  onError : bool
}.

Definition constructor : Service :=
  {| peer := None; isConnected := false; isInitiator := false;
     onAudioData := false; onConnectionStateChange := false; onError := false |}.

(** What a call does to the world outside the service. *)
Inductive Effect :=
| PeerSend (data : list Byte.byte)              (* [this.peer.send(data)] *)
| AudioDataCallback (audio : option value)      (* [this.onAudioData(message.audio)] *)
| ConnectionStateCallback (state : jsstring)
| PeerDestroy                                    (* [this.peer.destroy()] *)
| ConsoleLog (text : jsstring)
| ConsoleError (text : jsstring).

(** The outcome of a call: the service afterwards, the effects in order,
    and whether the call threw. *)
Record Outcome := {
  after : Service;
  effects : list Effect;
  threw : bool
}.

Definition quiet (s : Service) : Outcome :=
  {| after := s; effects := []; threw := false |}.

Definition notConnected (s : Service) : bool :=
  negb (isConnected s) || negb (bool_decide (is_Some (peer s))).

(** [sendMessage(message)] *)
Definition sendMessage (message : Message) (s : Service) : Outcome :=
  if notConnected s then quiet s
  else
    let data := encode message in
    match peer s with
    | Some p =>
        if channelOpen p
        then {| after := s; effects := [PeerSend data]; threw := false |}
        else {| after := s;
                effects := [ConsoleError (js "Failed to send message:")];
                threw := false |}
    | None => quiet s
    end.

(** [sendTranscript(transcript, language)] at time [now] *)
Definition sendTranscript (transcript language : jsstring) (now : N)
  (s : Service) : Outcome :=
  if notConnected s then quiet s
  else sendMessage (TranscriptMessage transcript language now) s.

(** [sendTranslation(originalText, translatedText, sourceLang, targetLang)] *)
Definition sendTranslation (originalText translatedText sourceLang targetLang : jsstring)
  (now : N) (s : Service) : Outcome :=
  if notConnected s then quiet s
  else sendMessage
         (TranslationMessage originalText translatedText sourceLang targetLang now) s.

(** [sendAudio(audioData)] returns at once. When the service is
    connected it leaves a conversion running, whose result, if there is
    one, is sent by a later call of [sendAudioThen], in the state the
    service has by then. *)
Definition sendAudio (audioData : AudioData) (s : Service)
  : Outcome * option (result jsstring) :=
  if notConnected s then (quiet s, None)
  else (quiet s, Some (convertAudioToBase64 audioData)).

Definition sendAudioThen (converted : result jsstring) (now : N) (s : Service)
  : Outcome :=
  match converted with
  | Return base64 => sendMessage (AudioMessage base64 now) s
  | Throw _ => quiet s
  end.

(** [handleData(data)] *)
Definition failedToParse (s : Service) : Outcome :=
  {| after := s; effects := [ConsoleError (js "Failed to parse message:")];
     threw := false |}.

(** [v === text] for a value read from a message. *)
Definition isString (v : option value) (text : jsstring) : bool :=
  match v with
  | Some (String s) => bool_decide (s = text)
  | _ => false
  end.

Definition handleData (data : list Byte.byte) (s : Service) : Outcome :=
  match JSON_parse (TextDecoder_decode data) with
  | Throw _ => failedToParse s
  | Return message =>
      match getMember message (js "type"), getMember message (js "audio") with
      | Return type, Return audio =>
          if isString type (js "audio") then
            if onAudioData s
            then {| after := s; effects := [AudioDataCallback audio]; threw := false |}
            else quiet s
          else if isString type (js "transcript") then quiet s
          else if isString type (js "translation") then quiet s
          else {| after := s; effects := [ConsoleLog (js "Unknown message type:")];
                  threw := false |}
      | _, _ => failedToParse s
      end
  end.

(** The peer's [connect] and [close] events, and [disconnect()]. *)
Definition onConnect (s : Service) : Outcome :=
  {| after := {| peer := peer s; isConnected := true; isInitiator := isInitiator s;
                 onAudioData := onAudioData s;
                 onConnectionStateChange := onConnectionStateChange s;
                 onError := onError s |};
     effects := ConsoleLog (js "WebRTC connection established")
                :: (if onConnectionStateChange s
                    then [ConnectionStateCallback (js "connected")] else []);
     threw := false |}.

Definition onClose (s : Service) : Outcome :=
  {| after := {| peer := peer s; isConnected := false; isInitiator := isInitiator s;
                 onAudioData := onAudioData s;
                 onConnectionStateChange := onConnectionStateChange s;
                 onError := onError s |};
     effects := ConsoleLog (js "WebRTC connection closed")
                :: (if onConnectionStateChange s
                    then [ConnectionStateCallback (js "disconnected")] else []);
     threw := false |}.

Definition disconnect (s : Service) : Outcome :=
  {| after := {| peer := None; isConnected := false; isInitiator := isInitiator s;
                 onAudioData := onAudioData s;
                 onConnectionStateChange := onConnectionStateChange s;
                 onError := onError s |};
     effects := match peer s with Some _ => [PeerDestroy] | None => [] end;
     threw := false |}.

End WebRTC.

(* ===================================================================== *)
(** * Closed forms, the specification's reading, sample data              *)
(* ===================================================================== *)

Module Closed.
Import Float32 STT.

(** The interpolated sample the loop of [resample] writes at index [i]. *)
Definition interpolated (audio : list float) (ratio : float) (i : nat) : float :=
  let originalIndex := (num i / ratio)%float in
  let index1 := JSMath.floor originalIndex in
  let index2 := JSMath.min (index1 + 1)%float (num (length audio) - 1)%float in
  let fraction := (originalIndex - index1)%float in
  (at_index audio index1 * (1 - fraction) + at_index audio index2 * fraction)%float.

(** A string without white space. *)
Definition spaceless (w : jsstring) : Prop :=
  Forall (fun c => isWhiteSpace c = false) w.

(** The length of an event's interval and their sum over a timeline, in
    binary64, added up from the first event on. *)
Definition span (e : LipSync.TimedViseme float) : float :=
  (LipSync.endTime e - LipSync.startTime e)%float.

Definition totalSpan (events : list (LipSync.TimedViseme float)) : float :=
  foldl (fun sum e => (sum + span e)%float) PrimFloat.zero events.

(** The events of a queue that have not ended at [now]. *)
Definition remaining {num} `{Number num} (now : num)
  (queue : list (LipSync.TimedViseme num)) : list (LipSync.TimedViseme num) :=
  List.filter (fun v => nltb now (LipSync.endTime v)) queue.

(** [changes prev out]: in [prev] followed by [out], no value is
    followed by itself. *)
Fixpoint changes (prev : option jsstring) (out : list (option jsstring)) : Prop :=
  match out with
  | [] => True
  | v :: out' => v <> prev /\ changes v out'
  end.

(** What one run of [animate] adds to the notifications. *)
Definition step_summary {num} (w w' : LipSync.World num) (emitted : list (option jsstring)) : Prop :=
  if LipSync.isPlaying (LipSync.this w) then
    (LipSync.isPlaying (LipSync.this w') = true
     /\ changes (LipSync.currentViseme (LipSync.this w)) emitted
     /\ LipSync.currentViseme (LipSync.this w') = List.last emitted (LipSync.currentViseme (LipSync.this w)))
    \/ (LipSync.isPlaying (LipSync.this w') = false /\ emitted = [LipSync.REST]
        /\ LipSync.currentViseme (LipSync.this w') = LipSync.REST)
  else emitted = [] /\ LipSync.isPlaying (LipSync.this w') = false
       /\ LipSync.currentViseme (LipSync.this w') = LipSync.currentViseme (LipSync.this w).

(** [forall_bits bits prefix P]: [P] holds of every number whose binary
    digits are those of [prefix] followed by [bits] more. *)
Fixpoint forall_bits (bits : nat) (prefix : N) (P : N -> bool) : bool :=
  match bits with
  | O => P prefix
  | S bits' =>
      forall_bits bits' (2 * prefix) P && forall_bits bits' (2 * prefix + 1) P
  end.

(** Scalar values, and the strings in which every surrogate is half of
    a pair. *)
Definition isScalar (cp : N) : bool :=
  (cp <? 0xD800) || ((0xDFFF <? cp) && (cp <? 0x110000)).

Inductive WellFormed : jsstring -> Prop :=
| wf_nil : WellFormed []
| wf_unit (c : N) (s : jsstring) :
    isScalar c = true -> c < 65536 -> WellFormed s -> WellFormed (c :: s)
| wf_pair (hi lo : N) (s : jsstring) :
    Codec.isHighSurrogate hi = true -> Codec.isLowSurrogate lo = true ->
    WellFormed s -> WellFormed (hi :: lo :: s).

(** A text that may stand before any well-formed text. *)
Definition valueTextOk (valueText : jsstring) : Prop :=
  forall tail, WellFormed tail -> WellFormed (valueText ++ tail).

(** A code unit of a string, and a byte. *)
Definition isUnit16 (c : N) : Prop := c < 65536.
Definition is_byte (n : N) : Prop := n < 256.

(** A text that does not go on with a digit. *)
Definition stopsDigits (tail : jsstring) : Prop :=
  match tail with
  | [] => True
  | t :: _ => Codec.isDigit t = false
  end.

(** The text of the members of an object, after its opening brace, from
    their keys and the texts of their values. *)
Fixpoint membersText (members : list (jsstring * jsstring)) : jsstring :=
  match members with
  | [] => []
  | (key, valueText) :: rest =>
      Codec.quote key ++ 0x3A :: valueText
      ++ match rest with
         | [] => [0x7D]
         | _ :: _ => 0x2C :: membersText rest
         end
  end.

(** [valueText] is read as [v] wherever a member of an object may stand. *)
Definition parsesAs (valueText : jsstring) (v : Codec.value) : Prop :=
  forall fuel sep rest, sep = 0x2C \/ sep = 0x7D ->
    Codec.parseValue (S fuel) (valueText ++ sep :: rest) = Some (v, sep :: rest).

(** The strings of a message are sequences of code units. *)
Definition isString (s : jsstring) : Prop := Forall isUnit16 s.

Definition validMessage (m : WebRTC.Message) : Prop :=
  match m with
  | WebRTC.AudioMessage audio _ => isString audio
  | WebRTC.TranscriptMessage transcript language _ =>
      isString transcript /\ isString language
  | WebRTC.TranslationMessage original translated sourceLang targetLang _ =>
      isString original /\ isString translated
      /\ isString sourceLang /\ isString targetLang
  end.

(** The members of a message: key, text of the value, value. *)
Definition textField (key : string) (s : jsstring)
  : jsstring * jsstring * Codec.value :=
  (js key, Codec.quote s, Codec.String s).

Definition stampField (timestamp : N) : jsstring * jsstring * Codec.value :=
  (js "timestamp", Codec.decimal timestamp, Codec.Number (Z.of_N timestamp) 0).

Definition fields (m : WebRTC.Message) : list (jsstring * jsstring * Codec.value) :=
  match m with
  | WebRTC.AudioMessage audio timestamp =>
      [textField "type" (js "audio"); textField "audio" audio; stampField timestamp]
  | WebRTC.TranscriptMessage transcript language timestamp =>
      [textField "type" (js "transcript"); textField "text" transcript;
       textField "language" language; stampField timestamp]
  | WebRTC.TranslationMessage original translated sourceLang targetLang timestamp =>
      [textField "type" (js "translation"); textField "original" original;
       textField "translated" translated; textField "sourceLang" sourceLang;
       textField "targetLang" targetLang; stampField timestamp]
  end.

(** A text before which a number ends. *)
Definition endsNumber (tail : jsstring) : Prop :=
  match tail with
  | [] => True
  | t :: _ => Codec.isDigit t = false /\ t <> 0x2E /\ t <> 0x65 /\ t <> 0x45
  end.

End Closed.

(** Modelled on the specification's words for the resampling stage: it is
    applied when the source rate differs from the target rate, with
    [ratio = targetSampleRate / sourceSampleRate]. *)
Module Spec.
Import Float32 STT.

Definition resample (sourceSampleRate : float) (audio : list float)
  (targetSampleRate : float) : result (list float) :=
  let ratio := (targetSampleRate / sourceSampleRate)%float in
  let newLength := JSMath.floor (num (length audio) * ratio)%float in
  resampled0 ← new_Float32Array_of newLength;
  Return (List.map (fun i => fround (Closed.interpolated audio ratio i))
                   (seq 0 (length resampled0))).

Definition resampleStage (sourceSampleRate : float) (audio : list float)
  : result (list float) :=
  if PrimFloat.eqb sourceSampleRate STT.targetSampleRate then Return audio
  else resample sourceSampleRate audio STT.targetSampleRate.

End Spec.

Module Samples.

Definition whisperVocab : list jsstring :=
  [js "<sos>"; js "<eos>"; js "<unk>"; js "hola"].

Definition marianVocab : MT.Vocab :=
  [(js "<sos>", 0%nat); (js "<eos>", 1%nat); (js "<unk>", 2%nat); (js "hola", 3%nat)].

(** Logits whose largest entry is at [hot]. *)
Definition oneHot (size hot : nat) : list float :=
  List.map (fun i => if Nat.eqb i hot then 1%float else 0%float) (seq 0 size).

(** Lowercasing of the ASCII letters, the case mapping of an engine on
    ASCII text; it serves to evaluate the functions on such text. *)
Definition asciiLower (s : jsstring) : jsstring :=
  List.map (fun c => if (0x41 <=? c) && (c <=? 0x5A) then c + 0x20 else c) s.

Definition asciiHost : Host := {| toLowerCase := asciiLower |}.

(** The strings V8 makes of the members of [Object.prototype]. *)
Definition v8Engine : Engine :=
  {| memberText := fun name =>
       if str_eqb name (js "constructor") then js "function Object() { [native code] }"
       else if str_eqb name (js "__proto__") then js "[object Object]"
       else js "function " ++ name ++ js "() { [native code] }" |}.

(** A math library made of the first terms of the series. It stands for
    the host's library where a closed example needs one; no statement
    depends on the values it gives. *)
Definition seriesMath : JSMath.Lib :=
  {| JSMath.cos := fun x => (1 - x * x / 2)%float;
     JSMath.sin := fun x => (x - x * x * x / 6)%float;
     JSMath.exp := fun x => (1 + x + x * x / 2)%float;
     JSMath.log := fun x => ((x - 1) - (x - 1) * (x - 1) / 2)%float |}.

(** A text of 49 letters [b], each of which is a phoneme of its own. *)
Definition fortyNine : jsstring := List.repeat 0x62 49.

(** A service with a listener, before and after it is started on the
    timeline of the text [hello] spread over one second, with the clock
    at 0. *)
Definition listening : LipSync.World float :=
  {| LipSync.this :=
       {| LipSync.currentViseme := LipSync.REST; LipSync.visemeQueue := [];
          LipSync.isPlaying := false; LipSync.animationFrame := None;
          LipSync.onVisemeChange := true |};
     LipSync.nextHandle := 1%positive;
     LipSync.pendingFrames := [];
     LipSync.notified := [] |}.

Definition helloTimeline : list (LipSync.TimedViseme float) :=
  LipSync.generateLipSyncFromText (H := asciiHost) (js "hello") (js "en") 1%float.

(** A connected service with an audio callback, and the three bytes of
    the specification's example in a blob as the recorder makes them. *)
Definition connected : WebRTC.Service :=
  {| WebRTC.peer := Some {| WebRTC.channelOpen := true |};
     WebRTC.isConnected := true; WebRTC.isInitiator := false;
     WebRTC.onAudioData := true; WebRTC.onConnectionStateChange := false;
     WebRTC.onError := false |}.

Definition threeBytes : WebRTC.Blob :=
  {| WebRTC.blobType := js "audio/webm;codecs=opus";
     WebRTC.blobBytes := [Byte.x00; Byte.xff; Byte.x10] |}.

(** The same bytes in a blob whose media type lists two codecs, and in
    one without a media type. *)
Definition twoCodecs : WebRTC.Blob :=
  {| WebRTC.blobType := js "video/webm;codecs=vp8,opus";
     WebRTC.blobBytes := [Byte.x00; Byte.xff; Byte.x10] |}.

Definition untyped : WebRTC.Blob :=
  {| WebRTC.blobType := []; WebRTC.blobBytes := [Byte.x00; Byte.xff; Byte.x10] |}.

Definition helloPlaying : LipSync.World float :=
  LipSync.startLipSync helloTimeline 0%float 0%float listening.

End Samples.

(* ===================================================================== *)
(** * services/lipSync.js: AvatarLipSyncController                         *)
(* ===================================================================== *)

Module Controller.

(** A JavaScript [Array] of numbers: [None] is a hole. A write at or past
    the end extends the array, leaving holes before the new element. *)
Abbreviation Array := (list (option float)).

Definition array_set (i : nat) (v : float) (a : Array) : Array :=
  if (i <? length a)%nat then <[i := Some v]> a
  else a ++ replicate (i - length a) None ++ [Some v].

(** [a[i]]: [undefined] at a hole and past the end. *)
Definition array_get (a : Array) (i : nat) : option float := mjoin (a !! i).

(** A [Map] with string keys: its entries in insertion order. [set]
    replaces the value of a key that is present, where it stands, and
    adds a new key at the end. *)
Abbreviation Map V := (list (jsstring * V)).

Fixpoint map_set {V} (key : jsstring) (v : V) (m : Map V) : Map V :=
  match m with
  | [] => [(key, v)]
  | (key', v') :: m' =>
      if str_eqb key' key then (key', v) :: m'
      else (key', v') :: map_set key v m'
  end.

Definition map_get {V} (m : Map V) (key : jsstring) : option V :=
  snd <$> List.find (fun entry => str_eqb entry.1 key) m.

(** The mesh: both members are optional, as [undefined] may stand for
    either. The values of the dictionary are indices of the array. *)
Record Avatar := {
  morphTargetDictionary : option (object nat);
  morphTargetInfluences : option Array
}.

(** The fields of the controller that the methods below use. *)
Record State := {
  avatar : option Avatar;
  blendShapes : Map nat;
  currentWeights : Map float
}.

Definition visemeNames : list jsstring := List.map js [
  "viseme_aa"; "viseme_ih"; "viseme_eh"; "viseme_ah"; "viseme_aw";
  "viseme_ow"; "viseme_uw"; "viseme_uh"; "viseme_er"; "viseme_pp";
  "viseme_bb"; "viseme_dd"; "viseme_kk"; "viseme_gg"; "viseme_ff";
  "viseme_vv"; "viseme_th"; "viseme_ss"; "viseme_zz"; "viseme_sh";
  "viseme_zh"; "viseme_hh"; "viseme_mm"; "viseme_nn"; "viseme_ng";
  "viseme_ll"; "viseme_rr"; "viseme_ww"; "viseme_yy"; "viseme_rest"
]%string.

(** [initializeBlendShapes()]: without an avatar or without its
    dictionary it warns and returns. *)
Definition initializeBlendShapes (c : State) : State :=
  match avatar c with
  | Some {| morphTargetDictionary := Some dictionary |} =>
      foldl (fun c visemeName =>
               match dictionary !! visemeName with
               | Some index =>
                   {| avatar := avatar c;
                      blendShapes := map_set visemeName index (blendShapes c);
                      currentWeights := map_set visemeName 0%float (currentWeights c) |}
               | None => c
               end)
            c visemeNames
  | _ => c
  end.

(** [new AvatarLipSyncController(avatar, lipSyncService)], up to the
    callback it installs in the service. *)
Definition constructor (avatar : option Avatar) : State :=
  initializeBlendShapes {| avatar := avatar; blendShapes := []; currentWeights := [] |}.

(** [this.avatar.morphTargetInfluences[index] = v]: a [TypeError] when
    the avatar or the array is missing. *)
Definition setInfluence (index : nat) (v : float) (c : State) : result State :=
  match avatar c with
  | Some {| morphTargetDictionary := dictionary;
            morphTargetInfluences := Some influences |} =>
      Return {| avatar := Some {| morphTargetDictionary := dictionary;
                                  morphTargetInfluences :=
                                    Some (array_set index v influences) |};
                blendShapes := blendShapes c;
                currentWeights := currentWeights c |}
  | _ => Throw (js "TypeError: Cannot set properties of undefined")
  end.

Definition setWeight (visemeName : jsstring) (v : float) (c : State) : State :=
  {| avatar := avatar c; blendShapes := blendShapes c;
     currentWeights := map_set visemeName v (currentWeights c) |}.

(** The loop [this.blendShapes.forEach(...)] of [updateViseme]; the one
    of [resetToNeutral] makes the two assignments in the other order. *)
Fixpoint resetAll (weightFirst : bool) (shapes : Map nat) (c : State) : result State :=
  match shapes with
  | [] => Return c
  | (visemeName, index) :: shapes' =>
      c' ← (if weightFirst then setInfluence index 0%float (setWeight visemeName 0%float c)
            else c1 ← setInfluence index 0%float c;
                 Return (setWeight visemeName 0%float c1));
      resetAll weightFirst shapes' c'
  end.

(** [updateViseme(viseme, transitionTime)]; [viseme] may be [undefined],
    which is no key of the map. *)
Definition updateViseme (viseme : option jsstring) (c : State) : result State :=
  c1 ← resetAll true (blendShapes c) c;
  match viseme with
  | Some name =>
      match map_get (blendShapes c1) name with
      | Some targetIndex => setInfluence targetIndex 1%float (setWeight name 1%float c1)
      | None => Return c1
      end
  | None => Return c1
  end.

(** [resetToNeutral()] *)
Definition resetToNeutral (c : State) : result State := resetAll false (blendShapes c) c.

(** [getCurrentWeights()] returns a copy of the map. *)
Definition getCurrentWeights (c : State) : Map float := currentWeights c.

(** The listener [setupLipSyncCallback] installs, run on the
    notifications of the service one after the other. *)
Definition replay (notified : list (option jsstring)) (c : State) : result State :=
  foldl (fun r viseme => c' ← r; updateViseme viseme c') (Return c) notified.

End Controller.

(* ===================================================================== *)
(** * services/tts.js: TTSService                                          *)
(* ===================================================================== *)

Module TTS.
Import Float32.





(** [postprocessAudio(output, options)]: the two options are [true]
    unless given; [applyFade] is called without a fade length, which is
    then 1000. *)
Record Options := { normalize : bool; fade : bool }.

Definition defaults : Options := {| normalize := true; fade := true |}.


End TTS.

(* ===================================================================== *)
(** * services/webrtc.js: SignalingServer                                  *)
(* ===================================================================== *)

Module Signaling.

(** What a signal handler is called with: the objects
    [{ type: 'peer-joined', peerId }], [{ type: 'peer-left', peerId }] and
    [{ type: 'signal', fromPeerId, signal }]. *)
Inductive Event (Signal : Type) :=
| PeerJoined (peerId : jsstring)
| PeerLeft (peerId : jsstring)
| SignalFrom (fromPeerId : jsstring) (signal : Signal).
Arguments PeerJoined {Signal} peerId.
Arguments PeerLeft {Signal} peerId.
Arguments SignalFrom {Signal} fromPeerId signal.

Section Server.
(** Handlers are told apart by a name; signals are whatever the peers
    exchange. *)
Context {Handler Signal : Type}.

(** A call the server makes: of a signal handler, or of one of its own
    two callbacks. *)
Inductive Call :=
| Handle (handler : Handler) (event : Event Signal)
| OnPeerJoined (peerId : jsstring)
| OnPeerLeft (peerId : jsstring).

(** The server: [peers] is a [Map] from peer ids to handlers, in
    insertion order; a handler that is [undefined] is [None]. The two
    callback fields tell whether a callback is installed. *)
Record Server := {
  peers : list (jsstring * option Handler);
  onPeerJoined : bool;
  onPeerLeft : bool
}.

Definition constructor : Server :=
  {| peers := []; onPeerJoined := false; onPeerLeft := false |}.

Fixpoint peers_set (peerId : jsstring) (onSignal : option Handler)
  (m : list (jsstring * option Handler)) : list (jsstring * option Handler) :=
  match m with
  | [] => [(peerId, onSignal)]
  | (id, h) :: m' =>
      if str_eqb id peerId then (id, onSignal) :: m'
      else (id, h) :: peers_set peerId onSignal m'
  end.

Definition peers_delete (peerId : jsstring)
  (m : list (jsstring * option Handler)) : list (jsstring * option Handler) :=
  List.filter (fun entry => negb (str_eqb entry.1 peerId)) m.

Definition peers_get (m : list (jsstring * option Handler)) (peerId : jsstring)
  : option (option Handler) :=
  snd <$> List.find (fun entry => str_eqb entry.1 peerId) m.

(** The outcome of a method: the server afterwards, the calls made in
    order, and whether a [TypeError] ended it, which happens when a
    handler that is [undefined] is called. *)
Record Outcome := {
  after : Server;
  calls : list Call;
  threw : bool
}.

(** [this.peers.forEach(...)]: the handlers for which [selected] holds
    are called in order; the first one that is [undefined] throws. *)
Fixpoint notifyAll (selected : jsstring -> bool) (event : Event Signal)
  (m : list (jsstring * option Handler)) : list Call * bool :=
  match m with
  | [] => ([], false)
  | (id, h) :: m' =>
      if selected id then
        match h with
        | Some handler =>
            let '(calls, threw) := notifyAll selected event m' in
            (Handle handler event :: calls, threw)
        | None => ([], true)
        end
      else notifyAll selected event m'
  end.

(** [join(peerId, onSignal)] *)
Definition join (peerId : jsstring) (onSignal : option Handler) (s : Server)
  : Outcome :=
  let s' := {| peers := peers_set peerId onSignal (peers s);
               onPeerJoined := onPeerJoined s; onPeerLeft := onPeerLeft s |} in
  let '(calls, threw) :=
    notifyAll (fun id => negb (str_eqb id peerId)) (PeerJoined peerId) (peers s') in
  {| after := s';
     calls := if threw then calls
              else if onPeerJoined s then calls ++ [OnPeerJoined peerId] else calls;
     threw := threw |}.

(** [leave(peerId)] *)
Definition leave (peerId : jsstring) (s : Server) : Outcome :=
  let s' := {| peers := peers_delete peerId (peers s);
               onPeerJoined := onPeerJoined s; onPeerLeft := onPeerLeft s |} in
  let '(calls, threw) := notifyAll (fun _ => true) (PeerLeft peerId) (peers s') in
  {| after := s';
     calls := if threw then calls
              else if onPeerLeft s then calls ++ [OnPeerLeft peerId] else calls;
     threw := threw |}.

(** [sendSignal(fromPeerId, toPeerId, signal)] *)
Definition sendSignal (fromPeerId toPeerId : jsstring) (signal : Signal) (s : Server)
  : Outcome :=
  match peers_get (peers s) toPeerId with
  | Some (Some handler) =>
      {| after := s; calls := [Handle handler (SignalFrom fromPeerId signal)];
         threw := false |}
  | _ => {| after := s; calls := []; threw := false |}
  end.

End Server.

Arguments Call : clear implicits.
Arguments Server : clear implicits.
Arguments Outcome : clear implicits.

End Signaling.

(* ===================================================================== *)
(** * Predicates used in the statements                                    *)
(* ===================================================================== *)

Module Props.

(** Between two events of the host, a service that plays has exactly one
    frame request pending, the one it remembers; one that does not play
    has none. *)
Definition settled {num} (w : LipSync.World num) : Prop :=
  if LipSync.isPlaying (LipSync.this w)
  then exists h, LipSync.animationFrame (LipSync.this w) = Some h
                 /\ LipSync.pendingFrames w = [h]
  else LipSync.animationFrame (LipSync.this w) = None
       /\ LipSync.pendingFrames w = [].

(** The influence of the morph target [i] of the controller's avatar,
    and the index a viseme is registered under. *)
Definition influence (c : Controller.State) (i : nat) : option float :=
  a ← Controller.avatar c;
  influences ← Controller.morphTargetInfluences a;
  Controller.array_get influences i.

Definition target (c : Controller.State) (viseme : option jsstring) : option nat :=
  name ← viseme; Controller.map_get (Controller.blendShapes c) name.

(** The blob [convertAudioToBase64] reads: the one given, or one of type
    [audio/wav] made of the bytes of an [ArrayBuffer]. *)
Definition asBlob (audioData : WebRTC.AudioData) : option WebRTC.Blob :=
  match audioData with
  | WebRTC.IsBlob blob => Some blob
  | WebRTC.IsArrayBuffer bytes =>
      Some {| WebRTC.blobType := js "audio/wav"; WebRTC.blobBytes := bytes |}
  | WebRTC.Unsupported => None
  end.

(** The handlers of the peers other than [peerId], in the order of the
    map. *)
Definition others {Handler} (peerId : jsstring)
  (peers : list (jsstring * option Handler)) : list Handler :=
  omap (fun entry => if str_eqb entry.1 peerId then None else entry.2) peers.

End Props.

Module MoreSamples.

(** An avatar with three morph targets, two of which are visemes, and
    its controller. *)
Definition mesh : Controller.Avatar :=
  {| Controller.morphTargetDictionary :=
       Some (object_of_entries [(js "viseme_aa", 0%nat); (js "smile", 1%nat);
                                (js "viseme_rest", 2%nat)]);
     Controller.morphTargetInfluences :=
       Some [Some 0.5%float; Some 0.25%float; Some 1%float] |}.

Definition controller : Controller.State := Controller.constructor (Some mesh).

(** A signaling server that two peers have joined; handlers are told
    apart by numbers and signals are texts. *)
Definition room : Signaling.Server nat :=
  Signaling.after
    (Signaling.join (Signal := jsstring) (js "bob") (Some 2%nat)
       (Signaling.after
          (Signaling.join (Signal := jsstring) (js "alice") (Some 1%nat)
             Signaling.constructor))).

End MoreSamples.
(* ===================================================================== *)
(** * Properties                                                           *)
(* ===================================================================== *)

(** ** Typed arrays: loops that fill an array *)

Section ArrayLoops.
Import Float32.

Lemma store_length (i : nat) (v : float) (a : Float32Array) :
  length (store i v a) = length a.
Proof. unfold store. apply length_insert. Qed.

Lemma foldl_keeps_length {X} (body : Float32Array -> X -> Float32Array)
  (xs : list X) (a : Float32Array) :
  (forall acc x, length (body acc x) = length acc) ->
  length (foldl body a xs) = length a.
Proof.
  intros Hbody. revert a.
  induction xs as [|x xs IH]; intros a; simpl; [reflexivity|].
  rewrite IH. apply Hbody.
Qed.

(** A loop [for (i = 0; i < k; i++) a[i] = f(i)] has written the first [k]
    elements and left the others as they were. *)
Lemma fill_prefix (f : nat -> float) (a : Float32Array) (k : nat) :
  (k <= length a)%nat ->
  foldl (fun acc i => store i (f i) acc) a (seq 0 k)
  = List.map (fun i => fround (f i)) (seq 0 k) ++ drop k a.
Proof.
  induction k as [|k IH]; intros Hk.
  - simpl. rewrite drop_0. reflexivity.
  - rewrite seq_S, foldl_app, List.map_app. simpl.
    rewrite IH by lia. unfold store.
    assert (Hlen : length (List.map (fun i => fround (f i)) (seq 0 k)) = k)
      by (rewrite length_map, length_seq; reflexivity).
    rewrite insert_app_r_alt by lia.
    rewrite Hlen, Nat.sub_diag.
    destruct (drop k a) as [|x rest] eqn:Hdrop.
    + apply (f_equal length) in Hdrop. rewrite length_drop in Hdrop.
      simpl in Hdrop. lia.
    + simpl. rewrite <- app_assoc. simpl. f_equal. f_equal.
      assert (Hd : drop (S k) a = drop 1 (drop k a))
        by (rewrite drop_drop; f_equal; lia).
      rewrite Hd, Hdrop. reflexivity.
Qed.

Lemma fill_all (f : nat -> float) (a : Float32Array) :
  foldl (fun acc i => store i (f i) acc) a (seq 0 (length a))
  = List.map (fun i => fround (f i)) (seq 0 (length a)).
Proof.
  rewrite fill_prefix by lia. rewrite drop_all. apply app_nil_r.
Qed.

End ArrayLoops.

(** ** Greedy decoding: tokens to text *)

Module DecoderFacts.

Lemma truthy_spec (v : option jsstring) :
  truthy v = true <-> exists s, v = Some s /\ s <> [].
Proof.
  destruct v as [[|c s]|]; simpl; split.
  - discriminate.
  - intros (s & Hs & Hne). injection Hs as <-. congruence.
  - intros _. exists (c :: s). split; [reflexivity | discriminate].
  - reflexivity.
  - discriminate.
  - intros (s & Hs & _). discriminate.
Qed.

(** What the two filters keep. *)
Lemma MT_keptWord_spec (word : option jsstring) :
  MT.keptWord word = true <->
  (exists s, word = Some s /\ s <> [])
  /\ word <> Some (js "<sos>") /\ word <> Some (js "<eos>")
  /\ word <> Some (js "<unk>").
Proof.
  unfold MT.keptWord. rewrite !andb_true_iff, !negb_true_iff, !bool_decide_eq_false.
  rewrite truthy_spec. tauto.
Qed.

Lemma STT_keptSymbol_spec (symbol : option jsstring) :
  STT.keptSymbol symbol = true <->
  (exists s, symbol = Some s /\ s <> [])
  /\ symbol <> Some (js "<sos>") /\ symbol <> Some (js "<eos>").
Proof.
  unfold STT.keptSymbol. rewrite !andb_true_iff, !negb_true_iff, !bool_decide_eq_false.
  rewrite truthy_spec. tauto.
Qed.

(** The translation path removes the three reserved symbols, and the ids
    the vocabulary does not know, before it joins. *)
Lemma MT_tokensToText_filters (vocab : MT.Vocab) (tokens : list nat) :
  exists kept : list jsstring,
    MT.tokensToText (Some vocab) tokens = Return (trim (join (js " ") kept))
    /\ Forall (fun s => s <> js "<sos>" /\ s <> js "<eos>" /\ s <> js "<unk>"
                        /\ s <> []) kept
    /\ kept = omap (fun token =>
                      match MT.reverseVocab vocab !! token with
                      | Some s => if MT.keptWord (Some s) then Some s else None
                      | None => None
                      end) tokens.
Proof.
  unfold MT.tokensToText.
  set (look := fun token => MT.reverseVocab vocab !! token).
  exists (List.map (default []) (List.filter MT.keptWord (List.map look tokens))).
  split; [reflexivity|]. split.
  - apply Forall_forall. intros s Hs.
    apply list_elem_of_In, in_map_iff in Hs. destruct Hs as (w & Hw & Hin).
    apply filter_In in Hin. destruct Hin as [_ Hkept].
    apply MT_keptWord_spec in Hkept.
    destruct Hkept as ((s' & -> & Hne) & Hsos & Heos & Hunk).
    simpl in Hw. subst s'. repeat split; congruence.
  - induction tokens as [|t ts IH]; [reflexivity|].
    simpl. fold (look t). destruct (look t) as [s|] eqn:Hl.
    + destruct (MT.keptWord (Some s)); simpl; rewrite IH; reflexivity.
    + simpl. exact IH.
Qed.

(** The loop of [decodeOutput] ends whenever the vocabulary is not empty:
    one unit of fuel per element of the output is enough. *)
Lemma decodeLoop_total (vocabSize : nat) (output : list float) (fuel : nat) :
  (0 < vocabSize)%nat -> (length output <= fuel)%nat ->
  exists tokens, STT.decodeLoop fuel vocabSize output = Some tokens.
Proof.
  intros Hv. revert output.
  induction fuel as [|fuel IH]; intros output Hlen.
  - destruct output; [eexists; reflexivity | simpl in Hlen; lia].
  - destruct output as [|x output]; [eexists; reflexivity|].
    cbn [STT.decodeLoop].
    destruct (IH (drop vocabSize (x :: output))) as (ts & Hts).
    { rewrite length_drop. simpl in *. lia. }
    rewrite Hts. eexists. reflexivity.
Qed.


End DecoderFacts.

(** C1. The joined text is to hold no reserved symbol on either path.
    The speech path keeps the symbol of the unknown token: for the
    vocabulary [<sos>, <eos>, <unk>, hola] and the tokens 3, 2, which the
    logits below decode to, it returns the text "hola <unk>", where the
    translation path returns "hola". *)
Theorem STT_tokensToText_keeps_unk :
  STT.tokensToText (Some Samples.whisperVocab) [3; 2]%nat
    = Return (js "hola <unk>")
  /\ STT.decodeOutput 8 (Some Samples.whisperVocab)
       (Samples.oneHot 4 3 ++ Samples.oneHot 4 2)
     = Some (Return (js "hola <unk>"))
  /\ includes (js "<unk>") (js "hola <unk>") = true
  /\ MT.tokensToText (Some Samples.marianVocab) [3; 2]%nat
     = Return (js "hola").
Proof. repeat split; vm_compute; reflexivity. Qed.

(** ** Feature extraction *)

Module FeatureFacts.
Import Float32 STT.


Lemma new_Float32Array_length (n : Z) (a : list float) :
  new_Float32Array n = Return a -> (0 <= n)%Z /\ length a = Z.to_nat n.
Proof.
  unfold new_Float32Array. destruct (Z.ltb_spec n 0); [discriminate|].
  intros [= <-]. rewrite length_replicate. split; [lia | reflexivity].
Qed.

Lemma numFrames_nonneg (audio : list float) :
  (240 <= length audio)%nat -> (0 <= numFrames audio)%Z.
Proof.
  intros Hlen. unfold numFrames, frameSize, hopSize.
  assert ((-1) <= (Z.of_nat (length audio) - Z.of_nat 400) / Z.of_nat 160)%Z.
  { apply Z.div_le_lower_bound; lia. }
  lia.
Qed.

End FeatureFacts.


(** C2. With a standard deviation of 0 the matrix is to come back
    unchanged or as zeros. [normalize] has no such case: for the matrix
    [1, 1] the deviation is 0, every element is divided by it, and the
    result is [NaN, NaN]. *)
Theorem normalize_zero_deviation_gives_nan :
  PrimFloat.sqrt (STT.variance_of [1%float; 1%float]) = 0%float
  /\ STT.normalize [1%float; 1%float] = [PrimFloat.nan; PrimFloat.nan]
  /\ STT.normalize [1%float; 1%float] <> [1%float; 1%float]
  /\ STT.normalize [1%float; 1%float] <> [0%float; 0%float].
Proof.
  assert (Hn : STT.normalize [1%float; 1%float] = [PrimFloat.nan; PrimFloat.nan])
    by (vm_compute; reflexivity).
  split; [|split; [|split]].
  - vm_compute. reflexivity.
  - exact Hn.
  - rewrite Hn. intros Heq.
    apply (f_equal (fun l => PrimFloat.is_nan (nth 0 l 0%float))) in Heq.
    vm_compute in Heq. discriminate.
  - rewrite Hn. intros Heq.
    apply (f_equal (fun l => PrimFloat.is_nan (nth 0 l 0%float))) in Heq.
    vm_compute in Heq. discriminate.
Qed.

(** C3, as stated, fails for a short waveform: for the empty one the
    formula gives -2 frames, and under no math library is a buffer
    returned, the allocation throws. *)
Lemma mel_empty_waveform_throws :
  STT.numFrames [] = (-2)%Z
  /\ ~ (exists (L : JSMath.Lib) (out : list float),
          STT.computeMelSpectrogram (H := L) [] = Return out).
Proof.
  split; [reflexivity|].
  intros (L & out & Hout). vm_compute in Hout. discriminate.
Qed.

(** C3, amended. For a waveform of at least 240 samples the number of
    frames [floor((length - 400) / 160) + 1] is not negative, the buffer
    returned holds exactly that many times 80 values, every frame lies
    within the waveform and one more frame would not. *)
Theorem mel_spectrogram_shape `{JSMath.Lib} (audio : list float) :
  (240 <= length audio)%nat ->
  exists spectrogram,
    STT.computeMelSpectrogram audio = Return spectrogram
    /\ STT.numFrames audio = ((Z.of_nat (length audio) - 400) / 160 + 1)%Z
    /\ (0 <= STT.numFrames audio)%Z
    /\ Z.of_nat (length spectrogram) = (STT.numFrames audio * 80)%Z
    /\ (forall frame, (Z.of_nat frame < STT.numFrames audio)%Z ->
          (frame * 160 + 400 <= length audio)%nat)
    /\ (Z.of_nat (length audio) < STT.numFrames audio * 160 + 400)%Z.
Proof.
  intros Hlen.
  pose proof (FeatureFacts.numFrames_nonneg audio Hlen) as Hnn.
  unfold STT.computeMelSpectrogram.
  destruct (Float32.new_Float32Array (STT.numFrames audio * Z.of_nat STT.numMels))
    as [zeros|e] eqn:Hnew.
  2: { unfold Float32.new_Float32Array in Hnew.
       destruct (Z.ltb_spec (STT.numFrames audio * Z.of_nat STT.numMels) 0);
         [unfold STT.numMels in *; lia | discriminate]. }
  apply FeatureFacts.new_Float32Array_length in Hnew. destruct Hnew as [_ Hz].
  eexists. split; [reflexivity|].
  assert (Hdiv : STT.numFrames audio
                 = ((Z.of_nat (length audio) - 400) / 160 + 1)%Z) by reflexivity.
  pose proof (Z.div_mod (Z.of_nat (length audio) - 400) 160 ltac:(lia)) as Hdm.
  pose proof (Z.mod_pos_bound (Z.of_nat (length audio) - 400) 160 ltac:(lia)) as Hmod.
  repeat split.
  - exact Hnn.
  - rewrite foldl_keeps_length.
    + rewrite Hz. unfold STT.numMels in *. lia.
    + intros acc frame. apply foldl_keeps_length.
      intros acc' mel. apply store_length.
  - intros frame Hframe. lia.
  - lia.
Qed.

(** The hypothesis of C3 holds for 400 samples of silence, which make one
    frame of 80 values. *)
Lemma mel_spectrogram_shape_silence :
  (240 <= length (replicate 400 0%float))%nat
  /\ exists spectrogram,
       STT.computeMelSpectrogram (H := Samples.seriesMath) (replicate 400 0%float)
       = Return spectrogram
       /\ Z.of_nat (length spectrogram) = 80%Z.
Proof.
  assert (Hlen : (240 <= length (replicate 400 0%float))%nat)
    by (rewrite length_replicate; lia).
  destruct (mel_spectrogram_shape (H := Samples.seriesMath) _ Hlen)
    as (spectrogram & Hs & Hn & _ & Hl & _).
  split; [exact Hlen|]. exists spectrogram. split; [exact Hs|].
  rewrite Hl, Hn, length_replicate. reflexivity.
Defined.

(** C4, as stated, fails: the stage is not governed by the source rate.
    A clip of three samples recorded at 16 kHz, the target rate, is
    resampled all the same, to a single sample; and a clip at 22.05 kHz is
    resampled with the ratio of a 44.1 kHz source, to two samples where
    the stated ratio gives four. *)
Lemma resample_stage_ignores_rate :
  STT.resampleStage [1%float; 2%float; 3%float] = Return [1%float]
  /\ Spec.resampleStage 16000%float [1%float; 2%float; 3%float]
     = Return [1%float; 2%float; 3%float]
  /\ (exists a b, STT.resampleStage
                    [1%float; 2%float; 3%float; 4%float; 5%float; 6%float]
                  = Return [a; b])
  /\ (exists a b c d, Spec.resampleStage 22050%float
                        [1%float; 2%float; 3%float; 4%float; 5%float; 6%float]
                      = Return [a; b; c; d]).
Proof.
  split; [|split; [|split]].
  - vm_compute. reflexivity.
  - vm_compute. reflexivity.
  - do 2 eexists. vm_compute. reflexivity.
  - do 4 eexists. vm_compute. reflexivity.
Qed.

(** C4, amended. The stage resamples exactly when the clip does not hold
    16000 samples. [resample] then allocates [floor(length * ratio)]
    samples with [ratio = 16000 / 44100], the source rate being fixed at
    44.1 kHz, and sample [i] is the blend, rounded to binary32, of the
    input samples at [floor(i / ratio)] and at the next index (the last
    one at most), weighted by the fractional part of [i / ratio]. *)
Theorem resample_stage_by_length (audio : list float) :
  let ratio := (16000 / 44100)%float in
  STT.resampleStage audio
    = (if bool_decide (Z.of_nat (length audio) = 16000%Z) then Return audio
       else STT.resample audio 16000%float)
  /\ STT.resample audio 16000%float
     = (resampled0 ← STT.new_Float32Array_of
                        (JSMath.floor (STT.num (length audio) * ratio)%float);
        Return (List.map
                  (fun i => Float32.fround (Closed.interpolated audio ratio i))
                  (seq 0 (length resampled0)))).
Proof.
  split.
  - unfold STT.resampleStage, STT.targetSampleRate.
    destruct (Z.eqb_spec (Z.of_nat (length audio)) 16000) as [He|Hne]; simpl.
    + rewrite bool_decide_eq_true_2 by exact He. reflexivity.
    + rewrite bool_decide_eq_false_2 by exact Hne. reflexivity.
  - unfold STT.resample, STT.originalSampleRate.
    destruct (STT.new_Float32Array_of _) as [zeros|e]; [|reflexivity].
    simpl. f_equal.
    exact (fill_all (Closed.interpolated audio (16000 / 44100)%float) zeros).
Qed.

(** ** Strings: splitting at white space *)

Module StringFacts.
Import Closed.


Lemma split_ws_from_spaceless (s : jsstring) :
  forall inRun cur, spaceless cur ->
    Forall spaceless (split_ws_from inRun cur s).
Proof.
  induction s as [|c s IH]; intros inRun cur Hcur; simpl.
  - constructor; [|constructor]. unfold spaceless. apply Forall_rev. exact Hcur.
  - destruct (isWhiteSpace c) eqn:Hc.
    + destruct inRun.
      * apply IH. exact Hcur.
      * constructor.
        -- unfold spaceless. apply Forall_rev. exact Hcur.
        -- apply IH. constructor.
    + apply IH. constructor; assumption.
Qed.

(** No piece of [s.split(/\s+/)] holds a white space character. *)
Lemma split_ws_spaceless (s : jsstring) : Forall spaceless (split_ws s).
Proof. apply split_ws_from_spaceless. constructor. Qed.

(** [split] never gives an empty array: the empty text gives one empty
    piece. *)
Lemma split_ws_from_nonempty (s : jsstring) :
  forall inRun cur, split_ws_from inRun cur s <> [].
Proof.
  induction s as [|c s IH]; intros inRun cur; simpl; [discriminate|].
  destruct (isWhiteSpace c); [destruct inRun|]; [apply IH | discriminate | apply IH].
Qed.

End StringFacts.

(** ** The viseme timeline *)

Module TimelineFacts.
Import Phonemes LipSync Closed.

Lemma generateVisemeSequence_length `{Host} {num} `{Number num}
  (text language : jsstring) :
  length (generateVisemeSequence (num := num) text language)
  = length (textToPhonemes text language).
Proof. unfold generateVisemeSequence. apply length_map. Qed.

Lemma timeline_length `{Host} {num} `{Number num}
  (text language : jsstring) (total : num) :
  length (generateLipSyncFromText text language total)
  = length (textToPhonemes text language).
Proof.
  unfold generateLipSyncFromText. rewrite length_imap.
  apply generateVisemeSequence_length.
Qed.

(** Event [i] of a timeline, whatever the arithmetic is. *)
Lemma timeline_lookup `{Host} {num} `{Number num}
  (text language : jsstring) (total : num) (i : nat) (e : TimedViseme num) :
  generateLipSyncFromText text language total !! i = Some e ->
  let delta := ndiv total (ofNat (length (textToPhonemes text language))) in
  startTime e = nmul (ofNat i) delta /\ endTime e = nmul (ofNat (i + 1)) delta.
Proof.
  unfold generateLipSyncFromText. rewrite list_lookup_imap.
  rewrite generateVisemeSequence_length.
  destruct (generateVisemeSequence text language !! i) as [v|]; simpl; [|discriminate].
  intros [= <-]. simpl. split; reflexivity.
Qed.

(** Consecutive events share their boundary: the two are the same
    product, also in binary64. *)
Lemma timeline_contiguous `{Host} {num} `{Number num}
  (text language : jsstring) (total : num) (i : nat) (e e' : TimedViseme num) :
  generateLipSyncFromText text language total !! i = Some e ->
  generateLipSyncFromText text language total !! S i = Some e' ->
  endTime e = startTime e'.
Proof.
  intros He He'.
  apply timeline_lookup in He. apply timeline_lookup in He'.
  destruct He as [_ ->]. destruct He' as [-> _].
  replace (i + 1)%nat with (S i) by lia. reflexivity.
Qed.

End TimelineFacts.

(** C5, as stated, fails in binary64, the arithmetic the code runs in.
    For the 49 phonemes of 49 letters [b] and a duration of 1 the last
    event ends at 0.9999999999999999, not at 1, and the spans add up to
    that number; with the default duration of 2 they add up to
    1.9999999999999998. With a duration that is NaN the end of an event
    and the start of the next one are both NaN, and [==] does not hold
    between them. *)
Lemma timeline_sum_is_rounded :
  let timeline D := LipSync.generateLipSyncFromText (H := Samples.asciiHost)
                      (num := float) Samples.fortyNine (js "en") D in
  length (Phonemes.textToPhonemes (H := Samples.asciiHost) Samples.fortyNine (js "en"))
    = 49%nat
  /\ LipSync.endTime <$> last (timeline 1%float) = Some 0x1.fffffffffffffp-1%float
  /\ Closed.totalSpan (timeline 1%float) = 0x1.fffffffffffffp-1%float
  /\ PrimFloat.eqb (Closed.totalSpan (timeline 1%float)) 1%float = false
  /\ Closed.totalSpan (timeline 2%float) = 0x1.fffffffffffffp+0%float
  /\ PrimFloat.eqb (Closed.totalSpan (timeline 2%float)) 2%float = false
  /\ (exists e e' rest, timeline PrimFloat.nan = e :: e' :: rest
                         /\ PrimFloat.eqb (LipSync.endTime e) (LipSync.startTime e')
                            = false).
Proof.
  intros timeline.
  split; [vm_compute; reflexivity|]. split; [vm_compute; reflexivity|].
  split; [vm_compute; reflexivity|]. split; [vm_compute; reflexivity|].
  split; [vm_compute; reflexivity|]. split; [vm_compute; reflexivity|].
  do 3 eexists. split; [vm_compute; reflexivity|]. vm_compute. reflexivity.
Qed.

(** C5, amended. A text with [N >= 1] phonemes and a duration [D] give
    exactly [N] events; event [i] starts at [i * delta] and ends at
    [(i + 1) * delta] with [delta = D / N]; the end of an event and the
    start of the next one are the same product. This holds whatever the
    arithmetic is. In binary64 the two are then equal under [==] unless
    the product is NaN. Nothing is said of the sum of the spans, which is
    [D] up to rounding only. *)
Theorem timeline_even_contiguous `{Host} (text language : jsstring) :
  let N := length (Phonemes.textToPhonemes text language) in
  (1 <= N)%nat ->
  (forall (num : Type) (ops : Number num) (D : num),
     let events := LipSync.generateLipSyncFromText text language D in
     let delta := ndiv D (ofNat N) in
     length events = N
     /\ (forall i e, events !! i = Some e ->
           LipSync.startTime e = nmul (ofNat i) delta
           /\ LipSync.endTime e = nmul (ofNat (i + 1)) delta)
     /\ (forall i e e', events !! i = Some e -> events !! S i = Some e' ->
           LipSync.endTime e = LipSync.startTime e'))
  /\ (forall (D : float) i e e',
        LipSync.generateLipSyncFromText text language D !! i = Some e ->
        LipSync.generateLipSyncFromText text language D !! S i = Some e' ->
        PrimFloat.is_nan (LipSync.endTime e) = false ->
        PrimFloat.eqb (LipSync.endTime e) (LipSync.startTime e') = true).
Proof.
  intros N HN. split.
  - intros num ops D events delta.
    split; [apply TimelineFacts.timeline_length|].
    split; [intros i e He; exact (TimelineFacts.timeline_lookup text language D i e He)|].
    intros i e e'. apply TimelineFacts.timeline_contiguous.
  - intros D i e e' He He' Hnan.
    rewrite <- (TimelineFacts.timeline_contiguous text language D i e e' He He').
    unfold PrimFloat.is_nan in Hnan. apply negb_false_iff in Hnan. exact Hnan.
Qed.

(** The hypothesis of C5 holds for the text [hello] in English, which
    has five phonemes: five events in binary64, the first of which ends
    where the second starts. *)
Lemma timeline_even_contiguous_hello :
  (1 <= length (Phonemes.textToPhonemes (H := Samples.asciiHost) (js "hello") (js "en")))%nat
  /\ length (LipSync.generateLipSyncFromText (H := Samples.asciiHost) (num := float)
               (js "hello") (js "en") 1%float) = 5%nat
  /\ (forall e e',
        Samples.helloTimeline !! 0%nat = Some e ->
        Samples.helloTimeline !! 1%nat = Some e' ->
        PrimFloat.eqb (LipSync.endTime e) (LipSync.startTime e') = true).
Proof.
  assert (HN : (1 <= length (Phonemes.textToPhonemes (H := Samples.asciiHost)
                               (js "hello") (js "en")))%nat)
    by (vm_compute; lia).
  pose proof (timeline_even_contiguous (H := Samples.asciiHost)
                (js "hello") (js "en") HN) as (Hgen & Heq).
  split; [exact HN|]. split.
  - destruct (Hgen float float_number 1%float) as (Hlen & _).
    rewrite Hlen. vm_compute. reflexivity.
  - intros e e' He He'. apply (Heq 1%float 0%nat e e' He He').
    vm_compute in He. injection He as <-. vm_compute. reflexivity.
Defined.

(** ** The order law of the scheduler, in binary64 *)

Lemma SFcompare_antisym (a b : spec_float) (c : comparison) :
  SFcompare a b = Some c -> SFcompare b a = Some (CompOpp c).
Proof.
  destruct a as [sa|sa| |sa ma ea], b as [sb|sb| |sb mb eb]; simpl;
    try discriminate;
    try (destruct sa; intros [= <-]; reflexivity);
    try (destruct sb; intros [= <-]; reflexivity);
    try (intros [= <-]; reflexivity).
  - destruct sa, sb; intros [= <-]; reflexivity.
  - destruct sa, sb; intros [= <-]; try reflexivity;
      rewrite (Z.compare_antisym ea eb);
      destruct (ea ?= eb)%Z; simpl; try reflexivity;
      rewrite ?(Pos.compare_cont_antisym ma mb Eq); reflexivity.
Qed.

#[export] Instance float_order : NumberOrder float.
Proof.
  constructor. intros a b. simpl.
  rewrite FloatAxioms.leb_spec, FloatAxioms.ltb_spec. unfold SFleb, SFltb.
  destruct (SFcompare (Prim2SF a) (Prim2SF b)) as [c|] eqn:Hc; [|discriminate].
  rewrite (SFcompare_antisym _ _ _ Hc).
  destruct c; simpl; congruence.
Qed.


(** ** The scheduler *)

Module SchedulerFacts.
Import LipSync Closed.

Section Scheduler.
Context {num : Type} `{NumberOrder num}.

(** One run of [animate] in a playing service with a listener. *)
Lemma animate_playing (now : num) (w : World num) :
  isPlaying (this w) = true -> onVisemeChange (this w) = true ->
  let w' := animate now w in
  visemeQueue (this w') = remaining now (visemeQueue (this w))
  /\ onVisemeChange (this w') = true
  /\ match List.find (covers now) (visemeQueue (this w)) with
     | Some v =>
         isPlaying (this w') = true
         /\ currentViseme (this w') = viseme v
         /\ notified w'
            = notified w ++ (if bool_decide (viseme v <> currentViseme (this w))
                             then [viseme v] else [])
         /\ pendingFrames w' = pendingFrames w ++ [nextHandle w]
     | None =>
         match remaining now (visemeQueue (this w)) with
         | [] => isPlaying (this w') = false
                 /\ currentViseme (this w') = REST
                 /\ notified w' = notified w ++ [REST]
         | _ :: _ => isPlaying (this w') = true
                     /\ currentViseme (this w') = currentViseme (this w)
                     /\ notified w' = notified w
                     /\ pendingFrames w' = pendingFrames w ++ [nextHandle w]
         end
     end.
Proof.
  destruct w as [[cur q playing frame listener] next pending log].
  simpl. intros -> ->. unfold animate. simpl.
  destruct (List.find (covers now) q) as [v|] eqn:Hfind.
  - apply find_some in Hfind. destruct Hfind as [Hin Hcov].
    unfold covers in Hcov. apply andb_true_iff in Hcov. destruct Hcov as [_ Hlt].
    assert (Hrem : In v (remaining now q))
      by (apply filter_In; split; assumption).
    unfold remaining in Hrem.
    destruct (bool_decide (viseme v <> cur)) eqn:Hd; simpl.
    + destruct (List.filter _ q) as [|x rest] eqn:Hf; [destruct Hrem|].
      simpl. unfold remaining. rewrite Hf. repeat split; reflexivity.
    + destruct (List.filter _ q) as [|x rest] eqn:Hf; [destruct Hrem|].
      simpl. unfold remaining. rewrite Hf.
      apply bool_decide_eq_false in Hd.
      assert (Hcur : viseme v = cur).
      { destruct (decide (viseme v = cur)) as [He|Hne]; [exact He|].
        exfalso. apply Hd. exact Hne. }
      rewrite app_nil_r. repeat split; congruence.
  - simpl. unfold remaining.
    destruct (List.filter _ q) as [|x rest] eqn:Hf; simpl; repeat split; reflexivity.
Qed.

(** When every event has ended, none covers the clock and none remains. *)
Lemma all_ended (now : num) (queue : list (TimedViseme num)) :
  (forall e, In e queue -> nleb (endTime e) now = true) ->
  List.find (covers now) queue = None /\ remaining now queue = [].
Proof.
  intros Hall.
  assert (Hrem : remaining now queue = []).
  { unfold remaining. induction queue as [|e q IH]; [reflexivity|].
    simpl. rewrite (nleb_not_nltb _ _ (Hall e (or_introl eq_refl))).
    apply IH. intros e' He'. apply Hall. right. exact He'. }
  split; [|exact Hrem].
  destruct (List.find (covers now) queue) as [v|] eqn:Hfind; [|reflexivity].
  apply find_some in Hfind. destruct Hfind as [Hin Hcov].
  unfold covers in Hcov. apply andb_true_iff in Hcov. destruct Hcov as [_ Hlt].
  rewrite (nleb_not_nltb _ _ (Hall v Hin)) in Hlt. discriminate.
Qed.

Lemma last_cons {A} (a : list A) :
  forall x d, List.last (x :: a) d = List.last a x.
Proof.
  induction a as [|y a IH]; intros x d; [reflexivity|].
  change (List.last (x :: y :: a) d) with (List.last (y :: a) d).
  rewrite (IH y d), (IH y x). reflexivity.
Qed.

Lemma changes_app (prev : option jsstring) (a b : list (option jsstring)) :
  changes prev (a ++ b) <-> changes prev a /\ changes (List.last a prev) b.
Proof.
  revert prev. induction a as [|x a IH]; intros prev.
  - simpl. tauto.
  - rewrite last_cons. cbn [app changes]. rewrite IH. tauto.
Qed.

Lemma animate_step (now : num) (w : World num) :
  onVisemeChange (this w) = true ->
  onVisemeChange (this (animate now w)) = true
  /\ exists emitted, notified (animate now w) = notified w ++ emitted
                     /\ step_summary w (animate now w) emitted.
Proof.
  intros Hl. unfold step_summary.
  destruct (isPlaying (this w)) eqn:Hp.
  - pose proof (animate_playing now w Hp Hl) as (_ & Hl' & Hcase).
    split; [exact Hl'|].
    destruct (List.find (covers now) (visemeQueue (this w))) as [v|].
    + destruct Hcase as (Hp' & Hcur & Hnot & _).
      eexists. split; [exact Hnot|]. left. split; [exact Hp'|].
      destruct (bool_decide (viseme v <> currentViseme (this w))) eqn:Hd; simpl.
      * apply bool_decide_eq_true in Hd. repeat split; assumption.
      * apply bool_decide_eq_false in Hd. split; [exact I|].
        rewrite Hcur.
        destruct (decide (viseme v = currentViseme (this w))) as [He|Hne];
          [exact He | exfalso; apply Hd; exact Hne].
    + destruct (remaining now (visemeQueue (this w))).
      * destruct Hcase as (Hp' & Hcur & Hnot).
        eexists. split; [exact Hnot|]. right. repeat split; assumption.
      * destruct Hcase as (Hp' & Hcur & Hnot & _).
        exists []. rewrite app_nil_r. split; [exact Hnot|].
        left. repeat split; assumption.
  - unfold animate. rewrite Hp. simpl.
    split; [exact Hl|]. exists []. rewrite app_nil_r, Hp. repeat split; reflexivity.
Qed.

Lemma tick_step (now : num) (w : World num) :
  onVisemeChange (this w) = true ->
  onVisemeChange (this (tick now w)) = true
  /\ exists emitted, notified (tick now w) = notified w ++ emitted
                     /\ ((pendingFrames w = [] /\ tick now w = w /\ emitted = [])
                         \/ (pendingFrames w <> [] /\ step_summary w (tick now w) emitted)).
Proof.
  intros Hl. unfold tick.
  destruct (pendingFrames w) as [|h rest] eqn:Hpend.
  - split; [exact Hl|]. exists []. rewrite app_nil_r. split; [reflexivity|].
    left. repeat split; reflexivity.
  - set (w0 := {| this := this w; nextHandle := nextHandle w;
                  pendingFrames := rest; notified := notified w |}).
    destruct (animate_step now w0 Hl) as (Hl' & emitted & Hnot & Hsum).
    split; [exact Hl'|]. exists emitted. split; [exact Hnot|].
    right. split; [discriminate | exact Hsum].
Qed.

(** The notifications of a whole run. *)
Lemma run_trace (clock : list num) :
  forall w : World num, onVisemeChange (this w) = true ->
  exists out, notified (run clock w) = notified w ++ out
    /\ if isPlaying (this w) then
         (isPlaying (this (run clock w)) = true
          /\ changes (currentViseme (this w)) out)
         \/ (isPlaying (this (run clock w)) = false
             /\ currentViseme (this (run clock w)) = REST
             /\ exists out', out = out' ++ [REST]
                             /\ changes (currentViseme (this w)) out')
       else out = [] /\ isPlaying (this (run clock w)) = false
            /\ currentViseme (this (run clock w)) = currentViseme (this w).
Proof.
  induction clock as [|now clock IH]; intros w Hl.
  - exists []. rewrite app_nil_r. split; [reflexivity|]. simpl.
    destruct (isPlaying (this w)) eqn:Hp.
    + left. split; [reflexivity | exact I].
    + repeat split; reflexivity.
  - change (run (now :: clock) w) with (run clock (tick now w)).
    destruct (tick_step now w Hl) as (Hl1 & e1 & Hn1 & Hstep).
    destruct (IH (tick now w) Hl1) as (out & Hn & Hrest).
    exists (e1 ++ out). split; [rewrite Hn, Hn1, app_assoc; reflexivity|].
    destruct Hstep as [(_ & Hsame & ->) | (_ & Hsum)].
    + rewrite Hsame in *. simpl. exact Hrest.
    + unfold step_summary in Hsum.
      destruct (isPlaying (this w)) eqn:Hp.
      * destruct Hsum as [(Hp1 & Hch & Hcur) | (Hp1 & -> & Hcur)].
        -- rewrite Hp1 in Hrest. rewrite Hcur in Hrest.
           destruct Hrest as [(Hpe & Hche) | (Hpe & Hce & out' & -> & Hche)].
           ++ left. split; [exact Hpe|]. apply changes_app. split; assumption.
           ++ right. split; [exact Hpe|]. split; [exact Hce|].
              exists (e1 ++ out'). rewrite app_assoc. split; [reflexivity|].
              apply changes_app. split; assumption.
        -- rewrite Hp1 in Hrest. destruct Hrest as (-> & Hpe & Hce).
           right. split; [exact Hpe|]. split; [congruence|].
           exists []. split; [reflexivity | exact I].
      * destruct Hsum as (-> & Hp1 & Hcur).
        rewrite Hp1 in Hrest. destruct Hrest as (-> & Hpe & Hce).
        repeat split; [exact Hpe | congruence].
Qed.

End Scheduler.
End SchedulerFacts.

(** C6. In a playing service with a listener and a frame pending: a tick
    notifies only the viseme of the first event whose interval holds the
    clock reading, and only when it differs from the current viseme, the
    one notified last; a tick at which every event has ended stops the
    service and notifies the rest viseme; and over any sequence of ticks,
    a clock that only advances included, no notification made while
    playing repeats the one before it. *)
Theorem scheduler_notifies_changes_then_rests {num : Type} `{NumberOrder num}
  (w : LipSync.World num) :
  LipSync.isPlaying (LipSync.this w) = true ->
  LipSync.onVisemeChange (LipSync.this w) = true ->
  LipSync.pendingFrames w <> [] ->
  (forall now,
     let w' := LipSync.tick now w in
     match List.find (LipSync.covers now) (LipSync.visemeQueue (LipSync.this w)) with
     | Some v =>
         LipSync.isPlaying (LipSync.this w') = true
         /\ LipSync.notified w'
            = LipSync.notified w
              ++ (if bool_decide (LipSync.viseme v
                                  <> LipSync.currentViseme (LipSync.this w))
                  then [LipSync.viseme v] else [])
     | None =>
         (LipSync.isPlaying (LipSync.this w') = true
          /\ LipSync.notified w' = LipSync.notified w)
         \/ (LipSync.isPlaying (LipSync.this w') = false
             /\ LipSync.notified w' = LipSync.notified w ++ [LipSync.REST])
     end)
  /\ (forall now,
        (forall e, In e (LipSync.visemeQueue (LipSync.this w)) ->
                   nleb (LipSync.endTime e) now = true) ->
        let w' := LipSync.tick now w in
        LipSync.isPlaying (LipSync.this w') = false
        /\ LipSync.currentViseme (LipSync.this w') = LipSync.REST
        /\ LipSync.notified w' = LipSync.notified w ++ [LipSync.REST])
  /\ (forall clock, exists out,
        LipSync.notified (LipSync.run clock w) = LipSync.notified w ++ out
        /\ ((LipSync.isPlaying (LipSync.this (LipSync.run clock w)) = true
             /\ Closed.changes (LipSync.currentViseme (LipSync.this w)) out)
            \/ (LipSync.isPlaying (LipSync.this (LipSync.run clock w)) = false
                /\ LipSync.currentViseme (LipSync.this (LipSync.run clock w))
                   = LipSync.REST
                /\ exists out', out = out' ++ [LipSync.REST]
                     /\ Closed.changes (LipSync.currentViseme (LipSync.this w)) out'))).
Proof.
  intros Hp Hl Hpend.
  destruct (LipSync.pendingFrames w) as [|h rest] eqn:Hpf; [congruence|].
  set (w0 := {| LipSync.this := LipSync.this w;
                LipSync.nextHandle := LipSync.nextHandle w;
                LipSync.pendingFrames := rest;
                LipSync.notified := LipSync.notified w |}).
  assert (Htick : forall now, LipSync.tick now w = LipSync.animate now w0).
  { intros now. unfold LipSync.tick. rewrite Hpf. reflexivity. }
  split; [|split].
  - intros now. simpl. rewrite Htick.
    pose proof (SchedulerFacts.animate_playing now w0 Hp Hl) as (_ & _ & Hcase).
    simpl in Hcase.
    destruct (List.find (LipSync.covers now) (LipSync.visemeQueue (LipSync.this w)))
      as [v|].
    + destruct Hcase as (Hp' & _ & Hnot & _). split; assumption.
    + destruct (Closed.remaining now (LipSync.visemeQueue (LipSync.this w))).
      * destruct Hcase as (Hp' & _ & Hnot). right. split; assumption.
      * destruct Hcase as (Hp' & _ & Hnot & _). left. split; assumption.
  - intros now Hall. simpl. rewrite Htick.
    pose proof (SchedulerFacts.animate_playing now w0 Hp Hl) as (_ & _ & Hcase).
    simpl in Hcase.
    destruct (SchedulerFacts.all_ended now _ Hall) as [Hfind Hrem].
    rewrite Hfind, Hrem in Hcase. exact Hcase.
  - intros clock.
    destruct (SchedulerFacts.run_trace clock w Hl) as (out & Hnot & Hcase).
    rewrite Hp in Hcase. exists out. split; assumption.
Qed.

(** The hypotheses of C6 hold once the timeline of [hello] is started;
    a tick at clock reading 2, after its last event, stops it. *)
Lemma scheduler_hello_rests :
  LipSync.isPlaying (LipSync.this Samples.helloPlaying) = true
  /\ LipSync.onVisemeChange (LipSync.this Samples.helloPlaying) = true
  /\ LipSync.pendingFrames Samples.helloPlaying <> []
  /\ LipSync.isPlaying (LipSync.this (LipSync.tick 2%float Samples.helloPlaying)) = false
  /\ LipSync.notified (LipSync.tick 2%float Samples.helloPlaying)
     = LipSync.notified Samples.helloPlaying ++ [LipSync.REST].
Proof.
  assert (Hp : LipSync.isPlaying (LipSync.this Samples.helloPlaying) = true)
    by (vm_compute; reflexivity).
  assert (Hl : LipSync.onVisemeChange (LipSync.this Samples.helloPlaying) = true)
    by (vm_compute; reflexivity).
  assert (Hf : LipSync.pendingFrames Samples.helloPlaying <> [])
    by (vm_compute; discriminate).
  pose proof (scheduler_notifies_changes_then_rests Samples.helloPlaying Hp Hl Hf)
    as (_ & Hstop & _).
  assert (Hall : forall e,
            In e (LipSync.visemeQueue (LipSync.this Samples.helloPlaying)) ->
            nleb (LipSync.endTime e) 2%float = true).
  { apply List.Forall_forall. vm_compute. repeat constructor. }
  destruct (Hstop 2%float Hall) as (Hidle & _ & Hnot).
  repeat split; assumption.
Defined.

(** C9. A text without phonemes gives an empty timeline, and nothing is
    thrown; the caller hands the timeline to [startLipSync], which then
    stops at once: the service is idle at the rest viseme, its queue is
    empty and no frame is requested. *)
Theorem no_phonemes_no_animation `{Host} {num : Type} `{Number num}
  (text language : jsstring) (total : num) :
  Phonemes.textToPhonemes text language = [] ->
  LipSync.generateLipSyncFromText text language total = []
  /\ forall (start now : num) (w : LipSync.World num),
       let w' := LipSync.startLipSync
                   (LipSync.generateLipSyncFromText text language total)
                   start now w in
       LipSync.isPlaying (LipSync.this w') = false
       /\ LipSync.visemeQueue (LipSync.this w') = []
       /\ LipSync.currentViseme (LipSync.this w') = LipSync.REST
       /\ LipSync.animationFrame (LipSync.this w') = None
       /\ LipSync.nextHandle w' = LipSync.nextHandle w.
Proof.
  intros Hnone.
  assert (Hempty : LipSync.generateLipSyncFromText text language total = []).
  { unfold LipSync.generateLipSyncFromText, Phonemes.generateVisemeSequence.
    rewrite Hnone. reflexivity. }
  split; [exact Hempty|].
  intros start now w. rewrite Hempty.
  destruct w as [[cur q playing frame listener] next pending log].
  destruct playing; simpl; repeat split; reflexivity.
Qed.

(** The hypothesis of C9 holds for the empty text. *)
Lemma no_phonemes_empty_text :
  Phonemes.textToPhonemes (H := Samples.asciiHost) (js "") (js "en") = []
  /\ LipSync.generateLipSyncFromText (H := Samples.asciiHost) (num := float)
       (js "") (js "en") 2%float = [].
Proof.
  assert (Hnone : Phonemes.textToPhonemes (H := Samples.asciiHost) (js "") (js "en") = [])
    by (vm_compute; reflexivity).
  split; [exact Hnone|].
  exact (proj1 (no_phonemes_no_animation (H := Samples.asciiHost) (num := float)
                  (js "") (js "en") 2%float Hnone)).
Defined.

(** ** Dictionary translation *)

Module DictionaryFacts.
Import DictionaryMT Closed.




End DictionaryFacts.




(** Linear arithmetic with division and remainder by constants. *)
Ltac divmod := zify; Z.to_euclidean_division_equations; lia.

(** ** Checking a property on every number below a power of two *)

Lemma forall_bits_spec (bits : nat) :
  forall (prefix : N) (P : N -> bool),
    Closed.forall_bits bits prefix P = true ->
    forall x, x < 2 ^ N.of_nat bits -> P (prefix * 2 ^ N.of_nat bits + x) = true.
Proof.
  induction bits as [|bits IH]; intros prefix P Hall x Hx.
  - simpl in *. assert (x = 0) as -> by lia.
    rewrite N.mul_1_r, N.add_0_r. exact Hall.
  - cbn [Closed.forall_bits] in Hall. apply andb_true_iff in Hall.
    destruct Hall as [Hl Hr].
    rewrite Nat2N.inj_succ, N.pow_succ_r' in *.
    set (p := 2 ^ N.of_nat bits) in *.
    destruct (N.lt_ge_cases x p) as [Hlt|Hge].
    + replace (prefix * (2 * p) + x) with (2 * prefix * p + x) by lia.
      apply IH; assumption.
    + replace (prefix * (2 * p) + x) with ((2 * prefix + 1) * p + (x - p)) by lia.
      apply IH; [assumption | lia].
Qed.

Lemma forall_below (bits : nat) (P : N -> bool) :
  Closed.forall_bits bits 0 P = true ->
  forall x, x < 2 ^ N.of_nat bits -> P x = true.
Proof.
  intros Hall x Hx. exact (forall_bits_spec bits 0 P Hall x Hx).
Qed.

(** ** Base64 *)

Module Base64Facts.
Import Codec Closed.

Lemma sextet_round_trip (n : N) : n < 64 -> charSextet (sextetChar n) = Some n.
Proof.
  intros Hn.
  assert (Hall : Closed.forall_bits 6 0
                   (fun n => bool_decide (charSextet (sextetChar n) = Some n)) = true)
    by (vm_compute; reflexivity).
  exact (bool_decide_eq_true_1 _ (forall_below 6 _ Hall n Hn)).
Qed.

(** A character of the alphabet is neither [=], nor a comma, nor white
    space, whatever the number it stands for. *)
Lemma sextetChar_plain (n : N) :
  sextetChar n <> 0x3D /\ sextetChar n <> 0x2C
  /\ isAsciiWhitespace (sextetChar n) = false.
Proof.
  unfold sextetChar, isAsciiWhitespace.
  destruct (N.ltb_spec n 26); [|destruct (N.ltb_spec n 52);
    [|destruct (N.ltb_spec n 62); [|destruct (N.eqb_spec n 62)]]];
    (split; [lia | split; [lia |]]);
    repeat (apply orb_false_iff; split); apply N.eqb_neq; lia.
Qed.

(** Induction three bytes at a time. *)
Lemma list_ind3 {A} (P : list A -> Prop) :
  P [] -> (forall a, P [a]) -> (forall a b, P [a; b]) ->
  (forall a b c l, P l -> P (a :: b :: c :: l)) ->
  forall l, P l.
Proof.
  intros H0 H1 H2 H3.
  assert (Hstrong : forall n l, (length l <= n)%nat -> P l).
  { induction n as [|n IH]; intros l Hl.
    - destruct l; [exact H0 | simpl in Hl; lia].
    - destruct l as [|a [|b [|c l]]]; [exact H0 | apply H1 | apply H2 |].
      apply H3. apply IH. simpl in Hl. lia. }
  intros l. exact (Hstrong (length l) l (le_n _)).
Qed.

Lemma stripPadding_cons (c : N) (rest : jsstring) :
  c <> 0x3D -> stripPadding (c :: rest) = c :: stripPadding rest.
Proof.
  intros Hc. cbn [stripPadding].
  destruct c as [|p]; [reflexivity|].
  do 6 (destruct p as [p|p|]; try reflexivity); try congruence;
    destruct p; try reflexivity; congruence.
Qed.

(** What [atob] does to the base64 text of bytes, after the white space
    filter: the padding goes, every character is in the alphabet, and the
    sextets decode to the bytes. *)
Lemma base64_decodes (bytes : list N) :
  Forall is_byte bytes ->
  exists ns,
    sextets (stripPadding (base64 bytes)) = Some ns
    /\ decodeSextets ns = bytes
    /\ length (stripPadding (base64 bytes)) = length ns
    /\ N.of_nat (length ns) mod 4 <> 1
    /\ N.of_nat (length (base64 bytes)) mod 4 = 0.
Proof.
  induction bytes as [|a|a b|a b c rest IH] using list_ind3; intros Hb.
  - exists []. split; [reflexivity|]. split; [reflexivity|]. split; [reflexivity|].
    split; [|reflexivity]. intros Hm. vm_compute in Hm. discriminate.
  - apply Forall_cons in Hb as [Ha _]. unfold is_byte in Ha.
    exists [a / 4; a mod 4 * 16].
    cbn [base64].
    rewrite !stripPadding_cons by apply sextetChar_plain.
    cbn [stripPadding sextets].
    rewrite !sextet_round_trip by divmod.
    cbn. repeat split; try divmod.
    f_equal. divmod.
  - apply Forall_cons in Hb as [Ha Hb]. apply Forall_cons in Hb as [Hb _].
    unfold is_byte in *.
    exists [a / 4; a mod 4 * 16 + b / 16; b mod 16 * 4].
    cbn [base64].
    rewrite !stripPadding_cons by apply sextetChar_plain.
    cbn [stripPadding sextets].
    rewrite !sextet_round_trip by divmod.
    cbn. repeat split; try divmod.
    f_equal; [divmod | f_equal; divmod].
  - apply Forall_cons in Hb as [Ha Hb]. apply Forall_cons in Hb as [Hb Hc].
    apply Forall_cons in Hc as [Hc Hrest]. unfold is_byte in *.
    destruct (IH Hrest) as (ns & Hs & Hd & Hlen & Hmod & Hmod0).
    exists (a / 4 :: a mod 4 * 16 + b / 16 :: b mod 16 * 4 + c / 64 :: c mod 64 :: ns).
    cbn [base64].
    rewrite !stripPadding_cons by apply sextetChar_plain.
    cbn [sextets].
    rewrite !sextet_round_trip by divmod.
    rewrite Hs. cbn [mbind option_bind].
    split; [reflexivity|]. split; [|split; [|split]].
    + cbn [decodeSextets]. rewrite Hd. f_equal; [divmod | f_equal; [divmod | f_equal; divmod]].
    + cbn [length]. rewrite Hlen. reflexivity.
    + cbn [length]. divmod.
    + cbn [length]. divmod.
Qed.

Lemma base64_plain (bytes : list N) :
  Forall (fun c => c <> 0x2C /\ isAsciiWhitespace c = false) (base64 bytes).
Proof.
  assert (Hpad : (0x3D : N) <> 0x2C /\ isAsciiWhitespace 0x3D = false)
    by (split; [discriminate | reflexivity]).
  assert (Hchar : forall n, sextetChar n <> 0x2C
                            /\ isAsciiWhitespace (sextetChar n) = false)
    by (intros n; destruct (sextetChar_plain n) as (_ & ? & ?); split; assumption).
  induction bytes as [|a|a b|a b c rest IH] using list_ind3; cbn [base64];
    repeat (apply Forall_cons; split); auto.
Qed.

Lemma filter_all {A} (f : A -> bool) (l : list A) :
  Forall (fun x => f x = true) l -> List.filter f l = l.
Proof.
  induction 1 as [|x l Hx _ IH]; [reflexivity|].
  simpl. rewrite Hx, IH. reflexivity.
Qed.

(** [atob] gives back the bytes of a base64 text. *)
Lemma atob_base64 (bytes : list N) :
  Forall is_byte bytes -> atob (base64 bytes) = Return bytes.
Proof.
  intros Hb.
  destruct (base64_decodes bytes Hb) as (ns & Hs & Hd & Hlen & Hmod & Hmod0).
  unfold atob.
  rewrite filter_all.
  2: { eapply Forall_impl; [apply base64_plain|].
       intros c [_ Hc]. simpl. rewrite Hc. reflexivity. }
  rewrite Hmod0. simpl (0 =? 0). cbv iota.
  rewrite Hlen. apply N.eqb_neq in Hmod. rewrite Hmod, Hs, Hd. reflexivity.
Qed.

Lemma toUint8_to_N (b : Byte.byte) : toUint8 (Byte.to_N b) = b.
Proof.
  unfold toUint8. pose proof (Byte.to_N_bounded b) as Hb.
  rewrite N.mod_small by lia. rewrite Byte.of_to_N. reflexivity.
Qed.

Lemma bytes_are_bytes (bytes : list Byte.byte) :
  Forall is_byte (List.map Byte.to_N bytes).
Proof.
  apply Forall_forall. intros n Hn. apply list_elem_of_In, in_map_iff in Hn.
  destruct Hn as (b & <- & _). pose proof (Byte.to_N_bounded b). unfold is_byte. lia.
Qed.

(** Splitting at a separator. *)
Lemma split_at_none (sep : N) (s : jsstring) :
  forall cur, Forall (fun c => c <> sep) s -> split_at sep cur s = [rev cur ++ s].
Proof.
  induction s as [|c s IH]; intros cur Hs; simpl.
  - rewrite app_nil_r. reflexivity.
  - apply Forall_cons in Hs as [Hc Hs].
    apply N.eqb_neq in Hc. rewrite Hc. rewrite IH by exact Hs.
    simpl. rewrite <- app_assoc. reflexivity.
Qed.

Lemma split_at_first (sep : N) (s1 s2 : jsstring) :
  forall cur, Forall (fun c => c <> sep) s1 ->
    split_at sep cur (s1 ++ sep :: s2) = (rev cur ++ s1) :: split_at sep [] s2.
Proof.
  induction s1 as [|c s1 IH]; intros cur Hs; simpl.
  - rewrite N.eqb_refl, app_nil_r. reflexivity.
  - apply Forall_cons in Hs as [Hc Hs].
    apply N.eqb_neq in Hc. rewrite Hc. rewrite IH by exact Hs.
    simpl. rewrite <- app_assoc. reflexivity.
Qed.

(** The media type of a data URL holds a comma only if that of the blob
    does. *)
Lemma mediaType_no_comma (blob : WebRTC.Blob) :
  Forall (fun c => c <> 0x2C) (WebRTC.blobType blob) ->
  Forall (fun c => c <> 0x2C) (WebRTC.mediaType blob).
Proof.
  unfold WebRTC.mediaType. destruct (WebRTC.blobType blob) as [|c type]; intros Htype.
  - vm_compute. repeat constructor; discriminate.
  - exact Htype.
Qed.

(** The bytes of a blob come back from its data URL, when its media type
    holds no comma. *)
Lemma decodeDataURL_readAsDataURL (blob : WebRTC.Blob) :
  Forall (fun c => c <> 0x2C) (WebRTC.blobType blob) ->
  WebRTC.decodeDataURL (WebRTC.readAsDataURL blob) = Return (WebRTC.blobBytes blob).
Proof.
  intros Htype. apply mediaType_no_comma in Htype.
  unfold WebRTC.decodeDataURL, WebRTC.readAsDataURL, split_comma.
  set (type := WebRTC.mediaType blob) in *.
  set (b64 := base64 (List.map Byte.to_N (WebRTC.blobBytes blob))).
  assert (Hsplit : split_at 0x2C [] (js "data:" ++ type ++ js ";base64," ++ b64)
                   = [js "data:" ++ type ++ js ";base64"; b64]).
  { change (js ";base64,") with (js ";base64" ++ [0x2C]).
    replace (js "data:" ++ type ++ (js ";base64" ++ [0x2C]) ++ b64)
      with ((js "data:" ++ type ++ js ";base64") ++ 0x2C :: b64)
      by (rewrite <- !app_assoc; reflexivity).
    rewrite split_at_first.
    - rewrite split_at_none; [reflexivity|].
      eapply Forall_impl; [apply base64_plain|]. intros c [Hc _]. exact Hc.
    - apply Forall_app. split; [|apply Forall_app; split; [exact Htype|]];
        vm_compute; repeat constructor; discriminate. }
  rewrite Hsplit.
  change (default (js "undefined")
            ([js "data:" ++ type ++ js ";base64"; b64] !! 1%nat))
    with b64.
  unfold b64. rewrite atob_base64 by apply bytes_are_bytes.
  cbn [mbind result_bind]. f_equal.
  rewrite List.map_map. rewrite <- (List.map_id (WebRTC.blobBytes blob)) at 2.
  apply map_ext. intros b. apply toUint8_to_N.
Qed.

End Base64Facts.

(** ** JSON: what [JSON.parse] reads back from [JSON.stringify] *)

Module JSONFacts.
Import Codec Closed.

Lemma hexValue_hexDigit (n : N) : n < 16 -> hexValue (hexDigit n) = Some n.
Proof.
  intros Hn.
  assert (Hall : forall_bits 4 0
                   (fun n => bool_decide (hexValue (hexDigit n) = Some n)) = true)
    by (vm_compute; reflexivity).
  exact (bool_decide_eq_true_1 _ (forall_below 4 _ Hall n Hn)).
Qed.

Lemma parseChars_unicodeEscape (c : N) (acc tail : jsstring) :
  isUnit16 c ->
  parseChars acc (unicodeEscape c ++ tail) = parseChars (c :: acc) tail.
Proof.
  unfold isUnit16. intros Hc. unfold unicodeEscape.
  cbn [app].
  change (parseChars acc
            (0x5C :: 0x75 :: hexDigit (c / 4096 mod 16) :: hexDigit (c / 256 mod 16)
               :: hexDigit (c / 16 mod 16) :: hexDigit (c mod 16) :: tail))
    with (match hexValue (hexDigit (c / 4096 mod 16)),
                hexValue (hexDigit (c / 256 mod 16)),
                hexValue (hexDigit (c / 16 mod 16)),
                hexValue (hexDigit (c mod 16)) with
          | Some a, Some b, Some c', Some d =>
              parseChars ((a * 4096 + b * 256 + c' * 16 + d) :: acc) tail
          | _, _, _, _ => None
          end).
  rewrite !hexValue_hexDigit by divmod.
  f_equal. f_equal. divmod.
Qed.

(** A character that is written as it is. *)
Lemma parseChars_literal (c : N) (acc tail : jsstring) :
  0x20 <= c -> c <> 0x22 -> c <> 0x5C ->
  parseChars acc (c :: tail) = parseChars (c :: acc) tail.
Proof.
  intros Hlow Hq Hb. cbn [parseChars].
  apply N.eqb_neq in Hq, Hb. rewrite Hq, Hb.
  destruct (N.ltb_spec c 0x20); [lia | reflexivity].
Qed.

Lemma surrogate_bounds (c : N) :
  (isHighSurrogate c = true -> 0xD800 <= c <= 0xDBFF)
  /\ (isLowSurrogate c = true -> 0xDC00 <= c <= 0xDFFF)
  /\ (isHighSurrogate c = false -> c < 0xD800 \/ 0xDBFF < c)
  /\ (isLowSurrogate c = false -> c < 0xDC00 \/ 0xDFFF < c).
Proof.
  unfold isHighSurrogate, isLowSurrogate.
  split; [|split; [|split]]; intros Ht.
  - apply andb_true_iff in Ht. destruct Ht as [H1 H2].
    apply N.leb_le in H1, H2. lia.
  - apply andb_true_iff in Ht. destruct Ht as [H1 H2].
    apply N.leb_le in H1, H2. lia.
  - apply andb_false_iff in Ht. destruct Ht as [Ht|Ht]; apply N.leb_gt in Ht; lia.
  - apply andb_false_iff in Ht. destruct Ht as [Ht|Ht]; apply N.leb_gt in Ht; lia.
Qed.

(** The characters between the quotes are read back as the string. *)
Lemma parseChars_escape (n : nat) :
  forall s, (length s <= n)%nat -> Forall isUnit16 s ->
  forall acc rest,
    parseChars acc (escape s ++ 0x22 :: rest) = Some (rev acc ++ s, rest).
Proof.
  induction n as [|n IH]; intros s Hlen Hs acc rest.
  { destruct s; [|simpl in Hlen; lia]. simpl. rewrite app_nil_r. reflexivity. }
  destruct s as [|c s]; [simpl; rewrite app_nil_r; reflexivity|].
  apply Forall_cons in Hs as [Hc Hs]. simpl in Hlen.
  assert (Hnext : forall acc', parseChars (c :: acc') (escape s ++ 0x22 :: rest)
                               = Some (rev acc' ++ c :: s, rest)).
  { intros acc'. rewrite IH by (assumption || lia).
    simpl. rewrite <- app_assoc. reflexivity. }
  cbn [escape].
  destruct (N.eqb_spec c 0x08) as [->|H08]; [exact (Hnext acc)|].
  destruct (N.eqb_spec c 0x09) as [->|H09]; [exact (Hnext acc)|].
  destruct (N.eqb_spec c 0x0A) as [->|H0A]; [exact (Hnext acc)|].
  destruct (N.eqb_spec c 0x0C) as [->|H0C]; [exact (Hnext acc)|].
  destruct (N.eqb_spec c 0x0D) as [->|H0D]; [exact (Hnext acc)|].
  destruct (N.ltb_spec c 0x20) as [Hctl|Hge].
  { rewrite <- app_assoc, parseChars_unicodeEscape by exact Hc. apply Hnext. }
  destruct (N.eqb_spec c 0x22) as [->|H22]; [exact (Hnext acc)|].
  destruct (N.eqb_spec c 0x5C) as [->|H5C]; [exact (Hnext acc)|].
  pose proof (surrogate_bounds c) as (Hhi & Hlo & Hnhi & Hnlo).
  destruct (isHighSurrogate c) eqn:Hh.
  - destruct s as [|lo s'].
    + rewrite parseChars_unicodeEscape by exact Hc. apply (Hnext acc).
    + destruct (isLowSurrogate lo) eqn:Hl.
      * pose proof (surrogate_bounds lo) as (_ & Hlob & _ & _).
        specialize (Hlob Hl).
        cbn [app]. rewrite !parseChars_literal by lia.
        apply Forall_cons in Hs as [_ Hs']. simpl in Hlen.
        rewrite IH by (assumption || lia).
        simpl. rewrite <- !app_assoc. reflexivity.
      * rewrite <- app_assoc, parseChars_unicodeEscape by exact Hc. apply Hnext.
  - destruct (isLowSurrogate c) eqn:Hl.
    + rewrite <- app_assoc, parseChars_unicodeEscape by exact Hc. apply Hnext.
    + cbn [app]. rewrite parseChars_literal by lia. apply Hnext.
Qed.

(** *** Numbers *)

Lemma takeDigits_stop (v : Z) (k : nat) (tail : jsstring) :
  stopsDigits tail -> takeDigits v k tail = (v, k, tail).
Proof.
  destruct tail as [|t tail]; [reflexivity|].
  simpl. intros ->. reflexivity.
Qed.

Lemma takeDigits_acc (d : Decimal.uint) :
  forall (acc : positive) (k : nat) (tail : jsstring),
    stopsDigits tail ->
    takeDigits (Zpos acc) k (digitChars d ++ tail)
    = (Zpos (Pos.of_uint_acc d acc), (k + Decimal.nb_digits d)%nat, tail).
Proof.
  induction d as [|d IH|d IH|d IH|d IH|d IH|d IH|d IH|d IH|d IH|d IH];
    intros acc k tail Hstop;
    [simpl; rewrite Nat.add_0_r; apply takeDigits_stop; exact Hstop | ..];
    cbn [digitChars app takeDigits Pos.of_uint_acc Decimal.nb_digits];
    match goal with
    | |- context [isDigit ?c] => change (isDigit c) with true
    end;
    cbv iota;
    match goal with
    | |- takeDigits ?v _ _ = (Zpos (Pos.of_uint_acc _ ?p), _, _) =>
        replace v with (Zpos p) by lia
    end;
    rewrite IH by exact Hstop; f_equal; f_equal; lia.
Qed.

Lemma takeDigits_uint (d : Decimal.uint) :
  forall (k : nat) (tail : jsstring),
    stopsDigits tail ->
    takeDigits 0 k (digitChars d ++ tail)
    = (Z.of_N (Pos.of_uint d), (k + Decimal.nb_digits d)%nat, tail).
Proof.
  induction d as [|d IH|d IH|d IH|d IH|d IH|d IH|d IH|d IH|d IH|d IH];
    intros k tail Hstop;
    [simpl; rewrite Nat.add_0_r; apply takeDigits_stop; exact Hstop | ..];
    cbn [digitChars app takeDigits Pos.of_uint Decimal.nb_digits];
    match goal with
    | |- context [isDigit ?c] => change (isDigit c) with true
    end;
    cbv iota.
  - change (0 * 10 + Z.of_N (0x30 - 0x30))%Z with 0%Z.
    rewrite IH by exact Hstop. f_equal; f_equal; lia.
  - change (0 * 10 + Z.of_N (0x31 - 0x30))%Z with (Zpos 1).
    rewrite takeDigits_acc by exact Hstop. f_equal; f_equal; lia.
  - change (0 * 10 + Z.of_N (0x32 - 0x30))%Z with (Zpos 2).
    rewrite takeDigits_acc by exact Hstop. f_equal; f_equal; lia.
  - change (0 * 10 + Z.of_N (0x33 - 0x30))%Z with (Zpos 3).
    rewrite takeDigits_acc by exact Hstop. f_equal; f_equal; lia.
  - change (0 * 10 + Z.of_N (0x34 - 0x30))%Z with (Zpos 4).
    rewrite takeDigits_acc by exact Hstop. f_equal; f_equal; lia.
  - change (0 * 10 + Z.of_N (0x35 - 0x30))%Z with (Zpos 5).
    rewrite takeDigits_acc by exact Hstop. f_equal; f_equal; lia.
  - change (0 * 10 + Z.of_N (0x36 - 0x30))%Z with (Zpos 6).
    rewrite takeDigits_acc by exact Hstop. f_equal; f_equal; lia.
  - change (0 * 10 + Z.of_N (0x37 - 0x30))%Z with (Zpos 7).
    rewrite takeDigits_acc by exact Hstop. f_equal; f_equal; lia.
  - change (0 * 10 + Z.of_N (0x38 - 0x30))%Z with (Zpos 8).
    rewrite takeDigits_acc by exact Hstop. f_equal; f_equal; lia.
  - change (0 * 10 + Z.of_N (0x39 - 0x30))%Z with (Zpos 9).
    rewrite takeDigits_acc by exact Hstop. f_equal; f_equal; lia.
Qed.

Lemma nzhead_not_D0 (u x : Decimal.uint) : Decimal.nzhead u <> Decimal.D0 x.
Proof. induction u; simpl; try discriminate; assumption. Qed.

Lemma to_uint_no_leading_zero (p : positive) (d : Decimal.uint) :
  Pos.to_uint p <> Decimal.D0 d.
Proof.
  intros Hd.
  pose proof (DecimalPos.Unsigned.to_of (Pos.to_uint p)) as Hnorm.
  rewrite DecimalPos.Unsigned.of_to in Hnorm.
  change (N.to_uint (Npos p)) with (Pos.to_uint p) in Hnorm.
  rewrite Hd in Hnorm. rewrite DecimalFacts.unorm_D0 in Hnorm.
  unfold Decimal.unorm in Hnorm.
  destruct (Decimal.nzhead d) as [|u|u|u|u|u|u|u|u|u|u] eqn:Hnz;
    try discriminate Hnorm.
  - injection Hnorm as Hnil. subst d.
    exact (DecimalPos.Unsigned.to_uint_nonzero p Hd).
  - exact (nzhead_not_D0 d u Hnz).
Qed.

Lemma digitChars_length (d : Decimal.uint) :
  length (digitChars d) = Decimal.nb_digits d.
Proof. induction d; simpl; congruence. Qed.

(** [decimal n] is a digit, not 0 unless it is alone, and the rest. *)
Lemma decimal_head (n : N) :
  exists c rest, decimal n = c :: rest /\ 0x30 <= c <= 0x39
                 /\ (c = 0x30 -> rest = []).
Proof.
  unfold decimal. destruct n as [|p].
  - exists 0x30, []. repeat split; reflexivity || lia.
  - change (N.to_uint (Npos p)) with (Pos.to_uint p).
    pose proof (to_uint_no_leading_zero p) as Hz.
    pose proof (DecimalPos.Unsigned.to_uint_nonnil p) as Hn.
    destruct (Pos.to_uint p) as [|d|d|d|d|d|d|d|d|d|d]; [congruence | ..];
      try (exfalso; exact (Hz d eq_refl));
      cbn [digitChars]; do 2 eexists; (split; [reflexivity|]); split; lia.
Qed.

Lemma parseNumber_decimal (n : N) (tail : jsstring) :
  endsNumber tail ->
  parseNumber (decimal n ++ tail) = Some (Number (Z.of_N n) 0, tail).
Proof.
  intros Hend.
  assert (Hstop : stopsDigits tail)
    by (destruct tail; [exact I | exact (proj1 Hend)]).
  assert (Htake : takeDigits 0 0 (decimal n ++ tail)
                  = (Z.of_N n, length (decimal n), tail)).
  { unfold decimal. rewrite takeDigits_uint by exact Hstop.
    rewrite digitChars_length.
    change (Pos.of_uint (N.to_uint n)) with (N.of_uint (N.to_uint n)).
    rewrite DecimalN.Unsigned.of_to. reflexivity. }
  destruct (decimal_head n) as (c & rest & Hdec & Hc & Hzero).
  unfold parseNumber.
  assert (Hminus : stripMinus (decimal n ++ tail) = (false, decimal n ++ tail)).
  { rewrite Hdec. cbn [app stripMinus].
    destruct (N.eqb_spec c 0x2D); [lia | reflexivity]. }
  rewrite Hminus. unfold parseInt. rewrite Htake.
  assert (Hlead : startsWithZero (decimal n ++ tail)
                  && Nat.ltb 1 (length (decimal n)) = false).
  { rewrite Hdec. cbn [app startsWithZero length].
    destruct (N.eqb_spec c 0x30) as [Hc0|Hc0]; [|reflexivity].
    rewrite (Hzero Hc0). reflexivity. }
  rewrite Hlead.
  assert (Hcount : Nat.eqb (length (decimal n)) 0 = false)
    by (rewrite Hdec; reflexivity).
  rewrite Hcount. cbn [mbind option_bind].
  assert (Hfrac : parseFraction (Z.of_N n) tail = Some (Z.of_N n, 0%Z, tail)).
  { destruct tail as [|t tail]; [reflexivity|].
    destruct Hend as (_ & Hdot & _). cbn [parseFraction].
    destruct (N.eqb_spec t 0x2E); [congruence | reflexivity]. }
  rewrite Hfrac. cbn [mbind option_bind].
  assert (Hexp : parseExponent tail = Some (0%Z, tail)).
  { destruct tail as [|t tail]; [reflexivity|].
    destruct Hend as (_ & _ & He & HE). cbn [parseExponent].
    destruct (N.eqb_spec t 0x65); [congruence|].
    destruct (N.eqb_spec t 0x45); [congruence | reflexivity]. }
  rewrite Hexp. reflexivity.
Qed.

(** *** Values and objects *)

Lemma quote_app (s tail : jsstring) :
  quote s ++ tail = 0x22 :: escape s ++ 0x22 :: tail.
Proof. unfold quote. simpl. rewrite <- app_assoc. reflexivity. Qed.

Lemma parseValue_quote (fuel : nat) (s tail : jsstring) :
  isString s -> parseValue (S fuel) (quote s ++ tail) = Some (String s, tail).
Proof.
  intros Hs. rewrite quote_app.
  change (parseValue (S fuel) (0x22 :: escape s ++ 0x22 :: tail))
    with ('(str, rest') ← parseChars [] (escape s ++ 0x22 :: tail);
          Some (String str, rest')).
  rewrite (parseChars_escape (length s)) by (exact Hs || lia).
  reflexivity.
Qed.

Lemma parseValue_digit (fuel : nat) (c : N) (tail : jsstring) :
  0x30 <= c <= 0x39 ->
  parseValue (S fuel) (c :: tail) = parseNumber (c :: tail).
Proof.
  intros Hc. cbn [parseValue skipSpace].
  unfold isJsonSpace, isDigit.
  repeat first
    [ progress cbn [orb andb]
    | match goal with
      | |- context [N.eqb ?a ?b] => destruct (N.eqb_spec a b); try lia
      | |- context [N.leb ?a ?b] => destruct (N.leb_spec a b); try lia
      end ];
    reflexivity.
Qed.

Lemma parsesAs_quote (s : jsstring) : isString s -> parsesAs (quote s) (String s).
Proof. intros Hs fuel sep rest _. apply parseValue_quote. exact Hs. Qed.

Lemma parsesAs_decimal (n : N) : parsesAs (decimal n) (Number (Z.of_N n) 0).
Proof.
  intros fuel sep rest Hsep.
  destruct (decimal_head n) as (c & tail & Hdec & Hc & _).
  rewrite <- (parseNumber_decimal n (sep :: rest)).
  - rewrite Hdec. cbn [app]. apply parseValue_digit. exact Hc.
  - destruct Hsep as [-> | ->]; repeat split; (reflexivity || discriminate).
Qed.

Lemma parseMembers_member (fuel : nat) (acc : list (jsstring * value))
  (key valueText tail : jsstring) :
  isString key ->
  parseMembers (S fuel) acc (quote key ++ 0x3A :: valueText ++ tail)
  = match parseValue fuel (valueText ++ tail) with
    | None => None
    | Some (v, rest3) =>
        match skipSpace rest3 with
        | 0x2C :: rest4 => parseMembers fuel ((key, v) :: acc) rest4
        | 0x7D :: rest4 => Some (Object (rev ((key, v) :: acc)), rest4)
        | _ => None
        end
    end.
Proof.
  intros Hkey. rewrite quote_app.
  change (parseMembers (S fuel) acc
            (0x22 :: escape key ++ 0x22 :: 0x3A :: valueText ++ tail))
    with (match parseChars [] (escape key ++ 0x22 :: 0x3A :: valueText ++ tail) with
          | None => None
          | Some (key, rest1) =>
              match skipSpace rest1 with
              | 0x3A :: rest2 =>
                  match parseValue fuel rest2 with
                  | None => None
                  | Some (v, rest3) =>
                      match skipSpace rest3 with
                      | 0x2C :: rest4 => parseMembers fuel ((key, v) :: acc) rest4
                      | 0x7D :: rest4 => Some (Object (rev ((key, v) :: acc)), rest4)
                      | _ => None
                      end
                  end
              | _ => None
              end
          end).
  rewrite (parseChars_escape (length key)) by (exact Hkey || lia).
  reflexivity.
Qed.

(** The members of an object are read back one by one. *)
Lemma parseMembers_all (members : list (jsstring * jsstring * value)) :
  members <> [] ->
  Forall (fun m => isString m.1.1 /\ parsesAs m.1.2 m.2) members ->
  forall fuel acc tail,
    parseMembers (length members + S fuel) acc
      (membersText (List.map fst members) ++ tail)
    = Some (Object (rev acc ++ List.map (fun m => (m.1.1, m.2)) members), tail).
Proof.
  induction members as [|[[key valueText] v] members IH]; [congruence|].
  intros _ Hall fuel acc tail.
  apply Forall_cons in Hall as [[Hkey Hv] Hall]. simpl in Hkey, Hv.
  cbn [List.map fst membersText length Nat.add].
  destruct members as [|m' members'].
  - cbn [List.map]. rewrite <- !app_assoc. cbn [app].
    rewrite <- app_assoc.
    rewrite parseMembers_member by exact Hkey.
    cbn [app length Nat.add]. rewrite (Hv fuel 0x7D tail (or_intror eq_refl)).
    reflexivity.
  - set (rest := m' :: members') in *.
    assert (Hrest : rest <> []) by discriminate.
    replace (match List.map fst rest with
             | [] => [0x7D]
             | _ :: _ => 0x2C :: membersText (List.map fst rest)
             end) with (0x2C :: membersText (List.map fst rest))
      by reflexivity.
    rewrite <- !app_assoc. cbn [app]. rewrite <- app_assoc. cbn [app].
    rewrite parseMembers_member by exact Hkey.
    change (length rest + S fuel)%nat with (S (length members' + S fuel)).
    rewrite (Hv _ 0x2C _ (or_introl eq_refl)).
    change (skipSpace (0x2C :: membersText (List.map fst rest) ++ tail))
      with (0x2C :: membersText (List.map fst rest) ++ tail).
    cbv iota beta.
    change (S (length members' + S fuel)) with (length rest + S fuel)%nat.
    rewrite (IH Hrest Hall).
    simpl. rewrite <- app_assoc. reflexivity.
Qed.

Lemma membersText_length (members : list (jsstring * jsstring)) :
  (2 * length members <= length (membersText members))%nat.
Proof.
  induction members as [|[key valueText] members IH]; [simpl; lia|].
  cbn [membersText]. unfold quote. rewrite !length_app. cbn [length].
  rewrite !length_app.
  destruct members; cbn [length] in *; lia.
Qed.

Lemma JSON_parse_object (members : list (jsstring * jsstring * value)) :
  members <> [] ->
  Forall (fun m => isString m.1.1 /\ parsesAs m.1.2 m.2) members ->
  JSON_parse (0x7B :: membersText (List.map fst members))
  = Return (Object (List.map (fun m => (m.1.1, m.2)) members)).
Proof.
  intros Hne Hall. unfold JSON_parse. cbn [length].
  pose proof (membersText_length (List.map fst members)) as Hlen.
  rewrite length_map in Hlen.
  set (mt := membersText (List.map fst members)) in *.
  assert (Hhead : exists tail, mt = 0x22 :: tail).
  { unfold mt. destruct members as [|[[key valueText] v] members]; [congruence|].
    cbn [List.map fst membersText]. rewrite quote_app. eexists. reflexivity. }
  destruct Hhead as (tail & Hmt).
  assert (Hfuel : exists fuel, length mt = (length members + fuel)%nat)
    by (exists (length mt - length members)%nat; lia).
  destruct Hfuel as (fuel & Hfuel).
  assert (Hstep : parseValue (S (S (length mt))) (0x7B :: mt)
                  = parseMembers (length members + S fuel) [] (mt ++ [])).
  { rewrite app_nil_r, Hfuel, Hmt.
    replace (S (length members + fuel)) with (length members + S fuel)%nat by lia.
    reflexivity. }
  rewrite Hstep. unfold mt. rewrite (parseMembers_all members Hne Hall).
  reflexivity.
Qed.

Lemma JSON_stringify_fields (m : WebRTC.Message) :
  WebRTC.JSON_stringify m = 0x7B :: membersText (List.map fst (fields m)).
Proof.
  destruct m; unfold WebRTC.JSON_stringify, WebRTC.member;
    cbn [fields List.map fst textField stampField membersText];
    rewrite <- ?app_assoc; reflexivity.
Qed.

Lemma literal_isString (s : string) :
  forallb (fun c => c <? 65536) (js s) = true -> isString (js s).
Proof.
  intros Hall. unfold isString. apply Forall_forall. intros c Hc.
  apply list_elem_of_In in Hc.
  rewrite forallb_forall in Hall. apply N.ltb_lt. exact (Hall c Hc).
Qed.

(** [JSON.parse] reads back the object [JSON.stringify] was given. *)
Lemma JSON_parse_stringify (m : WebRTC.Message) :
  validMessage m ->
  JSON_parse (WebRTC.JSON_stringify m) = Return (WebRTC.toValue m).
Proof.
  intros Hvalid. rewrite JSON_stringify_fields.
  assert (Htext : forall key s,
            forallb (fun c => c <? 65536) (js key) = true -> isString s ->
            isString (textField key s).1.1
            /\ parsesAs (textField key s).1.2 (textField key s).2).
  { intros key s Hkey Hs. split; [apply literal_isString; exact Hkey|].
    apply parsesAs_quote. exact Hs. }
  assert (Hstamp : forall t, isString (stampField t).1.1
                             /\ parsesAs (stampField t).1.2 (stampField t).2).
  { intros t. split; [apply literal_isString; reflexivity | apply parsesAs_decimal]. }
  assert (Hlit : forall s, forallb (fun c => c <? 65536) (js s) = true ->
                           isString (js s))
    by exact literal_isString.
  destruct m as [audio t | transcript language t
                | original translated sourceLang targetLang t];
    cbn [validMessage] in Hvalid.
  - rewrite JSON_parse_object; [reflexivity | discriminate |].
    cbn [fields].
    repeat (apply Forall_cons; split); [| | |constructor].
    + apply Htext; [reflexivity | apply Hlit; reflexivity].
    + apply Htext; [reflexivity | exact Hvalid].
    + apply Hstamp.
  - destruct Hvalid as (Ht & Hl).
    rewrite JSON_parse_object; [reflexivity | discriminate |].
    cbn [fields].
    repeat (apply Forall_cons; split); [| | | |constructor].
    + apply Htext; [reflexivity | apply Hlit; reflexivity].
    + apply Htext; [reflexivity | exact Ht].
    + apply Htext; [reflexivity | exact Hl].
    + apply Hstamp.
  - destruct Hvalid as (Ho & Ht & Hs & Hg).
    rewrite JSON_parse_object; [reflexivity | discriminate |].
    cbn [fields].
    repeat (apply Forall_cons; split); [| | | | | |constructor].
    + apply Htext; [reflexivity | apply Hlit; reflexivity].
    + apply Htext; [reflexivity | exact Ho].
    + apply Htext; [reflexivity | exact Ht].
    + apply Htext; [reflexivity | exact Hs].
    + apply Htext; [reflexivity | exact Hg].
    + apply Hstamp.
Qed.

End JSONFacts.

(** ** [TextEncoder] and [TextDecoder] *)

Module TextFacts.
Import Codec Closed.

(** Bits that do not overlap add up. *)
Lemma lor_add (a x : N) (k : N) :
  x < 2 ^ k -> N.lor (a * 2 ^ k) x = a * 2 ^ k + x.
Proof.
  intros Hx.
  assert (Hdisj : N.land (a * 2 ^ k) x = 0).
  { apply N.bits_inj. intros n. rewrite N.land_spec, N.bits_0.
    destruct (N.lt_ge_cases n k) as [Hlow|Hhigh].
    - rewrite N.mul_pow2_bits_low by exact Hlow. reflexivity.
    - rewrite <- (N.mod_small x (2 ^ k)) by exact Hx.
      rewrite N.mod_pow2_bits_high by exact Hhigh. apply andb_false_r. }
  rewrite <- N.lxor_lor by exact Hdisj.
  symmetry. apply N.add_nocarry_lxor. exact Hdisj.
Qed.

Lemma lor_shiftl6 (acc x : N) : x < 64 -> N.lor (N.shiftl acc 6) x = acc * 64 + x.
Proof.
  intros Hx. rewrite N.shiftl_mul_pow2. change 64 with (2 ^ 6).
  apply lor_add. exact Hx.
Qed.

Lemma lor_const (K j x : N) (a : N) :
  K = a * 2 ^ j -> x < 2 ^ j -> N.lor K x = K + x.
Proof. intros -> Hx. apply lor_add. exact Hx. Qed.

Lemma land_low (x : N) (j : N) (mask : N) :
  mask = N.ones j -> N.land x mask = x mod 2 ^ j.
Proof. intros ->. apply N.land_ones. Qed.

Lemma utf8_run_cons (st : utf8_state) (b : N) (bs : list N) :
  utf8_run st (b :: bs) = (utf8_step st b).2 ++ utf8_run (utf8_step st b).1 bs.
Proof. simpl. destruct (utf8_step st b). reflexivity. Qed.

Lemma utf8_lead_ascii (b : N) : b < 0x80 -> utf8_lead b = (utf8_init, [b]).
Proof.
  intros Hb. unfold utf8_lead. destruct (N.leb_spec b 0x7F); [reflexivity | lia].
Qed.

Ltac tests :=
  repeat first
    [ progress cbn [orb andb negb]
    | match goal with
      | |- context [N.eqb ?a ?b] => destruct (N.eqb_spec a b); try lia
      | |- context [N.leb ?a ?b] => destruct (N.leb_spec a b); try lia
      | |- context [N.ltb ?a ?b] => destruct (N.ltb_spec a b); try lia
      end ].

Lemma utf8_lead_2 (b : N) :
  0xC2 <= b <= 0xDF ->
  utf8_lead b = (Utf8State (N.land b 0x1F) 1 0x80 0xBF, []).
Proof. intros Hb. unfold utf8_lead. tests; reflexivity. Qed.

Lemma utf8_lead_3 (b : N) :
  0xE0 <= b <= 0xEF ->
  utf8_lead b = (Utf8State (N.land b 0xF) 2
                   (if b =? 0xE0 then 0xA0 else 0x80)
                   (if b =? 0xED then 0x9F else 0xBF), []).
Proof.
  intros Hb. unfold utf8_lead.
  destruct (N.leb_spec b 0x7F); [lia|].
  destruct (N.leb_spec 0xC2 b); [|lia].
  destruct (N.leb_spec b 0xDF); [lia|].
  destruct (N.leb_spec 0xE0 b); [|lia].
  destruct (N.leb_spec b 0xEF); [|lia]. reflexivity.
Qed.

Lemma utf8_lead_4 (b : N) :
  0xF0 <= b <= 0xF4 ->
  utf8_lead b = (Utf8State (N.land b 0x7) 3
                   (if b =? 0xF0 then 0x90 else 0x80)
                   (if b =? 0xF4 then 0x8F else 0xBF), []).
Proof.
  intros Hb. unfold utf8_lead.
  destruct (N.leb_spec b 0x7F); [lia|].
  destruct (N.leb_spec 0xC2 b); [|lia].
  destruct (N.leb_spec b 0xDF); [lia|].
  destruct (N.leb_spec 0xE0 b); [|lia].
  destruct (N.leb_spec b 0xEF); [lia|].
  destruct (N.leb_spec 0xF0 b); [|lia].
  destruct (N.leb_spec b 0xF4); [|lia]. reflexivity.
Qed.

(** A continuation byte [0x80 + x] within the admitted range. *)
Lemma utf8_step_cont (cp lower upper x : N) (k : nat) :
  x < 64 -> lower <= 0x80 + x <= upper ->
  utf8_step (Utf8State cp (S k) lower upper) (0x80 + x)
  = match k with
    | O => (utf8_init, [cp * 64 + x])
    | S _ => (Utf8State (cp * 64 + x) k 0x80 0xBF, [])
    end.
Proof.
  intros Hx Hr. unfold utf8_step. cbn [u8_needed u8_lower u8_upper u8_cp].
  destruct (N.leb_spec lower (0x80 + x)); [|lia].
  destruct (N.leb_spec (0x80 + x) upper); [|lia].
  cbn [andb].
  assert (Hland : N.land (0x80 + x) 0x3F = x).
  { rewrite (land_low _ 6) by reflexivity. change (2 ^ 6) with 64. divmod. }
  rewrite Hland, lor_shiftl6 by exact Hx. reflexivity.
Qed.

(** The bytes of a code point, in arithmetic. *)
Lemma utf8_of_cp_arith (cp : N) :
  cp < 0x110000 ->
  utf8_of_cp cp
  = if cp <? 0x80 then [cp]
    else if cp <? 0x800 then [0xC0 + cp / 64; 0x80 + cp mod 64]
    else if cp <? 0x10000 then
      [0xE0 + cp / 4096; 0x80 + (cp / 64) mod 64; 0x80 + cp mod 64]
    else [0xF0 + cp / 262144; 0x80 + (cp / 4096) mod 64;
          0x80 + (cp / 64) mod 64; 0x80 + cp mod 64].
Proof.
  intros Hcp. unfold utf8_of_cp.
  rewrite !N.shiftr_div_pow2.
  rewrite !(land_low _ 6 0x3F) by reflexivity.
  change (2 ^ 6) with 64. change (2 ^ 12) with 4096. change (2 ^ 18) with 262144.
  rewrite !(lor_const 0x80 6 _ 2) by (reflexivity || (change (2 ^ 6) with 64; divmod)).
  destruct (N.ltb_spec cp 0x80); [reflexivity|].
  destruct (N.ltb_spec cp 0x800).
  { rewrite (lor_const 0xC0 5 _ 6) by (reflexivity || (change (2 ^ 5) with 32; divmod)).
    reflexivity. }
  destruct (N.ltb_spec cp 0x10000).
  { rewrite (lor_const 0xE0 4 _ 14) by (reflexivity || (change (2 ^ 4) with 16; divmod)).
    reflexivity. }
  rewrite (lor_const 0xF0 3 _ 30) by (reflexivity || (change (2 ^ 3) with 8; divmod)).
  reflexivity.
Qed.

Lemma isScalar_spec (cp : N) :
  isScalar cp = true <-> cp < 0xD800 \/ (0xDFFF < cp /\ cp < 0x110000).
Proof.
  unfold isScalar. rewrite orb_true_iff, andb_true_iff, !N.ltb_lt. tauto.
Qed.

Lemma utf8_step_init (b : N) : utf8_step utf8_init b = utf8_lead b.
Proof. reflexivity. Qed.

(** One scalar value through the encoder and the decoder. *)
Lemma utf8_scalar (cp : N) (rest : list N) :
  isScalar cp = true ->
  utf8_run utf8_init (utf8_of_cp cp ++ rest) = cp :: utf8_run utf8_init rest
  /\ Forall is_byte (utf8_of_cp cp).
Proof.
  intros Hs. apply isScalar_spec in Hs.
  assert (Hcp : cp < 0x110000) by lia.
  rewrite utf8_of_cp_arith by exact Hcp.
  destruct (N.ltb_spec cp 0x80) as [H1|H1].
  { split.
    - cbn [app]. rewrite utf8_run_cons, utf8_step_init, utf8_lead_ascii by exact H1.
      reflexivity.
    - repeat constructor. unfold is_byte. lia. }
  destruct (N.ltb_spec cp 0x800) as [H2|H2].
  { split.
    - cbn [app]. rewrite utf8_run_cons, utf8_step_init, utf8_lead_2 by divmod.
      cbn [fst snd app].
      rewrite utf8_run_cons, utf8_step_cont by divmod.
      cbn [fst snd app]. f_equal.
      rewrite (land_low _ 5 0x1F) by reflexivity. change (2 ^ 5) with 32. divmod.
    - repeat constructor; unfold is_byte; divmod. }
  destruct (N.ltb_spec cp 0x10000) as [H3|H3].
  { split.
    - cbn [app]. rewrite utf8_run_cons, utf8_step_init, utf8_lead_3 by divmod.
      cbn [fst snd app].
      rewrite utf8_run_cons, utf8_step_cont.
      2: divmod.
      2: { destruct (N.eqb_spec (0xE0 + cp / 4096) 0xE0);
           destruct (N.eqb_spec (0xE0 + cp / 4096) 0xED); divmod. }
      cbn [fst snd app].
      rewrite utf8_run_cons, utf8_step_cont by divmod.
      cbn [fst snd app]. f_equal.
      rewrite (land_low _ 4 0xF) by reflexivity. change (2 ^ 4) with 16. divmod.
    - repeat constructor; unfold is_byte; divmod. }
  split.
  - cbn [app]. rewrite utf8_run_cons, utf8_step_init, utf8_lead_4 by divmod.
    cbn [fst snd app].
    rewrite utf8_run_cons, utf8_step_cont.
    2: divmod.
    2: { destruct (N.eqb_spec (0xF0 + cp / 262144) 0xF0);
         destruct (N.eqb_spec (0xF0 + cp / 262144) 0xF4); divmod. }
    cbn [fst snd app].
    rewrite utf8_run_cons, utf8_step_cont by divmod.
    cbn [fst snd app].
    rewrite utf8_run_cons, utf8_step_cont by divmod.
    cbn [fst snd app]. f_equal.
    rewrite (land_low _ 3 0x7) by reflexivity. change (2 ^ 3) with 8. divmod.
  - repeat constructor; unfold is_byte; divmod.
Qed.

Lemma scalar_not_surrogate (c : N) :
  isScalar c = true -> isHighSurrogate c = false /\ isLowSurrogate c = false.
Proof.
  intros Hs. apply isScalar_spec in Hs.
  unfold isHighSurrogate, isLowSurrogate.
  split; apply andb_false_iff.
  - destruct Hs as [Hs|Hs]; [left | right]; apply N.leb_gt; lia.
  - destruct Hs as [Hs|Hs]; [left | right]; apply N.leb_gt; lia.
Qed.

Lemma surrogate_range (hi lo : N) :
  isHighSurrogate hi = true -> isLowSurrogate lo = true ->
  0xD800 <= hi <= 0xDBFF /\ 0xDC00 <= lo <= 0xDFFF.
Proof.
  unfold isHighSurrogate, isLowSurrogate. intros Hh Hl.
  apply andb_true_iff in Hh, Hl. destruct Hh as [H1 H2], Hl as [H3 H4].
  apply N.leb_le in H1, H2, H3, H4. lia.
Qed.

Lemma utf16_of_pair (hi lo : N) :
  0xD800 <= hi <= 0xDBFF -> 0xDC00 <= lo <= 0xDFFF ->
  utf16_of_cp (0x10000 + (hi - 0xD800) * 0x400 + (lo - 0xDC00)) = [hi; lo].
Proof.
  intros Hh Hl. unfold utf16_of_cp.
  destruct (N.ltb_spec (0x10000 + (hi - 0xD800) * 0x400 + (lo - 0xDC00)) 0x10000);
    [lia|].
  cbv zeta. rewrite N.shiftr_div_pow2, (land_low _ 10 0x3FF) by reflexivity.
  change (2 ^ 10) with 1024.
  f_equal; [divmod | f_equal; divmod].
Qed.

(** The code units of a well-formed string come back from the bytes of
    its scalar values, and these are bytes. *)
Lemma utf8_round_trip (text : jsstring) :
  WellFormed text ->
  concat (List.map utf16_of_cp
            (utf8_run utf8_init (concat (List.map utf8_of_cp (codePoints text)))))
  = text
  /\ Forall is_byte (concat (List.map utf8_of_cp (codePoints text))).
Proof.
  induction 1 as [|c s Hc Hlt _ [IH IHb]|hi lo s Hh Hl _ [IH IHb]].
  - split; [reflexivity | constructor].
  - destruct (scalar_not_surrogate c Hc) as [Hnh Hnl].
    cbn [codePoints]. rewrite Hnh, Hnl. cbn [List.map concat].
    destruct (utf8_scalar c (concat (List.map utf8_of_cp (codePoints s))) Hc)
      as [Hrun Hbytes].
    rewrite Hrun. cbn [List.map concat]. rewrite IH. split.
    + unfold utf16_of_cp. destruct (N.ltb_spec c 0x10000); [reflexivity | lia].
    + apply Forall_app. split; assumption.
  - destruct (surrogate_range hi lo Hh Hl) as [Hhr Hlr].
    cbn [codePoints]. rewrite Hh, Hl. cbn [List.map concat].
    set (cp := 0x10000 + (hi - 0xD800) * 0x400 + (lo - 0xDC00)).
    assert (Hs : isScalar cp = true) by (apply isScalar_spec; unfold cp; lia).
    destruct (utf8_scalar cp (concat (List.map utf8_of_cp (codePoints s))) Hs)
      as [Hrun Hbytes].
    rewrite Hrun. cbn [List.map concat]. rewrite IH. split.
    + unfold cp. rewrite utf16_of_pair by assumption. reflexivity.
    + apply Forall_app. split; assumption.
Qed.

Lemma to_N_toUint8 (bs : list N) :
  Forall is_byte bs -> List.map Byte.to_N (List.map toUint8 bs) = bs.
Proof.
  induction 1 as [|b bs Hb _ IH]; [reflexivity|].
  cbn [List.map]. rewrite IH. f_equal.
  unfold toUint8, is_byte in *. rewrite N.mod_small by exact Hb.
  destruct (Byte.of_N b) as [x|] eqn:Hx.
  - apply Byte.to_of_N in Hx. exact Hx.
  - apply Byte.of_N_None_iff in Hx. lia.
Qed.

Lemma strip_bom_ascii (c : N) (bs : list N) :
  c < 0x80 -> strip_bom (c :: bs) = c :: bs.
Proof.
  intros Hc. unfold strip_bom.
  destruct bs as [|b [|b' bs]]; try reflexivity.
  destruct (N.eqb_spec c 0xEF); [lia | reflexivity].
Qed.

(** A well-formed text that begins with an ASCII character comes back
    from its bytes. *)
Lemma decode_encode (c : N) (s : jsstring) :
  c < 0x80 -> WellFormed (c :: s) ->
  TextDecoder_decode (TextEncoder_encode (c :: s)) = c :: s.
Proof.
  intros Hc Hwf.
  destruct (utf8_round_trip (c :: s) Hwf) as [Hrt Hbytes].
  unfold TextDecoder_decode, TextEncoder_encode.
  rewrite to_N_toUint8 by exact Hbytes.
  assert (Hhead : exists bs, concat (List.map utf8_of_cp (codePoints (c :: s))) = c :: bs).
  { cbn [codePoints].
    assert (Hnh : isHighSurrogate c = false)
      by (unfold isHighSurrogate; apply andb_false_iff; left; apply N.leb_gt; lia).
    assert (Hnl : isLowSurrogate c = false)
      by (unfold isLowSurrogate; apply andb_false_iff; left; apply N.leb_gt; lia).
    rewrite Hnh, Hnl. cbn [List.map concat].
    unfold utf8_of_cp at 1. destruct (N.ltb_spec c 0x80); [|lia].
    eexists. reflexivity. }
  destruct Hhead as (bs & Hbs).
  rewrite Hbs in *. rewrite strip_bom_ascii by exact Hc. exact Hrt.
Qed.

(** *** The text of a message is well formed *)

Lemma wf_ascii (c : N) (s : jsstring) :
  c < 0x80 -> WellFormed s -> WellFormed (c :: s).
Proof.
  intros Hc Hs. apply wf_unit; [|lia | exact Hs].
  apply isScalar_spec. lia.
Qed.

Lemma wf_app (a b : jsstring) :
  WellFormed a -> WellFormed b -> WellFormed (a ++ b).
Proof.
  induction 1; intros Hb; cbn [app]; [exact Hb | apply wf_unit | apply wf_pair]; auto.
Qed.

Lemma hexDigit_ascii (n : N) : n < 16 -> hexDigit n < 0x80.
Proof. intros Hn. unfold hexDigit. destruct (N.ltb_spec n 10); lia. Qed.

Lemma wf_unicodeEscape (c : N) (s : jsstring) :
  WellFormed s -> WellFormed (unicodeEscape c ++ s).
Proof.
  intros Hs. unfold unicodeEscape. cbn [app].
  repeat (apply wf_ascii; [first [lia | apply hexDigit_ascii; divmod]|]).
  exact Hs.
Qed.

Lemma wf_escape (n : nat) :
  forall s, (length s <= n)%nat -> isString s -> WellFormed (escape s).
Proof.
  induction n as [|n IH]; intros s Hlen Hs.
  { destruct s; [constructor | simpl in Hlen; lia]. }
  destruct s as [|c s]; [constructor|].
  apply Forall_cons in Hs as [Hc Hs]. unfold isUnit16 in Hc. simpl in Hlen.
  assert (Hrest : WellFormed (escape s)) by (apply IH; [lia | exact Hs]).
  cbn [escape].
  destruct (N.eqb_spec c 0x08); [repeat (apply wf_ascii; [lia|]); exact Hrest|].
  destruct (N.eqb_spec c 0x09); [repeat (apply wf_ascii; [lia|]); exact Hrest|].
  destruct (N.eqb_spec c 0x0A); [repeat (apply wf_ascii; [lia|]); exact Hrest|].
  destruct (N.eqb_spec c 0x0C); [repeat (apply wf_ascii; [lia|]); exact Hrest|].
  destruct (N.eqb_spec c 0x0D); [repeat (apply wf_ascii; [lia|]); exact Hrest|].
  destruct (N.ltb_spec c 0x20); [apply wf_unicodeEscape; exact Hrest|].
  destruct (N.eqb_spec c 0x22); [repeat (apply wf_ascii; [lia|]); exact Hrest|].
  destruct (N.eqb_spec c 0x5C); [repeat (apply wf_ascii; [lia|]); exact Hrest|].
  destruct (isHighSurrogate c) eqn:Hh.
  - destruct s as [|lo s'].
    + rewrite <- (app_nil_r (unicodeEscape c)). apply wf_unicodeEscape. constructor.
    + destruct (isLowSurrogate lo) eqn:Hl.
      * apply wf_pair; [exact Hh | exact Hl |].
        apply Forall_cons in Hs as [_ Hs']. simpl in Hlen.
        apply IH; [lia | exact Hs'].
      * apply wf_unicodeEscape. exact Hrest.
  - destruct (isLowSurrogate c) eqn:Hl.
    + apply wf_unicodeEscape. exact Hrest.
    + apply wf_unit; [|exact Hc | exact Hrest].
      apply isScalar_spec.
      unfold isHighSurrogate in Hh. unfold isLowSurrogate in Hl.
      apply andb_false_iff in Hh, Hl.
      destruct Hh as [Hh|Hh], Hl as [Hl|Hl]; apply N.leb_gt in Hh, Hl; lia.
Qed.

Lemma wf_quote (s tail : jsstring) :
  isString s -> WellFormed tail -> WellFormed (quote s ++ tail).
Proof.
  intros Hs Ht. unfold quote. cbn [app]. apply wf_ascii; [lia|].
  rewrite <- app_assoc. apply wf_app; [apply (wf_escape (length s)); [lia | exact Hs]|].
  cbn [app]. apply wf_ascii; [lia | exact Ht].
Qed.

Lemma wf_digitChars (d : Decimal.uint) (tail : jsstring) :
  WellFormed tail -> WellFormed (digitChars d ++ tail).
Proof.
  intros Ht. induction d; cbn [digitChars app];
    [exact Ht | apply wf_ascii; [lia | assumption] ..].
Qed.

Lemma wf_membersText (members : list (jsstring * jsstring)) :
  Forall (fun m => isString m.1 /\ valueTextOk m.2) members ->
  WellFormed (membersText members).
Proof.
  induction 1 as [|[key valueText] members [Hkey Hv] _ IH]; [constructor|].
  cbn [membersText]. simpl in Hkey, Hv.
  apply wf_quote; [exact Hkey|]. apply wf_ascii; [lia|].
  apply Hv. destruct members.
  - apply wf_ascii; [lia | constructor].
  - apply wf_ascii; [lia | exact IH].
Qed.

Lemma wf_stringify (m : WebRTC.Message) :
  validMessage m -> WellFormed (WebRTC.JSON_stringify m).
Proof.
  intros Hvalid. rewrite JSONFacts.JSON_stringify_fields.
  apply wf_ascii; [lia|]. apply wf_membersText.
  assert (Htext : forall key s,
            forallb (fun c => c <? 65536) (js key) = true -> isString s ->
            isString (textField key s).1.1 /\ valueTextOk (textField key s).1.2).
  { intros key s Hkey Hs. split; [apply JSONFacts.literal_isString; exact Hkey|].
    intros tail Ht. apply wf_quote; assumption. }
  assert (Hstamp : forall t, isString (stampField t).1.1
                             /\ valueTextOk (stampField t).1.2).
  { intros t. split; [apply JSONFacts.literal_isString; reflexivity|].
    intros tail Ht. apply wf_digitChars. exact Ht. }
  assert (Hlit : forall s, forallb (fun c => c <? 65536) (js s) = true ->
                           isString (js s))
    by exact JSONFacts.literal_isString.
  destruct m as [audio t | transcript language t
                | original translated sourceLang targetLang t];
    cbn [validMessage] in Hvalid; cbn [fields List.map].
  - repeat (apply Forall_cons; split); [| | |constructor].
    + apply (Htext "type"%string); [reflexivity | apply Hlit; reflexivity].
    + apply (Htext "audio"%string); [reflexivity | exact Hvalid].
    + apply Hstamp.
  - destruct Hvalid as (Ht & Hl).
    repeat (apply Forall_cons; split); [| | | |constructor].
    + apply (Htext "type"%string); [reflexivity | apply Hlit; reflexivity].
    + apply (Htext "text"%string); [reflexivity | exact Ht].
    + apply (Htext "language"%string); [reflexivity | exact Hl].
    + apply Hstamp.
  - destruct Hvalid as (Ho & Ht & Hs & Hg).
    repeat (apply Forall_cons; split); [| | | | | |constructor].
    + apply (Htext "type"%string); [reflexivity | apply Hlit; reflexivity].
    + apply (Htext "original"%string); [reflexivity | exact Ho].
    + apply (Htext "translated"%string); [reflexivity | exact Ht].
    + apply (Htext "sourceLang"%string); [reflexivity | exact Hs].
    + apply (Htext "targetLang"%string); [reflexivity | exact Hg].
    + apply Hstamp.
Qed.

(** What [handleData] parses from the bytes [sendMessage] hands over is
    the object that was sent. *)
Lemma parse_decode_encode (m : WebRTC.Message) :
  validMessage m ->
  JSON_parse (TextDecoder_decode (WebRTC.encode m)) = Return (WebRTC.toValue m).
Proof.
  intros Hvalid. unfold WebRTC.encode.
  pose proof (wf_stringify m Hvalid) as Hwf.
  pose proof (JSONFacts.JSON_parse_stringify m Hvalid) as Hparse.
  rewrite JSONFacts.JSON_stringify_fields in *.
  rewrite decode_encode by (lia || exact Hwf). exact Hparse.
Qed.

End TextFacts.

(** ** The peer channel *)

(** C7. While the service is not connected, by its flag or for want of a
    peer object, each of the sends returns at once: nothing is thrown,
    nothing is handed to the transport or logged, the service is as it
    was, and [sendAudio] leaves no conversion behind whose result would
    be sent later. *)
Theorem send_while_not_connected_is_dropped (s : WebRTC.Service) :
  WebRTC.isConnected s = false \/ WebRTC.peer s = None ->
  (forall message, WebRTC.sendMessage message s = WebRTC.quiet s)
  /\ (forall audioData, WebRTC.sendAudio audioData s = (WebRTC.quiet s, None))
  /\ (forall transcript language now,
        WebRTC.sendTranscript transcript language now s = WebRTC.quiet s)
  /\ (forall original translated sourceLang targetLang now,
        WebRTC.sendTranslation original translated sourceLang targetLang now s
        = WebRTC.quiet s)
  /\ WebRTC.after (WebRTC.quiet s) = s
  /\ WebRTC.effects (WebRTC.quiet s) = []
  /\ WebRTC.threw (WebRTC.quiet s) = false.
Proof.
  intros Hnot.
  assert (Hguard : WebRTC.notConnected s = true).
  { unfold WebRTC.notConnected. destruct Hnot as [-> | ->]; [reflexivity|].
    apply orb_true_r. }
  unfold WebRTC.sendMessage, WebRTC.sendAudio, WebRTC.sendTranscript,
    WebRTC.sendTranslation.
  rewrite Hguard. repeat split; reflexivity.
Qed.

(** The hypothesis of C7 holds for a service that was never connected. *)
Lemma send_before_connecting :
  (WebRTC.isConnected WebRTC.constructor = false
   \/ WebRTC.peer WebRTC.constructor = None)
  /\ WebRTC.sendTranscript (js "hola") (js "es") 1700000000000 WebRTC.constructor
     = WebRTC.quiet WebRTC.constructor.
Proof.
  assert (Hnot : WebRTC.isConnected WebRTC.constructor = false
                 \/ WebRTC.peer WebRTC.constructor = None)
    by (left; reflexivity).
  split; [exact Hnot|].
  exact (proj1 (proj2 (proj2 (send_while_not_connected_is_dropped
                                 WebRTC.constructor Hnot)))
           (js "hola") (js "es") 1700000000000).
Defined.

(** ** Messages sent and received

    For each of the three types, the bytes of a message are parsed by
    [handleData] into the object that was sent, whatever code units its
    strings hold. Of an audio message the service then hands the base64
    text to the audio callback, if one is installed; a transcript or a
    translation it discards. The bytes of a blob whose media type holds
    no comma come back from its data URL through either of the two
    decoders. *)
Lemma envelope_round_trip (m : WebRTC.Message) (s : WebRTC.Service) :
  Closed.validMessage m ->
  Codec.JSON_parse (TextDecoder_decode (WebRTC.encode m)) = Return (WebRTC.toValue m)
  /\ WebRTC.handleData (WebRTC.encode m) s
     = match m with
       | WebRTC.AudioMessage audio _ =>
           if WebRTC.onAudioData s
           then {| WebRTC.after := s;
                   WebRTC.effects :=
                     [WebRTC.AudioDataCallback (Some (Codec.String audio))];
                   WebRTC.threw := false |}
           else WebRTC.quiet s
       | _ => WebRTC.quiet s
       end
  /\ (forall blob : WebRTC.Blob,
        Forall (fun c => c <> 0x2C) (WebRTC.blobType blob) ->
        WebRTC.convertBase64ToAudio (WebRTC.readAsDataURL blob)
        = Return {| WebRTC.blobType := js "audio/wav";
                    WebRTC.blobBytes := WebRTC.blobBytes blob |}
        /\ WebRTC.base64ToBlob (WebRTC.blobToBase64 blob)
           = Return {| WebRTC.blobType := js "audio/webm";
                       WebRTC.blobBytes := WebRTC.blobBytes blob |}).
Proof.
  intros Hvalid.
  pose proof (TextFacts.parse_decode_encode m Hvalid) as Hparse.
  split; [exact Hparse|]. split.
  - unfold WebRTC.handleData. rewrite Hparse.
    destruct m; vm_compute; reflexivity.
  - intros blob Htype. unfold WebRTC.convertBase64ToAudio, WebRTC.base64ToBlob,
      WebRTC.blobToBase64.
    rewrite (Base64Facts.decodeDataURL_readAsDataURL blob Htype).
    split; reflexivity.
Qed.

(** The audio message of the three bytes 0x00, 0xFF, 0x10: their base64
    text is [AP8Q], the callback receives the data URL that was sent, and
    the bytes come back from it; so they do from the data URL of a blob
    without a media type. *)
Lemma envelope_round_trip_three_bytes :
  let url := WebRTC.readAsDataURL Samples.threeBytes in
  Closed.validMessage (WebRTC.AudioMessage url 1700000000000)
  /\ url = js "data:audio/webm;codecs=opus;base64,AP8Q"
  /\ WebRTC.effects
       (WebRTC.handleData (WebRTC.encode (WebRTC.AudioMessage url 1700000000000))
          Samples.connected)
     = [WebRTC.AudioDataCallback (Some (Codec.String url))]
  /\ WebRTC.convertBase64ToAudio url
     = Return {| WebRTC.blobType := js "audio/wav";
                 WebRTC.blobBytes := [Byte.x00; Byte.xff; Byte.x10] |}
  /\ WebRTC.readAsDataURL Samples.untyped
     = js "data:application/octet-stream;base64,AP8Q"
  /\ WebRTC.convertBase64ToAudio (WebRTC.readAsDataURL Samples.untyped)
     = Return {| WebRTC.blobType := js "audio/wav";
                 WebRTC.blobBytes := [Byte.x00; Byte.xff; Byte.x10] |}.
Proof.
  intros url.
  assert (Hvalid : Closed.validMessage (WebRTC.AudioMessage url 1700000000000)).
  { unfold Closed.validMessage, Closed.isString. apply List.Forall_forall.
    intros c Hc. vm_compute in Hc.
    repeat (destruct Hc as [<- | Hc]; [reflexivity|]). destruct Hc. }
  destruct (envelope_round_trip (WebRTC.AudioMessage url 1700000000000)
              Samples.connected Hvalid) as (_ & Hhandle & Hblob).
  split; [exact Hvalid|]. split; [vm_compute; reflexivity|]. split; [|split; [|split]].
  - rewrite Hhandle. reflexivity.
  - apply (Hblob Samples.threeBytes).
    apply List.Forall_forall. intros c Hc. vm_compute in Hc.
    repeat (destruct Hc as [<- | Hc]; [discriminate|]). destruct Hc.
  - vm_compute. reflexivity.
  - apply (Hblob Samples.untyped). constructor.
Qed.

(** C8. What is received is to be the envelope that was sent, for each
    of the three types and for any binary payload. The bytes of a
    transcript and of a translation do carry the envelope, and parsing
    them gives the object that was sent; but the branches of
    [handleData] for these two types are empty: no callback is called
    and nothing is returned, kept or logged, where an audio message is
    handed to its callback. And the three bytes 0x00, 0xFF, 0x10 do not
    come back from the data URL of a blob whose media type holds a
    comma: [split(',')[1]] is then a piece of the media type, on which
    [atob] throws. *)
Theorem handleData_discards_transcript :
  let transcript := WebRTC.TranscriptMessage (js "hola") (js "es") 1700000000000 in
  let translation :=
    WebRTC.TranslationMessage (js "hello") (js "hola") (js "en") (js "es")
      1700000000000 in
  let audio :=
    WebRTC.AudioMessage (WebRTC.readAsDataURL Samples.threeBytes) 1700000000000 in
  Codec.JSON_parse (TextDecoder_decode (WebRTC.encode transcript))
    = Return (WebRTC.toValue transcript)
  /\ WebRTC.handleData (WebRTC.encode transcript) Samples.connected
     = WebRTC.quiet Samples.connected
  /\ Codec.JSON_parse (TextDecoder_decode (WebRTC.encode translation))
     = Return (WebRTC.toValue translation)
  /\ WebRTC.handleData (WebRTC.encode translation) Samples.connected
     = WebRTC.quiet Samples.connected
  /\ WebRTC.effects (WebRTC.handleData (WebRTC.encode audio) Samples.connected)
     = [WebRTC.AudioDataCallback
          (Some (Codec.String (WebRTC.readAsDataURL Samples.threeBytes)))]
  /\ WebRTC.readAsDataURL Samples.twoCodecs
     = js "data:video/webm;codecs=vp8,opus;base64,AP8Q"
  /\ WebRTC.convertBase64ToAudio (WebRTC.readAsDataURL Samples.twoCodecs)
     = Throw (js "InvalidCharacterError")
  /\ WebRTC.base64ToBlob (WebRTC.blobToBase64 Samples.twoCodecs)
     = Throw (js "InvalidCharacterError").
Proof.
  cbv zeta. repeat split; vm_compute; reflexivity.
Qed.

(* ===================================================================== *)
(** * Further properties of the sources                                    *)
(* ===================================================================== *)

(** ** utils/phonemes.js *)

Module PhonemeFacts.
Import Phonemes Closed.

(** The pieces of a split are all empty exactly when the text is white
    space only. *)
Lemma split_ws_from_all_empty (s : jsstring) :
  forall inRun cur,
    Forall (fun w => w = []) (split_ws_from inRun cur s)
    <-> cur = [] /\ Forall (fun c => isWhiteSpace c = true) s.
Proof.
  induction s as [|c s IH]; intros inRun cur; simpl.
  - split.
    + intros Hall. inversion Hall as [|? ? Hcur _]; subst.
      split; [|constructor].
      destruct cur as [|x cur]; [reflexivity|]. simpl in Hcur.
      destruct (rev cur); discriminate.
    + intros [-> _]. repeat constructor.
  - destruct (isWhiteSpace c) eqn:Hc.
    + destruct inRun.
      * rewrite IH. split; intros [Hcur Hall]; (split; [exact Hcur|]).
        -- constructor; assumption.
        -- inversion Hall; assumption.
      * split.
        -- intros Hall. inversion Hall as [|? ? Hcur Hrest]; subst.
           apply IH in Hrest. destruct Hrest as [_ Hs].
           split; [|constructor; assumption].
           destruct cur as [|x cur]; [reflexivity|]. simpl in Hcur.
           destruct (rev cur); discriminate.
        -- intros [-> Hall]. inversion Hall; subst.
           constructor; [reflexivity|]. apply IH. split; [reflexivity|assumption].
    + rewrite IH. split.
      * intros [Hcur _]. discriminate.
      * intros [_ Hall]. inversion Hall; congruence.
Qed.

(** The pieces of a split, put end to end, are the characters that are
    not white space. *)
Lemma split_ws_from_concat (s : jsstring) :
  forall inRun cur,
    concat (split_ws_from inRun cur s)
    = rev cur ++ List.filter (fun c => negb (isWhiteSpace c)) s.
Proof.
  induction s as [|c s IH]; intros inRun cur; simpl.
  - reflexivity.
  - destruct (isWhiteSpace c) eqn:Hc; simpl.
    + destruct inRun; simpl; rewrite IH; [reflexivity|].
      simpl. reflexivity.
    + rewrite IH. simpl. rewrite <- app_assoc. reflexivity.
Qed.

(** No value of the two letter tables is a single space or empty. *)
Lemma table_values (language key value : jsstring) :
  (if str_eqb language (js "es") then spanishPhonemes else englishPhonemes) !! key
  = Some value ->
  value <> js " " /\ value <> [].
Proof.
  assert (Hen : bool_decide
                  (map_Forall (fun (_ : jsstring) (v : jsstring) => v <> js " " /\ v <> [])
                              englishPhonemes) = true)
    by (vm_compute; reflexivity).
  assert (Hes : bool_decide
                  (map_Forall (fun (_ : jsstring) (v : jsstring) => v <> js " " /\ v <> [])
                              spanishPhonemes) = true)
    by (vm_compute; reflexivity).
  apply bool_decide_eq_true_1 in Hen. apply bool_decide_eq_true_1 in Hes.
  destruct (str_eqb language (js "es")); intros Hlook.
  - exact (Hes key value Hlook).
  - exact (Hen key value Hlook).
Qed.

(** One word: every phoneme takes one or two characters, and none is the
    word boundary mark. *)
Lemma wordPhonemes_facts (phonemeMap : object jsstring) :
  (forall key value, phonemeMap !! key = Some value -> value <> js " " /\ value <> []) ->
  forall n word, (length word <= n)%nat -> spaceless word ->
    Forall (fun p => p <> js " " /\ p <> []) (wordPhonemes phonemeMap word)
    /\ (length (wordPhonemes phonemeMap word) <= length word)%nat
    /\ (length word <= 2 * length (wordPhonemes phonemeMap word))%nat.
Proof.
  intros Hvalues. induction n as [|n IH]; intros word Hlen Hword.
  - destruct word; [|simpl in Hlen; lia]. simpl. repeat split; [constructor|lia|lia].
  - destruct word as [|char rest]; [simpl; repeat split; [constructor|lia|lia]|].
    assert (Hchar : [char] <> js " ").
    { inversion Hword as [|? ? Hc _]; subst. intros Heq.
      injection Heq as ->. vm_compute in Hc. discriminate. }
    assert (Hrest : spaceless rest) by (inversion Hword; assumption).
    simpl in Hlen.
    change (wordPhonemes phonemeMap (char :: rest))
      with (let twoChar := char :: match rest with
                                   | [] => js "undefined"
                                   | nextChar :: _ => [nextChar]
                                   end in
            if truthy (phonemeMap !! twoChar) then
              default [] (phonemeMap !! twoChar) ::
                match rest with
                | [] => []
                | _ :: rest' => wordPhonemes phonemeMap rest'
                end
            else if truthy (phonemeMap !! [char]) then
              default [] (phonemeMap !! [char]) :: wordPhonemes phonemeMap rest
            else [char] :: wordPhonemes phonemeMap rest).
    cbv zeta.
    destruct (IH rest ltac:(lia) Hrest) as (Hr1 & Hr2 & Hr3).
    destruct (truthy (phonemeMap !! (char :: _))) eqn:Htwo.
    + destruct (phonemeMap !! (char :: _)) as [v|] eqn:Hv; [|discriminate].
      pose proof (Hvalues _ _ Hv) as Hsp. simpl default.
      destruct rest as [|next rest'].
      * simpl. split; [repeat constructor; apply Hsp|lia].
      * assert (Hrest' : spaceless rest') by (inversion Hrest; assumption).
        simpl in Hlen.
        destruct (IH rest' ltac:(lia) Hrest') as (H1 & H2 & H3).
        simpl. split; [constructor; assumption|lia].
    + destruct (truthy (phonemeMap !! [char])) eqn:Hone.
      * destruct (phonemeMap !! [char]) as [v|] eqn:Hv; [|discriminate].
        pose proof (Hvalues _ _ Hv) as Hsp. simpl.
        split; [constructor; assumption|lia].
      * simpl. split; [constructor; [split; [exact Hchar|discriminate]|assumption]|lia].
Qed.

(** The phonemes of a text are those of its words, in order. *)
Lemma textToPhonemes_concat `{Host} (text language : jsstring) :
  textToPhonemes text language
  = concat (List.map
              (wordPhonemes (if str_eqb language (js "es")
                             then spanishPhonemes else englishPhonemes))
              (split_ws (toLowerCase text))).
Proof.
  unfold textToPhonemes.
  set (phonemeMap := if str_eqb language (js "es") then spanishPhonemes else englishPhonemes).
  pose proof (StringFacts.split_ws_spaceless (toLowerCase text)) as Hwords.
  induction Hwords as [|word words Hword _ IH]; [reflexivity|].
  simpl. rewrite !List.filter_app. simpl.
  rewrite IH. f_equal.
  destruct (wordPhonemes_facts phonemeMap (table_values language)
              (length word) word (le_n _) Hword) as (Hall & _).
  rewrite app_nil_r.
  induction Hall as [|p ps Hp _ IHp]; [reflexivity|].
  simpl. destruct (str_eqb p (js " ")) eqn:Heq.
  - exfalso. apply (proj1 Hp). unfold str_eqb in Heq.
    apply bool_decide_eq_true_1 in Heq. exact Heq.
  - simpl. f_equal. exact IHp.
Qed.

End PhonemeFacts.

(** The phonemes of a text. None is empty or the word boundary mark.
    Each stands for one or two characters of the lowercased text that are
    not white space, so their number lies between half the number of
    these characters and that number; there is no phoneme exactly when
    the lowercased text is white space only. *)
Theorem phonemes_cover_letters `{Host} (text language : jsstring) :
  let letters := List.filter (fun c => negb (isWhiteSpace c)) (toLowerCase text) in
  let phonemes := Phonemes.textToPhonemes text language in
  Forall (fun p => p <> js " " /\ p <> []) phonemes
  /\ (length phonemes <= length letters <= 2 * length phonemes)%nat
  /\ (phonemes = [] <-> Forall (fun c => isWhiteSpace c = true) (toLowerCase text)).
Proof.
  intros letters phonemes.
  assert (Hmain : Forall (fun p => p <> js " " /\ p <> []) phonemes
                  /\ (length phonemes <= length letters <= 2 * length phonemes)%nat).
  { unfold phonemes, letters. rewrite PhonemeFacts.textToPhonemes_concat.
    pose proof (PhonemeFacts.split_ws_from_concat (toLowerCase text) false []) as Hcat.
    simpl in Hcat. fold (split_ws (toLowerCase text)) in Hcat. rewrite <- Hcat. clear Hcat.
    pose proof (StringFacts.split_ws_spaceless (toLowerCase text)) as Hwords.
    induction Hwords as [|word words Hword _ IH]; [simpl; split; [constructor|lia]|].
    destruct IH as (IH1 & IH2).
    destruct (PhonemeFacts.wordPhonemes_facts _ (PhonemeFacts.table_values language)
                (length word) word (le_n _) Hword) as (Hall & Hlen).
    simpl. rewrite !length_app. split; [|lia].
    apply Forall_app. split; assumption. }
  destruct Hmain as (Hall & Hlen). split; [exact Hall|]. split; [exact Hlen|].
  split.
  - intros Hnil. rewrite Hnil in Hlen. simpl in Hlen.
    assert (Hletters : letters = []) by (destruct letters; [reflexivity|simpl in Hlen; lia]).
    unfold letters in Hletters. clear Hlen Hall Hnil letters.
    induction (toLowerCase text) as [|c s IHs]; [constructor|].
    simpl in Hletters. destruct (isWhiteSpace c) eqn:Hc; [|discriminate].
    constructor; [exact Hc|]. apply IHs. exact Hletters.
  - intros Hblank.
    assert (Hletters : letters = []).
    { unfold letters. clear Hlen.
      induction Hblank as [|c s Hc _ IHs]; [reflexivity|].
      simpl. rewrite Hc. exact IHs. }
    rewrite Hletters in Hlen. simpl in Hlen.
    destruct phonemes; [reflexivity|simpl in Hlen; lia].
Qed.

(** The viseme of a phoneme whose lowercased form names no member of
    [Object.prototype], as every phoneme of [textToPhonemes] is. It is
    [undefined] for exactly one lowercased phoneme, [i]: its code [EE]
    has no blend-shape name. Every other phoneme gets one of the names of
    [VISEMES], and one that is not in [PHONEMES] gets the rest viseme. *)
Theorem viseme_undefined_only_for_i `{Host} (phoneme : jsstring) :
  toLowerCase phoneme ∉ prototypeMembers ->
  (Phonemes.phonemeToViseme phoneme = None <-> toLowerCase phoneme = js "i")
  /\ (toLowerCase phoneme <> js "i" ->
      exists code name, Phonemes.VISEMES !! code = Some name
                        /\ Phonemes.phonemeToViseme phoneme = Some name)
  /\ (Phonemes.PHONEMES !! toLowerCase phoneme = None ->
      Phonemes.phonemeToViseme phoneme = LipSync.REST).
Proof.
  intros _.
  assert (Hcodes : bool_decide
            (map_Forall (fun (k : jsstring) (code : jsstring) =>
                           code <> []
                           /\ (Phonemes.VISEMES !! code = None <-> k = js "i"))
                        Phonemes.PHONEMES) = true)
    by (vm_compute; reflexivity).
  apply bool_decide_eq_true_1 in Hcodes.
  assert (Hrest : Phonemes.VISEMES !! js "REST" = LipSync.REST)
    by (vm_compute; reflexivity).
  assert (Hi : Phonemes.PHONEMES !! js "i" = Some (js "EE"))
    by (vm_compute; reflexivity).
  unfold Phonemes.phonemeToViseme.
  destruct (Phonemes.PHONEMES !! toLowerCase phoneme) as [code|] eqn:Hlook.
  - destruct (Hcodes _ _ Hlook) as (Hne & Hiff).
    destruct code as [|c code]; [congruence|]. cbn [truthy default from_option id].
    split; [exact Hiff|]. split; [|discriminate].
    intros Hnot. destruct (Phonemes.VISEMES !! (c :: code)) as [name|] eqn:Hname.
    + exists (c :: code), name. split; [exact Hname|reflexivity].
    + exfalso. apply Hnot. apply Hiff. reflexivity.
  - cbn [truthy]. rewrite Hrest. split; [|split].
    + split; [discriminate|]. intros Heq. rewrite Heq, Hi in Hlook. discriminate.
    + intros _. exists (js "REST"), (js "viseme_rest"). split; [exact Hrest|reflexivity].
    + reflexivity.
Qed.

(** The hypothesis holds of the phoneme [i], which has no viseme; the
    phoneme [e] has one. *)
Lemma viseme_undefined_only_for_i_spanish :
  (toLowerCase (Host := Samples.asciiHost) (js "i") ∉ prototypeMembers)
  /\ Phonemes.phonemeToViseme (H := Samples.asciiHost) (js "i") = None
  /\ Phonemes.phonemeToViseme (H := Samples.asciiHost) (js "e")
     = Some (js "viseme_eh").
Proof.
  assert (Hi : toLowerCase (Host := Samples.asciiHost) (js "i") ∉ prototypeMembers).
  { intros Hin. apply (bool_decide_eq_true_2 _) in Hin. vm_compute in Hin. discriminate. }
  split; [exact Hi|]. split.
  - apply (proj1 (viseme_undefined_only_for_i (H := Samples.asciiHost) (js "i") Hi)).
    vm_compute. reflexivity.
  - vm_compute. reflexivity.
Defined.

(** ** services/lipSync.js: the scheduler *)

Module FrameFacts.
Import LipSync Props.

Section Frames.
Context {num : Type} `{Number num}.

Lemma stopLipSync_settled (w : World num) :
  (forall h, animationFrame (this w) = Some h -> pendingFrames w = [h] \/ pendingFrames w = []) ->
  (animationFrame (this w) = None -> pendingFrames w = []) ->
  settled (stopLipSync w).
Proof.
  intros Hsome Hnone. unfold settled, stopLipSync, setViseme.
  cbn [isPlaying this animationFrame pendingFrames].
  split; [reflexivity|].
  destruct (animationFrame (this w)) as [h|] eqn:Hframe.
  - destruct (Hsome h eq_refl) as [-> | ->]; cbn [List.filter]; [|reflexivity].
    rewrite Pos.eqb_refl. reflexivity.
  - apply Hnone. reflexivity.
Qed.

Lemma animate_settled (now : num) (w : World num) :
  isPlaying (this w) = true -> pendingFrames w = [] -> settled (animate now w).
Proof.
  intros Hplay Hpend. unfold animate. rewrite Hplay. cbn [negb].
  set (w1 := match List.find (covers now) (visemeQueue (this w)) with
             | Some v => if bool_decide (viseme v <> currentViseme (this w))
                         then setViseme (viseme v) w else w
             | None => w
             end).
  assert (H1 : isPlaying (this w1) = true /\ pendingFrames w1 = []).
  { unfold w1. destruct (List.find _ _) as [v|]; [|split; assumption].
    destruct (bool_decide _); [|split; assumption].
    unfold setViseme. cbn [isPlaying this pendingFrames]. split; assumption. }
  destruct H1 as (Hplay1 & Hpend1). clearbody w1.
  set (q := List.filter _ _).
  assert (Hplay2 : isPlaying (this (setQueue q w1)) = true) by exact Hplay1.
  assert (Hpend2 : pendingFrames (setQueue q w1) = []) by exact Hpend1.
  destruct (Nat.eqb _ 0).
  - apply stopLipSync_settled.
    + intros h _. right. exact Hpend2.
    + intros _. exact Hpend2.
  - unfold settled, requestFrame. cbn [isPlaying this animationFrame pendingFrames].
    rewrite Hplay2, Hpend2. eexists. split; reflexivity.
Qed.

End Frames.

End FrameFacts.

(** The scheduler keeps one frame at most: if a playing service has
    exactly the frame request it remembers pending, and an idle one has
    none, then this is so again after [startLipSync], after
    [stopLipSync], after the host has served a frame, and after any
    number of frames. Starting again while playing does not leave a
    second loop running. *)
Theorem scheduler_keeps_one_frame {num : Type} `{Number num}
  (w : LipSync.World num) :
  Props.settled w ->
  (forall visemeSequence start now,
     Props.settled (LipSync.startLipSync visemeSequence start now w))
  /\ Props.settled (LipSync.stopLipSync w)
  /\ (forall now, Props.settled (LipSync.tick now w))
  /\ (forall clock, Props.settled (LipSync.run clock w)).
Proof.
  assert (Hstop : forall w : LipSync.World num,
             Props.settled w -> Props.settled (LipSync.stopLipSync w)).
  { intros w0 Hw. apply FrameFacts.stopLipSync_settled.
    - intros h Hh. unfold Props.settled in Hw.
      destruct (LipSync.isPlaying (LipSync.this w0)).
      + destruct Hw as (h' & Hh' & Hp). left. congruence.
      + right. apply Hw.
    - intros Hnone. unfold Props.settled in Hw.
      destruct (LipSync.isPlaying (LipSync.this w0)).
      + destruct Hw as (h' & Hh' & _). congruence.
      + apply Hw. }
  assert (Htick : forall (w : LipSync.World num) now,
             Props.settled w -> Props.settled (LipSync.tick now w)).
  { intros w0 now Hw. unfold LipSync.tick.
    destruct (LipSync.pendingFrames w0) as [|h rest] eqn:Hpend; [exact Hw|].
    unfold Props.settled in Hw.
    destruct (LipSync.isPlaying (LipSync.this w0)) eqn:Hplay.
    - destruct Hw as (h' & _ & Hp). rewrite Hpend in Hp. injection Hp as _ ->.
      apply FrameFacts.animate_settled; [exact Hplay|reflexivity].
    - destruct Hw as (_ & Hp). congruence. }
  intros Hw. split; [|split; [|split]].
  - intros visemeSequence start now. unfold LipSync.startLipSync.
    apply FrameFacts.animate_settled; [reflexivity|].
    destruct (LipSync.isPlaying (LipSync.this w)) eqn:Hplay.
    + pose proof (Hstop w Hw) as Hs. unfold Props.settled in Hs.
      destruct (LipSync.isPlaying (LipSync.this (LipSync.stopLipSync w))) eqn:Hp.
      * unfold LipSync.stopLipSync, LipSync.setViseme in Hp. discriminate.
      * apply Hs.
    + unfold Props.settled in Hw. rewrite Hplay in Hw. apply Hw.
  - apply Hstop. exact Hw.
  - intros now. apply Htick. exact Hw.
  - intros clock. unfold LipSync.run. revert w Hw.
    induction clock as [|now clock IH]; intros w Hw; [exact Hw|].
    simpl. apply IH. apply Htick. exact Hw.
Qed.

(** The invariant holds of a new service, and so of the one started on
    the timeline of [hello]. *)
Lemma scheduler_keeps_one_frame_hello :
  Props.settled Samples.listening
  /\ Props.settled (LipSync.startLipSync Samples.helloTimeline 0%float 0%float
                      Samples.listening).
Proof.
  assert (Hw : Props.settled Samples.listening) by (split; reflexivity).
  split; [exact Hw|].
  exact (proj1 (scheduler_keeps_one_frame Samples.listening Hw)
           Samples.helloTimeline 0%float 0%float).
Defined.

(** A sequence started when the clock has already passed the end of its
    last event, moved by the start time, is never shown: the service stops
    in the same call, with an empty queue, and its listener is told the
    rest viseme only (once more before if the service was playing). This
    is what happens to a sequence of two seconds started with the start
    time 0 on an audio clock that has run for longer. *)
Theorem start_past_the_end_shows_nothing {num : Type} `{NumberOrder num}
  (visemeSequence : list (LipSync.TimedViseme num)) (start now : num)
  (w : LipSync.World num) :
  LipSync.onVisemeChange (LipSync.this w) = true ->
  (forall e, In e visemeSequence ->
             nleb (nadd (LipSync.endTime e) start) now = true) ->
  let w' := LipSync.startLipSync visemeSequence start now w in
  LipSync.isPlaying (LipSync.this w') = false
  /\ LipSync.visemeQueue (LipSync.this w') = []
  /\ LipSync.currentViseme (LipSync.this w') = LipSync.REST
  /\ LipSync.notified w'
     = LipSync.notified w
       ++ (if LipSync.isPlaying (LipSync.this w) then [LipSync.REST] else [])
       ++ [LipSync.REST].
Proof.
  intros Hlisten Hended w'. unfold w', LipSync.startLipSync.
  set (w1 := if LipSync.isPlaying (LipSync.this w) then LipSync.stopLipSync w else w).
  set (queue := List.map _ visemeSequence).
  set (w2 := LipSync.with_this _ w1).
  assert (Hl1 : LipSync.onVisemeChange (LipSync.this w1) = true).
  { unfold w1. destruct (LipSync.isPlaying (LipSync.this w)); [|exact Hlisten].
    exact Hlisten. }
  assert (Hn1 : LipSync.notified w1
                = LipSync.notified w
                  ++ (if LipSync.isPlaying (LipSync.this w) then [LipSync.REST] else [])).
  { unfold w1. destruct (LipSync.isPlaying (LipSync.this w)).
    - unfold LipSync.stopLipSync, LipSync.setViseme.
      cbn [LipSync.notified LipSync.this LipSync.onVisemeChange].
      rewrite Hlisten. reflexivity.
    - rewrite app_nil_r. reflexivity. }
  assert (Hq : forall e, In e queue -> nleb (LipSync.endTime e) now = true).
  { intros e He. unfold queue in He. apply in_map_iff in He.
    destruct He as (v & <- & Hv). exact (Hended v Hv). }
  destruct (SchedulerFacts.all_ended now queue Hq) as (Hfind & Hrem).
  pose proof (SchedulerFacts.animate_playing now w2 eq_refl Hl1) as (Hqueue & _ & Hcase).
  change (LipSync.visemeQueue (LipSync.this w2)) with queue in Hqueue, Hcase.
  rewrite Hfind, Hrem in Hcase. rewrite Hrem in Hqueue.
  destruct Hcase as (Hplay & Hcur & Hnot).
  split; [exact Hplay|]. split; [exact Hqueue|]. split; [exact Hcur|].
  rewrite Hnot. change (LipSync.notified w2) with (LipSync.notified w1).
  rewrite Hn1, <- app_assoc. reflexivity.
Qed.

(** The hypotheses hold for the timeline of [hola] spread over two
    seconds and started, with the start time 0, on a clock that reads 3.5
    seconds. *)
Lemma start_past_the_end_hola :
  let timeline :=
    LipSync.generateLipSyncFromText (H := Samples.asciiHost) (num := float)
      (js "hola") (js "es") 2%float in
  length timeline = 4%nat
  /\ LipSync.notified
       (LipSync.startLipSync timeline 0%float 3.5%float Samples.listening)
     = [LipSync.REST].
Proof.
  intros timeline.
  split; [vm_compute; reflexivity|].
  refine (proj2 (proj2 (proj2
            (start_past_the_end_shows_nothing timeline 0%float 3.5%float
               Samples.listening eq_refl _)))).
  intros e He. vm_compute in He.
  repeat (destruct He as [<- | He]; [vm_compute; reflexivity|]). destruct He.
Defined.

(** ** services/lipSync.js: AvatarLipSyncController *)

Module ControllerFacts.
Import Controller Props.

Lemma array_get_set (a : Array) (i j : nat) (v : float) :
  array_get (array_set i v a) j = if Nat.eqb j i then Some v else array_get a j.
Proof.
  unfold array_get, array_set.
  destruct (Nat.ltb_spec i (length a)) as [Hlt|Hge].
  - destruct (Nat.eqb_spec j i) as [->|Hne].
    + rewrite list_lookup_insert_eq by exact Hlt. reflexivity.
    + rewrite list_lookup_insert_ne by congruence. reflexivity.
  - destruct (Nat.eqb_spec j i) as [->|Hne].
    + rewrite lookup_app_r by exact Hge.
      rewrite lookup_app_r by (rewrite length_replicate; lia).
      rewrite length_replicate. replace (i - length a - (i - length a))%nat with 0%nat by lia.
      reflexivity.
    + destruct (Nat.lt_ge_cases j (length a)) as [Hj|Hj].
      * rewrite lookup_app_l by exact Hj. reflexivity.
      * rewrite (lookup_ge_None_2 a j) by exact Hj.
        rewrite lookup_app_r by exact Hj.
        destruct (Nat.lt_ge_cases (j - length a) (i - length a)) as [Hk|Hk].
        -- rewrite lookup_app_l by (rewrite length_replicate; exact Hk).
           rewrite lookup_replicate_2 by exact Hk. reflexivity.
        -- rewrite lookup_app_r by (rewrite length_replicate; exact Hk).
           rewrite length_replicate.
           destruct (j - length a - (i - length a))%nat as [|k] eqn:Hd; [lia|].
           reflexivity.
Qed.

Lemma map_get_set {V} (m : Map V) (key key' : jsstring) (v : V) :
  map_get (map_set key v m) key'
  = if bool_decide (key' = key) then Some v else map_get m key'.
Proof.
  unfold map_get. induction m as [|[k x] m IH]; simpl.
  - unfold str_eqb. destruct (decide (key' = key)) as [->|Hne].
    + rewrite !bool_decide_eq_true_2 by reflexivity. reflexivity.
    + rewrite (bool_decide_eq_false_2 (key = key')) by congruence.
      rewrite bool_decide_eq_false_2 by exact Hne. reflexivity.
  - unfold str_eqb in *. destruct (decide (k = key)) as [->|Hk].
    + rewrite (bool_decide_eq_true_2 (key = key)) by reflexivity. simpl.
      destruct (decide (key' = key)) as [->|Hne].
      * rewrite !bool_decide_eq_true_2 by reflexivity. reflexivity.
      * rewrite (bool_decide_eq_false_2 (key = key')) by congruence.
        rewrite (bool_decide_eq_false_2 (key' = key)) by exact Hne. reflexivity.
    + rewrite (bool_decide_eq_false_2 (k = key)) by exact Hk. simpl.
      destruct (decide (k = key')) as [->|Hk'].
      * rewrite (bool_decide_eq_true_2 (key' = key')) by reflexivity.
        rewrite (bool_decide_eq_false_2 (key' = key)) by exact Hk. reflexivity.
      * rewrite (bool_decide_eq_false_2 (k = key')) by exact Hk'. exact IH.
Qed.

(** A key of a map is found in it. *)
Lemma map_get_In {V} (m : Map V) (key : jsstring) (v : V) :
  In (key, v) m -> is_Some (map_get m key).
Proof.
  unfold map_get. induction m as [|[k x] m IH]; simpl; [tauto|].
  intros [Heq | Hin].
  - injection Heq as -> ->. unfold str_eqb.
    rewrite bool_decide_eq_true_2 by reflexivity. eexists. reflexivity.
  - destruct (str_eqb k key); [eexists; reflexivity|]. apply IH. exact Hin.
Qed.

(** The loop that resets every registered shape. *)
Lemma resetAll_spec (weightFirst : bool) (shapes : Map nat) :
  forall (c : State) dictionary influences,
    avatar c = Some {| morphTargetDictionary := dictionary;
                       morphTargetInfluences := Some influences |} ->
    exists c' influences',
      resetAll weightFirst shapes c = Return c'
      /\ avatar c' = Some {| morphTargetDictionary := dictionary;
                             morphTargetInfluences := Some influences' |}
      /\ blendShapes c' = blendShapes c
      /\ (forall j, array_get influences' j
                    = if bool_decide (j ∈ List.map snd shapes) then Some 0%float
                      else array_get influences j)
      /\ (forall key, map_get (currentWeights c') key
                      = if bool_decide (key ∈ List.map fst shapes) then Some 0%float
                        else map_get (currentWeights c) key).
Proof.
  induction shapes as [|[name index] shapes IH]; intros c dictionary influences Hav.
  - exists c, influences. cbn [resetAll List.map].
    split; [reflexivity|]. split; [exact Hav|]. split; [reflexivity|].
    split; intros x; rewrite bool_decide_eq_false_2 by apply not_elem_of_nil; reflexivity.
  - set (c1 := {| avatar := Some {| morphTargetDictionary := dictionary;
                                    morphTargetInfluences :=
                                      Some (array_set index 0%float influences) |};
                  blendShapes := blendShapes c;
                  currentWeights := map_set name 0%float (currentWeights c) |}).
    assert (Hstep : (if weightFirst
                     then setInfluence index 0%float (setWeight name 0%float c)
                     else c0 ← setInfluence index 0%float c;
                          Return (setWeight name 0%float c0))
                    = Return c1).
    { unfold setInfluence, setWeight. destruct weightFirst; cbn [avatar];
        rewrite Hav; reflexivity. }
    destruct (IH c1 dictionary (array_set index 0%float influences) eq_refl)
      as (c' & influences' & Hrun & Hav' & Hshapes & Hinfl & Hweights).
    exists c', influences'.
    split; [cbn [resetAll]; rewrite Hstep; exact Hrun|].
    split; [exact Hav'|]. split; [exact Hshapes|]. split.
    + intros j. rewrite Hinfl, array_get_set. cbn [List.map snd].
      destruct (decide (j ∈ List.map snd shapes)) as [Hin|Hnin].
      * rewrite !bool_decide_eq_true_2;
          [reflexivity | apply elem_of_cons; right; exact Hin | exact Hin].
      * rewrite (bool_decide_eq_false_2 _ Hnin).
        destruct (Nat.eqb_spec j index) as [->|Hne].
        -- rewrite bool_decide_eq_true_2 by (apply elem_of_cons; left; reflexivity).
           reflexivity.
        -- rewrite bool_decide_eq_false_2; [reflexivity|].
           intros Hc. apply elem_of_cons in Hc as [Heq|Hin];
             [congruence | exact (Hnin Hin)].
    + intros key. rewrite Hweights. unfold c1. cbn [currentWeights List.map fst].
      rewrite map_get_set.
      destruct (decide (key ∈ List.map fst shapes)) as [Hin|Hnin].
      * rewrite !bool_decide_eq_true_2;
          [reflexivity | apply elem_of_cons; right; exact Hin | exact Hin].
      * rewrite (bool_decide_eq_false_2 _ Hnin).
        destruct (decide (key = name)) as [->|Hne].
        -- rewrite !bool_decide_eq_true_2;
             [reflexivity | apply elem_of_cons; left; reflexivity | reflexivity].
        -- rewrite (bool_decide_eq_false_2 (key = name)) by exact Hne.
           rewrite bool_decide_eq_false_2; [reflexivity|].
           intros Hc. apply elem_of_cons in Hc as [Heq|Hin];
             [congruence | exact (Hnin Hin)].
Qed.

(** What is found under a key is an entry of the map. *)
Lemma map_get_Some {V} (m : Map V) (key : jsstring) (v : V) :
  map_get m key = Some v -> In (key, v) m.
Proof.
  unfold map_get. induction m as [|[k x] m IH]; simpl; [discriminate|].
  unfold str_eqb. destruct (decide (k = key)) as [->|Hne].
  - rewrite bool_decide_eq_true_2 by reflexivity. simpl. intros [= ->]. left. reflexivity.
  - rewrite bool_decide_eq_false_2 by exact Hne. intros Hget. right. apply IH. exact Hget.
Qed.

Lemma In_snd {V} (m : Map V) (key : jsstring) (v : V) :
  In (key, v) m -> v ∈ List.map snd m.
Proof.
  intros Hin. apply list_elem_of_In. apply in_map_iff. exists (key, v).
  split; [reflexivity | exact Hin].
Qed.

Lemma In_fst {V} (m : Map V) (key : jsstring) (v : V) :
  In (key, v) m -> key ∈ List.map fst m.
Proof.
  intros Hin. apply list_elem_of_In. apply in_map_iff. exists (key, v).
  split; [reflexivity | exact Hin].
Qed.

End ControllerFacts.

(** After [updateViseme], whatever the weights were before, the avatar
    shows one viseme at most: of the registered morph targets, the one
    the viseme is registered under has influence 1 and every other has
    influence 0; the weights the controller keeps say the same; and a
    morph target that is no viseme keeps its influence. A viseme that
    is [undefined] or not registered leaves all registered targets at 0. *)
Theorem update_shows_one_viseme (c : Controller.State) (viseme : option jsstring)
  (dictionary : option (object nat)) (influences : Controller.Array) :
  Controller.avatar c
  = Some {| Controller.morphTargetDictionary := dictionary;
            Controller.morphTargetInfluences := Some influences |} ->
  exists c',
    Controller.updateViseme viseme c = Return c'
    /\ Controller.blendShapes c' = Controller.blendShapes c
    /\ (forall name index, In (name, index) (Controller.blendShapes c) ->
          Props.influence c' index
          = Some (if bool_decide (Props.target c viseme = Some index)
                  then 1%float else 0%float)
          /\ Controller.map_get (Controller.currentWeights c') name
             = Some (if bool_decide (viseme = Some name) then 1%float else 0%float))
    /\ (forall j, j ∉ List.map snd (Controller.blendShapes c) ->
          Props.influence c' j = Props.influence c j).
Proof.
  intros Hav.
  destruct (ControllerFacts.resetAll_spec true (Controller.blendShapes c) c
              dictionary influences Hav)
    as (c1 & influences1 & Hrun & Hav1 & Hshapes & Hinfl & Hweights).
  assert (Hbase : forall j, Props.influence c j = Controller.array_get influences j).
  { intros j. unfold Props.influence. rewrite Hav. reflexivity. }
  assert (Hcase : forall name0,
             Controller.map_get (Controller.blendShapes c) name0 = None ->
             forall name index, In (name, index) (Controller.blendShapes c) ->
               name <> name0).
  { intros name0 Hnone name index Hin ->.
    destruct (ControllerFacts.map_get_In _ _ _ Hin) as (x & Hx). congruence. }
  unfold Controller.updateViseme. rewrite Hrun. cbn [mbind result_bind].
  rewrite Hshapes.
  destruct viseme as [name0|];
    [destruct (Controller.map_get (Controller.blendShapes c) name0) as [t|] eqn:Hget|].
  - unfold Controller.setInfluence, Controller.setWeight. cbn [Controller.avatar].
    rewrite Hav1. eexists. split; [reflexivity|].
    cbn [Controller.blendShapes Controller.currentWeights].
    split; [exact Hshapes|].
    pose proof (ControllerFacts.map_get_Some _ _ _ Hget) as Ht.
    split.
    + intros name index Hin. unfold Props.influence, Props.target.
      cbn [Controller.avatar Controller.morphTargetInfluences mbind option_bind].
      rewrite Hget, ControllerFacts.array_get_set, Hinfl.
      rewrite ControllerFacts.map_get_set, Hweights.
      rewrite (bool_decide_eq_true_2 _ (ControllerFacts.In_snd _ _ _ Hin)).
      rewrite (bool_decide_eq_true_2 _ (ControllerFacts.In_fst _ _ _ Hin)).
      split.
      * destruct (Nat.eqb_spec index t) as [->|Hne].
        -- rewrite bool_decide_eq_true_2 by reflexivity. reflexivity.
        -- rewrite bool_decide_eq_false_2 by congruence. reflexivity.
      * destruct (decide (name = name0)) as [->|Hne].
        -- rewrite !bool_decide_eq_true_2 by reflexivity. reflexivity.
        -- rewrite (bool_decide_eq_false_2 (name = name0)) by exact Hne.
           rewrite bool_decide_eq_false_2 by congruence. reflexivity.
    + intros j Hj. rewrite Hbase. unfold Props.influence.
      cbn [Controller.avatar Controller.morphTargetInfluences mbind option_bind].
      rewrite ControllerFacts.array_get_set, Hinfl.
      rewrite (bool_decide_eq_false_2 _ Hj).
      destruct (Nat.eqb_spec j t) as [->|Hne]; [|reflexivity].
      exfalso. apply Hj. exact (ControllerFacts.In_snd _ _ _ Ht).
  - exists c1. split; [reflexivity|]. split; [exact Hshapes|]. split.
    + intros name index Hin. unfold Props.influence, Props.target.
      rewrite Hav1. cbn [Controller.morphTargetInfluences mbind option_bind].
      rewrite Hget, Hinfl, Hweights.
      rewrite (bool_decide_eq_true_2 _ (ControllerFacts.In_snd _ _ _ Hin)).
      rewrite (bool_decide_eq_true_2 _ (ControllerFacts.In_fst _ _ _ Hin)).
      rewrite bool_decide_eq_false_2 by discriminate.
      rewrite bool_decide_eq_false_2; [split; reflexivity|].
      intros [= ->]. exact (Hcase name Hget name index Hin eq_refl).
    + intros j Hj. rewrite Hbase. unfold Props.influence. rewrite Hav1.
      cbn [Controller.morphTargetInfluences mbind option_bind].
      rewrite Hinfl, (bool_decide_eq_false_2 _ Hj). reflexivity.
  - exists c1. split; [reflexivity|]. split; [exact Hshapes|]. split.
    + intros name index Hin. unfold Props.influence, Props.target.
      rewrite Hav1. cbn [Controller.morphTargetInfluences mbind option_bind].
      rewrite Hinfl, Hweights.
      rewrite (bool_decide_eq_true_2 _ (ControllerFacts.In_snd _ _ _ Hin)).
      rewrite (bool_decide_eq_true_2 _ (ControllerFacts.In_fst _ _ _ Hin)).
      rewrite !bool_decide_eq_false_2 by discriminate. split; reflexivity.
    + intros j Hj. rewrite Hbase. unfold Props.influence. rewrite Hav1.
      cbn [Controller.morphTargetInfluences mbind option_bind].
      rewrite Hinfl, (bool_decide_eq_false_2 _ Hj). reflexivity.
Qed.

(** The hypothesis holds of the controller of an avatar with the morph
    targets [viseme_aa], [smile] and [viseme_rest]: after the viseme
    [viseme_aa] the influences are 1, the one [smile] had, and 0. *)
Lemma update_shows_one_viseme_mesh :
  Controller.blendShapes MoreSamples.controller
    = [(js "viseme_aa", 0%nat); (js "viseme_rest", 2%nat)]
  /\ (exists c', Controller.updateViseme (Some (js "viseme_aa")) MoreSamples.controller
                  = Return c'
                  /\ Props.influence c' 0 = Some 1%float
                  /\ Props.influence c' 1 = Some 0.25%float
                  /\ Props.influence c' 2 = Some 0%float).
Proof.
  split; [vm_compute; reflexivity|].
  destruct (update_shows_one_viseme MoreSamples.controller (Some (js "viseme_aa"))
              (Controller.morphTargetDictionary MoreSamples.mesh)
              [Some 0.5%float; Some 0.25%float; Some 1%float])
    as (c' & Hrun & _ & Hshown & Hkept); [vm_compute; reflexivity|].
  exists c'. split; [exact Hrun|].
  split; [|split].
  - destruct (Hshown (js "viseme_aa") 0%nat) as [H0 _]; [vm_compute; left; reflexivity|].
    rewrite H0. vm_compute. reflexivity.
  - rewrite Hkept; [vm_compute; reflexivity|].
    intros Hin. apply (bool_decide_eq_true_2 _) in Hin. vm_compute in Hin. discriminate.
  - destruct (Hshown (js "viseme_rest") 2%nat) as [H2 _];
      [vm_compute; right; left; reflexivity|].
    rewrite H2. vm_compute. reflexivity.
Defined.

(** ** services/mt.js: MTService.decodeOutput *)

(** The translation decoder does not read its logits. The vocabulary is
    an object from words to ids, so that [this.vocab.length] is
    [undefined] unless there is a word [length]: the loop then makes one
    round on an empty slice, whose [argmax] is 0, and stops. For every
    output that is not empty the result is the text of the token 0 alone,
    or of no token if 0 is the id of [<eos>]. *)
Theorem MT_decodeOutput_ignores_logits (vocab : MT.Vocab) (output : list float)
  (fuel : nat) :
  MT.lookupWord vocab (js "length") = None ->
  output <> [] -> (1 <= fuel)%nat ->
  MT.decodeOutput fuel (Some vocab) output
  = Some (MT.tokensToText (Some vocab)
            (if bool_decide (MT.lookupWord vocab (js "<eos>") = Some 0%nat)
             then [] else [0%nat])).
Proof.
  intros Hlength Hout Hfuel. unfold MT.decodeOutput. rewrite Hlength.
  destruct output as [|x output]; [congruence|].
  destruct fuel as [|fuel]; [lia|].
  cbn [MT.decodeLoop]. change (MT.argmax []) with 0%nat.
  destruct (bool_decide (MT.lookupWord vocab (js "<eos>") = Some 0%nat)); reflexivity.
Qed.

(** The hypotheses hold of the vocabulary [<sos>, <eos>, <unk>, hola] and
    of logits that favour [hola]: the decoder returns the empty text,
    the token 0 being [<sos>], which is filtered. *)
Lemma MT_decodeOutput_ignores_hola :
  MT.lookupWord Samples.marianVocab (js "length") = None
  /\ MT.decodeOutput 1 (Some Samples.marianVocab) (Samples.oneHot 4 3) = Some (Return []).
Proof.
  assert (Hlength : MT.lookupWord Samples.marianVocab (js "length") = None)
    by (vm_compute; reflexivity).
  split; [exact Hlength|].
  rewrite (MT_decodeOutput_ignores_logits Samples.marianVocab (Samples.oneHot 4 3) 1
             Hlength); [vm_compute; reflexivity | discriminate | lia].
Defined.

(** ** services/stt.js: argmax and the decoding loop *)

Module ArgmaxFacts.
Import Float32.

(** The loop of [argmax] as a function of the pair it carries. *)
Lemma argmax_loop_index (array : list float) (rounds : list nat) :
  forall maxIndex maxValue bound,
    (maxIndex < bound)%nat -> Forall (fun i => (i < bound)%nat) rounds ->
    (fst (foldl (fun '(maxIndex, maxValue) i =>
                   if PrimFloat.ltb maxValue (load array i)
                   then (i, load array i) else (maxIndex, maxValue))
                (maxIndex, maxValue) rounds) < bound)%nat.
Proof.
  induction rounds as [|i rounds IH]; intros maxIndex maxValue bound Hm Hall;
    [exact Hm|].
  apply Forall_cons in Hall as [Hi Hall]. cbn [foldl].
  destruct (PrimFloat.ltb maxValue (load array i)); apply IH; assumption.
Qed.

(** The result of [argmax] is an index of the array, unless it is empty. *)
Lemma argmax_lt (array : list float) :
  array <> [] -> (STT.argmax array < length array)%nat.
Proof.
  destruct array as [|first rest]; [congruence|]. intros _.
  unfold STT.argmax. apply argmax_loop_index; [simpl; lia|].
  apply Forall_forall. intros i Hi. apply list_elem_of_In, in_seq in Hi.
  simpl in *. lia.
Qed.

End ArgmaxFacts.

(** The speech decoder makes one token of every [vocabSize] logits, the
    last slice being shorter when the output is no multiple of it: with a
    vocabulary that is not empty the loop ends, the number of tokens is
    the number of logits divided by the size of the vocabulary, rounded
    up, and every token is the index of a symbol. With an empty
    vocabulary and an output that is not empty the loop never ends,
    whatever the number of rounds allowed. *)
Theorem STT_decode_one_token_per_slice (vocabSize : nat) (output : list float) :
  ((0 < vocabSize)%nat ->
   forall fuel, (length output <= fuel)%nat ->
   exists tokens,
     STT.decodeLoop fuel vocabSize output = Some tokens
     /\ length tokens = ((length output + vocabSize - 1) / vocabSize)%nat
     /\ Forall (fun token => (token < vocabSize)%nat) tokens)
  /\ (vocabSize = 0%nat -> output <> [] ->
      forall fuel, STT.decodeLoop fuel vocabSize output = None).
Proof.
  split.
  - intros Hv fuel. revert output.
    induction fuel as [|fuel IH]; intros output Hlen.
    + destruct output; [|simpl in Hlen; lia].
      exists []. split; [reflexivity|]. split; [|constructor].
      simpl. symmetry. apply Nat.div_small. lia.
    + destruct output as [|x output].
      * exists []. split; [reflexivity|]. split; [|constructor].
        simpl. symmetry. apply Nat.div_small. lia.
      * cbn [STT.decodeLoop].
        destruct (IH (drop vocabSize (x :: output))) as (tokens & Hrun & Hcount & Hall).
        { rewrite length_drop. simpl in *. lia. }
        rewrite Hrun. eexists. split; [reflexivity|]. split.
        -- rewrite length_drop in Hcount.
           change (length (STT.argmax (take vocabSize (x :: output)) :: tokens))
             with (S (length tokens)).
           rewrite Hcount.
           assert (Hn : (0 < length (x :: output))%nat) by (simpl; lia).
           set (n := length (x :: output)) in *.
           destruct (Nat.le_gt_cases n vocabSize) as [Hle|Hgt].
           ++ replace (n - vocabSize)%nat with 0%nat by lia.
              rewrite (Nat.div_small (0 + vocabSize - 1)) by lia.
              assert (Hone : ((n + vocabSize - 1) / vocabSize = 1)%nat).
              { symmetry. apply Nat.div_unique with (r := (n - 1)%nat); lia. }
              rewrite Hone. reflexivity.
           ++ replace (n + vocabSize - 1)%nat
                with ((n - vocabSize + vocabSize - 1) + 1 * vocabSize)%nat by lia.
              rewrite Nat.div_add by lia. lia.
        -- constructor; [|exact Hall].
           assert (Hslice : take vocabSize (x :: output) <> []).
           { destruct vocabSize; [lia|]. discriminate. }
           pose proof (ArgmaxFacts.argmax_lt _ Hslice) as Hlt.
           rewrite length_take in Hlt. lia.
  - intros -> Hout fuel.
    induction fuel as [|fuel IH]; destruct output as [|x output]; try congruence.
    + reflexivity.
    + cbn [STT.decodeLoop drop]. rewrite IH. reflexivity.
Qed.

(** Eight logits and a vocabulary of four symbols give two tokens; with
    no symbol the loop does not end. *)
Lemma STT_decode_two_slices :
  (exists tokens,
     STT.decodeLoop 8 4 (Samples.oneHot 4 3 ++ Samples.oneHot 4 2) = Some tokens
     /\ length tokens = 2%nat)
  /\ STT.decodeLoop 8 0 (Samples.oneHot 4 3) = None.
Proof.
  destruct (STT_decode_one_token_per_slice 4 (Samples.oneHot 4 3 ++ Samples.oneHot 4 2))
    as (Hrun & _).
  destruct (STT_decode_one_token_per_slice 0 (Samples.oneHot 4 3)) as (_ & Hloop).
  split.
  - destruct (Hrun ltac:(lia) 8%nat) as (tokens & Htokens & Hcount & _);
      [vm_compute; lia|].
    exists tokens. split; [exact Htokens|]. rewrite Hcount. vm_compute. reflexivity.
  - apply Hloop; [reflexivity | discriminate].
Defined.

Module FloatOrder.

Ltac order_cases :=
  repeat match goal with
  | H : context [(?x ?= ?y)%Z] |- _ => destruct (Z.compare_spec x y); cbn [CompOpp] in H
  | |- context [(?x ?= ?y)%Z] => destruct (Z.compare_spec x y); cbn [CompOpp]
  | H : context [PosDef.Pos.compare_cont Eq ?x ?y] |- _ =>
      change (PosDef.Pos.compare_cont Eq x y) with (Pos.compare x y) in H;
      destruct (Pos.compare_spec x y); cbn [CompOpp] in H
  | |- context [PosDef.Pos.compare_cont Eq ?x ?y] =>
      change (PosDef.Pos.compare_cont Eq x y) with (Pos.compare x y);
      destruct (Pos.compare_spec x y); cbn [CompOpp]
  end.

(** The comparison of binary64 numbers is transitive. *)
Lemma SFcompare_le_lt (a b c : spec_float) (c1 : comparison) :
  SFcompare a b = Some c1 -> c1 <> Gt -> SFcompare b c = Some Lt ->
  SFcompare a c = Some Lt.
Proof.
  destruct a as [sa|sa| |sa ma ea], b as [sb|sb| |sb mb eb], c as [sc|sc| |sc mc ec];
    cbn [SFcompare]; try discriminate;
    try destruct sa; try destruct sb; try destruct sc;
    intros H1 Hne H2; try discriminate; try congruence; try reflexivity;
    order_cases; subst; try discriminate; try congruence; try reflexivity;
    try (exfalso; lia).
Qed.

Lemma SFcompare_refl (a : spec_float) :
  SFcompare a a = Some Eq \/ SFcompare a a = None.
Proof.
  destruct a as [s|s| |s m e]; cbn [SFcompare]; try (left; reflexivity);
    try (right; reflexivity).
  - destruct s; left; reflexivity.
  - rewrite Z.compare_refl.
    change (PosDef.Pos.compare_cont Eq m m) with (Pos.compare m m).
    rewrite Pos.compare_refl. destruct s; left; reflexivity.
Qed.

Lemma SFcompare_total (a b : spec_float) :
  SFcompare a a = Some Eq -> SFcompare b b = Some Eq ->
  exists c, SFcompare a b = Some c.
Proof.
  destruct a as [sa|sa| |sa ma ea], b as [sb|sb| |sb mb eb]; cbn [SFcompare];
    try discriminate; intros _ _; eexists; reflexivity.
Qed.

Lemma ltb_irrefl (x : float) : PrimFloat.ltb x x = false.
Proof.
  rewrite FloatAxioms.ltb_spec. unfold SFltb.
  destruct (SFcompare_refl (Prim2SF x)) as [-> | ->]; reflexivity.
Qed.

Lemma ltb_trans (a b c : float) :
  PrimFloat.ltb a b = true -> PrimFloat.ltb b c = true -> PrimFloat.ltb a c = true.
Proof.
  rewrite !FloatAxioms.ltb_spec. unfold SFltb.
  destruct (SFcompare (Prim2SF a) (Prim2SF b)) as [[]|] eqn:H1; try discriminate.
  destruct (SFcompare (Prim2SF b) (Prim2SF c)) as [[]|] eqn:H2; try discriminate.
  intros _ _. rewrite (SFcompare_le_lt _ _ _ Lt H1 ltac:(discriminate) H2). reflexivity.
Qed.

Lemma not_nan (x : float) :
  PrimFloat.is_nan x = false -> SFcompare (Prim2SF x) (Prim2SF x) = Some Eq.
Proof.
  unfold PrimFloat.is_nan. rewrite negb_false_iff, FloatAxioms.eqb_spec.
  unfold SFeqb. destruct (SFcompare (Prim2SF x) (Prim2SF x)) as [[]|]; congruence.
Qed.

(** [a <= b < c] gives [a < c], where [a <= b] is read off [b < a] being
    false between numbers that are not NaN. *)
Lemma not_ltb_ltb (a b c : float) :
  PrimFloat.is_nan a = false -> PrimFloat.is_nan b = false ->
  PrimFloat.ltb b a = false -> PrimFloat.ltb b c = true -> PrimFloat.ltb a c = true.
Proof.
  intros Ha Hb. apply not_nan in Ha. apply not_nan in Hb.
  destruct (SFcompare_total _ _ Ha Hb) as (c1 & Hab).
  rewrite !FloatAxioms.ltb_spec. unfold SFltb.
  rewrite (SFcompare_antisym _ _ _ Hab).
  destruct (SFcompare (Prim2SF b) (Prim2SF c)) as [[]|] eqn:Hbc; try discriminate.
  intros Hle _.
  rewrite (SFcompare_le_lt _ _ _ c1 Hab ltac:(destruct c1; simpl in Hle; congruence) Hbc).
  reflexivity.
Qed.

End FloatOrder.

Module ArgmaxLoop.
Import Float32.

(** The state of the loop of [argmax] after the indices below [k]. *)
Lemma argmax_loop (array : list float) (first : float) :
  load array 0 = first ->
  forall n,
    let '(maxIndex, maxValue) :=
      foldl (fun '(maxIndex, maxValue) i =>
               if PrimFloat.ltb maxValue (load array i)
               then (i, load array i) else (maxIndex, maxValue))
            (0%nat, first) (seq 1 n) in
    (maxIndex < 1 + n)%nat
    /\ maxValue = load array maxIndex
    /\ (forall j, (j < 1 + n)%nat -> PrimFloat.ltb maxValue (load array j) = false)
    /\ ((forall j, (j < 1 + n)%nat -> PrimFloat.is_nan (load array j) = false) ->
        forall j, (j < maxIndex)%nat -> PrimFloat.ltb (load array j) maxValue = true).
Proof.
  intros Hfirst. induction n as [|n IH].
  - cbn [seq foldl]. split; [lia|]. split; [symmetry; exact Hfirst|]. split.
    + intros j Hj. replace j with 0%nat by lia. rewrite Hfirst.
      apply FloatOrder.ltb_irrefl.
    + intros _ j Hj. lia.
  - rewrite seq_S, foldl_app.
    destruct (foldl _ (0%nat, first) (seq 1 n)) as [maxIndex maxValue].
    destruct IH as (Hidx & Hval & Hmax & Hfirstmax).
    cbn [foldl]. replace (1 + n)%nat with (S n) in * by lia.
    destruct (PrimFloat.ltb maxValue (load array (S n))) eqn:Hlt.
    + split; [lia|]. split; [reflexivity|]. split.
      * intros j Hj. destruct (Nat.eq_dec j (S n)) as [->|Hne];
          [apply FloatOrder.ltb_irrefl|].
        destruct (PrimFloat.ltb (load array (S n)) (load array j)) eqn:Hj'; [|reflexivity].
        rewrite <- (Hmax j ltac:(lia)). symmetry.
        exact (FloatOrder.ltb_trans _ _ _ Hlt Hj').
      * intros Hnan j Hj.
        apply (FloatOrder.not_ltb_ltb _ maxValue).
        -- apply Hnan. lia.
        -- rewrite Hval. apply Hnan. lia.
        -- apply Hmax. lia.
        -- exact Hlt.
    + split; [lia|]. split; [exact Hval|]. split.
      * intros j Hj. destruct (Nat.eq_dec j (S n)) as [->|Hne]; [exact Hlt|].
        apply Hmax. lia.
      * intros Hnan j Hj. apply Hfirstmax; [|exact Hj].
        intros j' Hj'. apply Hnan. lia.
Qed.

End ArgmaxLoop.

(** [argmax] of an array that is not empty returns the index of its first
    largest element: no element is greater than the one at this index,
    and, in an array without NaN, every element before it is smaller. An
    NaN is never greater, nor smaller, than anything: one at the start of
    the array is where [argmax] stays. *)
Theorem argmax_is_first_maximum (array : list float) :
  array <> [] ->
  let best := STT.argmax array in
  (best < length array)%nat
  /\ (forall j, (j < length array)%nat ->
        PrimFloat.ltb (Float32.load array best) (Float32.load array j) = false)
  /\ (Forall (fun x => PrimFloat.is_nan x = false) array ->
      forall j, (j < best)%nat ->
        PrimFloat.ltb (Float32.load array j) (Float32.load array best) = true)
  /\ (PrimFloat.is_nan (Float32.load array 0) = true -> best = 0%nat).
Proof.
  intros Hne best.
  destruct array as [|first rest]; [congruence|].
  pose proof (ArgmaxLoop.argmax_loop (first :: rest) first eq_refl (length rest)) as Hloop.
  unfold best, STT.argmax.
  replace (length (first :: rest) - 1)%nat with (length rest) by (simpl; lia).
  destruct (foldl _ (0%nat, first) (seq 1 (length rest))) as [maxIndex maxValue] eqn:Hrun.
  destruct Hloop as (Hidx & Hval & Hmax & Hbefore).
  cbn [fst]. split; [simpl; lia|]. split; [|split].
  - intros j Hj. rewrite <- Hval. apply Hmax. simpl in Hj. lia.
  - intros Hnan j Hj. rewrite <- Hval. apply Hbefore; [|exact Hj].
    intros j' Hj'. unfold Float32.load.
    rewrite List.Forall_forall in Hnan. apply Hnan. apply nth_In. simpl. lia.
  - intros Hstart.
    destruct maxIndex as [|k]; [reflexivity|]. exfalso.
    pose proof (Hmax 0%nat ltac:(lia)) as H0.
    assert (Hfirst_nan : PrimFloat.is_nan first = true) by exact Hstart.
    clear Hbefore Hmax.
    assert (Hstay : forall rounds,
               foldl (fun '(maxIndex, maxValue) i =>
                        if PrimFloat.ltb maxValue (Float32.load (first :: rest) i)
                        then (i, Float32.load (first :: rest) i)
                        else (maxIndex, maxValue))
                     (0%nat, first) rounds = (0%nat, first)).
    { induction rounds as [|i rounds IHr]; [reflexivity|]. cbn [foldl].
      assert (Hno : PrimFloat.ltb first (Float32.load (first :: rest) i) = false).
      { rewrite FloatAxioms.ltb_spec. unfold SFltb.
        unfold PrimFloat.is_nan in Hfirst_nan. rewrite negb_true_iff in Hfirst_nan.
        rewrite FloatAxioms.eqb_spec in Hfirst_nan. unfold SFeqb in Hfirst_nan.
        destruct (Prim2SF first) as [s|s| |s m e]; try reflexivity.
        - discriminate.
        - cbn [SFcompare] in Hfirst_nan. destruct s; discriminate.
        - destruct (FloatOrder.SFcompare_refl (S754_finite s m e)) as [Hr|Hr];
            rewrite Hr in Hfirst_nan; discriminate. }
      rewrite Hno. exact IHr. }
    rewrite Hstay in Hrun. discriminate.
Qed.

(** The array of the logits 0, 0, 0, 1 is not empty: its [argmax] is 3;
    ties go to the first index. *)
Lemma argmax_is_first_maximum_logits :
  STT.argmax (Samples.oneHot 4 3) = 3%nat
  /\ STT.argmax [1%float; 2%float; 2%float] = 1%nat
  /\ (forall j, (j < 4)%nat ->
        PrimFloat.ltb (Float32.load (Samples.oneHot 4 3) 3)
                      (Float32.load (Samples.oneHot 4 3) j) = false).
Proof.
  split; [vm_compute; reflexivity|]. split; [vm_compute; reflexivity|].
  assert (Hne : Samples.oneHot 4 3 <> []) by discriminate.
  exact (proj1 (proj2 (argmax_is_first_maximum (Samples.oneHot 4 3) Hne))).
Defined.

(** ** services/tts.js: TTSService *)

Module AudioFacts.
Import Float32.





End AudioFacts.





(** ** services/mt.js: DictionaryMT.addTranslation *)

Module TableFacts.
Import Closed.

(** A text without white space is one piece. *)
Lemma split_ws_from_word (s : jsstring) :
  forall cur, spaceless s -> split_ws_from false cur s = [rev cur ++ s].
Proof.
  induction s as [|c s IH]; intros cur Hs.
  - cbn [split_ws_from]. rewrite app_nil_r. reflexivity.
  - inversion Hs as [|? ? Hc Hrest]; subst.
    cbn [split_ws_from]. rewrite Hc. rewrite IH by exact Hrest.
    cbn [rev]. rewrite <- app_assoc. reflexivity.
Qed.

Lemma split_ws_word (s : jsstring) : spaceless s -> split_ws s = [s].
Proof. intros Hs. unfold split_ws. rewrite split_ws_from_word by exact Hs. reflexivity. Qed.

End TableFacts.

(** An entry added with [addTranslation] is used by [translate]: a source
    without white space, which is not [__proto__], is translated to the
    lowercased target that was given, if that is not empty, whether the
    pair had a table before or not. A source with white space is never
    used: with it the table translates as before. The other pairs
    translate as before. *)
Theorem added_translation_is_used `{Host} `{Engine}
  (dictionaries : DictionaryMT.Dictionaries)
  (source target sourceLang targetLang : jsstring) :
  let added :=
    DictionaryMT.addTranslation dictionaries source target sourceLang targetLang in
  (Closed.spaceless (toLowerCase source) ->
   toLowerCase source <> js "__proto__" -> toLowerCase target <> [] ->
   DictionaryMT.translate added source sourceLang targetLang
   = Return (toLowerCase target))
  /\ (~ Closed.spaceless (toLowerCase source) ->
      is_Some (dictionaries !! DictionaryMT.dictKey sourceLang targetLang) ->
      forall text,
        DictionaryMT.translate added text sourceLang targetLang
        = DictionaryMT.translate dictionaries text sourceLang targetLang)
  /\ (forall text sourceLang' targetLang',
        DictionaryMT.dictKey sourceLang' targetLang'
        <> DictionaryMT.dictKey sourceLang targetLang ->
        DictionaryMT.translate added text sourceLang' targetLang'
        = DictionaryMT.translate dictionaries text sourceLang' targetLang').
Proof.
  intros added.
  set (key := DictionaryMT.dictKey sourceLang targetLang).
  set (word := toLowerCase source).
  set (dictionary := default ∅ (dictionaries !! key)).
  split; [|split].
  - intros Hword Hproto Htarget. unfold added, DictionaryMT.addTranslation.
    fold key word dictionary.
    assert (Hno : str_eqb word (js "__proto__") = false)
      by (apply bool_decide_eq_false_2; exact Hproto).
    rewrite Hno. cbn [andb].
    unfold DictionaryMT.translate. fold key. rewrite lookup_insert_eq.
    unfold DictionaryMT.translatedWords. fold word.
    rewrite (TableFacts.split_ws_word word Hword). cbn [List.map join].
    unfold DictionaryMT.translateWord. rewrite lookup_insert_eq.
    destruct (toLowerCase target) as [|c rest]; [congruence|]. reflexivity.
  - intros Hword [d Hd] text. unfold added, DictionaryMT.addTranslation.
    fold key word dictionary.
    assert (Hdict : dictionary = d) by (unfold dictionary; rewrite Hd; reflexivity).
    unfold DictionaryMT.translate. fold key. rewrite Hd.
    destruct (str_eqb word (js "__proto__")
              && negb (bool_decide (is_Some (dictionary !! word))));
      rewrite lookup_insert_eq; [rewrite Hdict; reflexivity|].
    f_equal. f_equal. unfold DictionaryMT.translatedWords.
    apply map_ext_in. intros piece Hpiece.
    unfold DictionaryMT.translateWord. rewrite lookup_insert_ne, Hdict; [reflexivity|].
    intros <-. apply Hword.
    pose proof (StringFacts.split_ws_spaceless (toLowerCase text)) as Hall.
    rewrite List.Forall_forall in Hall. apply Hall. exact Hpiece.
  - intros text sourceLang' targetLang' Hother.
    unfold added, DictionaryMT.addTranslation. fold key word dictionary.
    unfold DictionaryMT.translate.
    destruct (str_eqb word (js "__proto__")
              && negb (bool_decide (is_Some (dictionary !! word))));
      rewrite lookup_insert_ne by (intros Heq; apply Hother; symmetry; exact Heq);
      reflexivity.
Qed.

(** French is no pair of the built-in tables: translating to it throws,
    and after [addTranslation] of one word that word is translated. *)
Lemma added_translation_is_used_french :
  DictionaryMT.translate (H := Samples.asciiHost) (H0 := Samples.v8Engine)
    DictionaryMT.constructor (js "Hello") (js "en") (js "fr")
  = Throw (js "Translation not supported: en to fr")
  /\ DictionaryMT.translate (H := Samples.asciiHost) (H0 := Samples.v8Engine)
       (DictionaryMT.addTranslation (H := Samples.asciiHost) DictionaryMT.constructor
          (js "Hello") (js "Bonjour") (js "en") (js "fr"))
       (js "Hello") (js "en") (js "fr")
     = Return (js "bonjour").
Proof.
  split; [vm_compute; reflexivity|].
  refine (proj1 (added_translation_is_used (H := Samples.asciiHost)
                   (H0 := Samples.v8Engine) DictionaryMT.constructor
                   (js "Hello") (js "Bonjour") (js "en") (js "fr")) _ _ _).
  - vm_compute. repeat constructor.
  - vm_compute. discriminate.
  - vm_compute. discriminate.
Defined.

(** ** services/webrtc.js: sending and receiving audio *)

Module WireFacts.
Import Codec Closed.

Lemma sextetChar_unit (n : N) : isUnit16 (sextetChar n).
Proof.
  unfold isUnit16, sextetChar.
  destruct (N.ltb_spec n 26); [lia|].
  destruct (N.ltb_spec n 52); [lia|].
  destruct (N.ltb_spec n 62); [lia|].
  destruct (n =? 62); lia.
Qed.

Lemma base64_units (bytes : list N) : Forall isUnit16 (base64 bytes).
Proof.
  assert (Hpad : isUnit16 0x3D) by (unfold isUnit16; lia).
  induction bytes as [|a|a b|a b c rest IH] using Base64Facts.list_ind3; cbn [base64];
    repeat (apply Forall_cons; split); auto using sextetChar_unit.
Qed.

Lemma units_of_check (s : jsstring) :
  forallb (fun c => c <? 65536) s = true -> Forall isUnit16 s.
Proof.
  induction s as [|c s IH]; intros Hall; [constructor|].
  cbn [forallb] in Hall. apply andb_true_iff in Hall as [Hc Hs].
  constructor; [apply N.ltb_lt; exact Hc | apply IH; exact Hs].
Qed.

(** A data URL is a string of code units when the media type is one. *)
Lemma readAsDataURL_units (blob : WebRTC.Blob) :
  Forall isUnit16 (WebRTC.blobType blob) ->
  Forall isUnit16 (WebRTC.readAsDataURL blob).
Proof.
  intros Htype. unfold WebRTC.readAsDataURL.
  apply Forall_app_2; [|apply Forall_app_2; [|apply Forall_app_2]].
  - apply units_of_check. vm_compute. reflexivity.
  - unfold WebRTC.mediaType. destruct (WebRTC.blobType blob) eqn:Hb; [|exact Htype].
    apply units_of_check. vm_compute. reflexivity.
  - apply units_of_check. vm_compute. reflexivity.
  - apply base64_units.
Qed.

End WireFacts.

(** Audio sent by a connected service with an open channel reaches the
    callback of the service that receives it, and the bytes come back
    from what the callback is given: the sender hands the peer one
    message, [handleData] on its bytes calls the audio callback with the
    data URL of the blob, and [convertBase64ToAudio], which the
    application applies to it, returns the bytes of the blob, typed
    [audio/wav]. This holds for a blob whose media type holds no comma,
    and for the bytes of an [ArrayBuffer]. *)
Theorem audio_reaches_the_peer (audioData : WebRTC.AudioData) (blob : WebRTC.Blob)
  (now : N) (sender receiver : WebRTC.Service) :
  Props.asBlob audioData = Some blob ->
  Forall (fun c => c <> 0x2C /\ Closed.isUnit16 c) (WebRTC.blobType blob) ->
  WebRTC.isConnected sender = true ->
  WebRTC.peer sender = Some {| WebRTC.channelOpen := true |} ->
  WebRTC.onAudioData receiver = true ->
  let url := WebRTC.readAsDataURL blob in
  let data := WebRTC.encode (WebRTC.AudioMessage url now) in
  WebRTC.sendAudio audioData sender = (WebRTC.quiet sender, Some (Return url))
  /\ WebRTC.sendAudioThen (Return url) now sender
     = {| WebRTC.after := sender; WebRTC.effects := [WebRTC.PeerSend data];
          WebRTC.threw := false |}
  /\ WebRTC.handleData data receiver
     = {| WebRTC.after := receiver;
          WebRTC.effects := [WebRTC.AudioDataCallback (Some (Codec.String url))];
          WebRTC.threw := false |}
  /\ WebRTC.convertBase64ToAudio url
     = Return {| WebRTC.blobType := js "audio/wav";
                 WebRTC.blobBytes := WebRTC.blobBytes blob |}.
Proof.
  intros Hblob Htype Hconnected Hpeer Hcallback url data.
  assert (Hcomma : Forall (fun c => c <> 0x2C) (WebRTC.blobType blob))
    by (eapply Forall_impl; [exact Htype | intros c [Hc _]; exact Hc]).
  assert (Hunits : Forall Closed.isUnit16 (WebRTC.blobType blob))
    by (eapply Forall_impl; [exact Htype | intros c [_ Hc]; exact Hc]).
  assert (Hguard : WebRTC.notConnected sender = false).
  { unfold WebRTC.notConnected. rewrite Hconnected, Hpeer. reflexivity. }
  split; [|split; [|split]].
  - unfold WebRTC.sendAudio. rewrite Hguard. f_equal. f_equal.
    unfold WebRTC.convertAudioToBase64.
    destruct audioData as [b|bytes|]; cbn [Props.asBlob] in Hblob;
      [injection Hblob as -> | injection Hblob as <- | discriminate]; reflexivity.
  - unfold WebRTC.sendAudioThen, WebRTC.sendMessage. rewrite Hguard, Hpeer. reflexivity.
  - assert (Hvalid : Closed.validMessage (WebRTC.AudioMessage url now))
      by (apply WireFacts.readAsDataURL_units; exact Hunits).
    unfold WebRTC.handleData, data.
    rewrite (TextFacts.parse_decode_encode _ Hvalid).
    cbn [WebRTC.toValue]. rewrite Hcallback.
    vm_compute. reflexivity.
  - unfold WebRTC.convertBase64ToAudio, url.
    rewrite (Base64Facts.decodeDataURL_readAsDataURL blob Hcomma). reflexivity.
Qed.

(** The hypotheses hold of the three bytes 0x00, 0xFF, 0x10 in an
    [ArrayBuffer], sent between two connected services. *)
Lemma audio_reaches_the_peer_three_bytes :
  WebRTC.convertBase64ToAudio
    (WebRTC.readAsDataURL
       {| WebRTC.blobType := js "audio/wav";
          WebRTC.blobBytes := [Byte.x00; Byte.xff; Byte.x10] |})
  = Return {| WebRTC.blobType := js "audio/wav";
              WebRTC.blobBytes := [Byte.x00; Byte.xff; Byte.x10] |}.
Proof.
  refine (proj2 (proj2 (proj2
            (audio_reaches_the_peer
               (WebRTC.IsArrayBuffer [Byte.x00; Byte.xff; Byte.x10])
               {| WebRTC.blobType := js "audio/wav";
                  WebRTC.blobBytes := [Byte.x00; Byte.xff; Byte.x10] |}
               1700000000000 Samples.connected Samples.connected
               eq_refl _ eq_refl eq_refl eq_refl)))).
  apply List.Forall_forall. intros c Hc. vm_compute in Hc.
  repeat (destruct Hc as [<- | Hc]; [split; [discriminate | reflexivity]|]).
  destruct Hc.
Defined.

(** After [disconnect], and after the peer has closed, nothing is sent:
    each of the sends returns at once. [disconnect] destroys the peer,
    if there is one, and forgets it; made twice, it does nothing more.
    The [close] event keeps the peer and tells the state callback. The
    callbacks stay installed. *)
Theorem nothing_is_sent_after_disconnect (s : WebRTC.Service) :
  let gone := WebRTC.after (WebRTC.disconnect s) in
  let closed := WebRTC.after (WebRTC.onClose s) in
  WebRTC.peer gone = None /\ WebRTC.isConnected gone = false
  /\ WebRTC.effects (WebRTC.disconnect s)
     = match WebRTC.peer s with Some _ => [WebRTC.PeerDestroy] | None => [] end
  /\ WebRTC.disconnect gone = WebRTC.quiet gone
  /\ WebRTC.peer closed = WebRTC.peer s /\ WebRTC.isConnected closed = false
  /\ WebRTC.effects (WebRTC.onClose s)
     = WebRTC.ConsoleLog (js "WebRTC connection closed")
       :: (if WebRTC.onConnectionStateChange s
           then [WebRTC.ConnectionStateCallback (js "disconnected")] else [])
  /\ (forall s', s' = gone \/ s' = closed ->
        (forall message, WebRTC.sendMessage message s' = WebRTC.quiet s')
        /\ (forall audioData, WebRTC.sendAudio audioData s' = (WebRTC.quiet s', None))
        /\ (forall transcript language now,
              WebRTC.sendTranscript transcript language now s' = WebRTC.quiet s')
        /\ (forall original translated sourceLang targetLang now,
              WebRTC.sendTranslation original translated sourceLang targetLang now s'
              = WebRTC.quiet s')
        /\ WebRTC.onAudioData s' = WebRTC.onAudioData s
        /\ WebRTC.onConnectionStateChange s' = WebRTC.onConnectionStateChange s
        /\ WebRTC.onError s' = WebRTC.onError s).
Proof.
  intros gone closed.
  split; [reflexivity|]. split; [reflexivity|]. split; [reflexivity|].
  split; [reflexivity|]. split; [reflexivity|]. split; [reflexivity|].
  split; [reflexivity|].
  intros s' Hs'.
  assert (Hguard : WebRTC.notConnected s' = true)
    by (destruct Hs' as [-> | ->]; reflexivity).
  unfold WebRTC.sendMessage, WebRTC.sendAudio, WebRTC.sendTranscript,
    WebRTC.sendTranslation.
  rewrite Hguard.
  destruct Hs' as [-> | ->]; repeat split; reflexivity.
Qed.

(** ** services/webrtc.js: SignalingServer *)

Module SignalingFacts.
Import Signaling Props.

Section Server.
Context {Handler Signal : Type}.

Lemma notifyAll_spec (selected : jsstring -> bool) (event : Event Signal)
  (m : list (jsstring * option Handler)) :
  Forall (fun entry => selected entry.1 = true -> is_Some entry.2) m ->
  notifyAll selected event m
  = (List.map (fun handler => Handle handler event)
       (omap (fun entry => if selected entry.1 then entry.2 else None) m),
     false).
Proof.
  induction 1 as [|[id h] m Hh _ IH]; [reflexivity|].
  cbn [notifyAll omap list_omap fst snd] in *.
  destruct (selected id) eqn:Hsel.
  - destruct (Hh eq_refl) as (handler & ->). rewrite IH. reflexivity.
  - exact IH.
Qed.

Lemma others_set (peerId : jsstring) (onSignal : option Handler)
  (m : list (jsstring * option Handler)) :
  others peerId (peers_set peerId onSignal m) = others peerId m.
Proof.
  unfold others. induction m as [|[id h] m IH]; cbn [peers_set omap list_omap fst snd].
  - unfold str_eqb. rewrite bool_decide_eq_true_2 by reflexivity. reflexivity.
  - destruct (str_eqb id peerId) eqn:Hid; cbn [omap list_omap fst snd]; rewrite Hid.
    + reflexivity.
    + rewrite IH. reflexivity.
Qed.

Lemma selected_other (id peerId : jsstring) :
  negb (str_eqb id peerId) = true <-> id <> peerId.
Proof.
  unfold str_eqb. rewrite negb_true_iff, bool_decide_eq_false. reflexivity.
Qed.

Lemma handlers_after_set (peerId : jsstring) (onSignal : option Handler)
  (m : list (jsstring * option Handler)) :
  Forall (fun entry => entry.1 <> peerId -> is_Some entry.2) m ->
  Forall (fun entry => negb (str_eqb entry.1 peerId) = true -> is_Some entry.2)
         (peers_set peerId onSignal m).
Proof.
  intros Hm.
  assert (Hm' : Forall (fun entry => negb (str_eqb entry.1 peerId) = true
                                     -> is_Some entry.2) m).
  { eapply Forall_impl; [exact Hm|]. intros [k x] Hk Hsel. apply Hk.
    apply selected_other. exact Hsel. }
  clear Hm. induction Hm' as [|[k x] m Hk Hm IH]; cbn [peers_set].
  - constructor; [|constructor]. cbn [fst snd]. intros Hsel.
    apply selected_other in Hsel. congruence.
  - destruct (str_eqb k peerId) eqn:Heq.
    + constructor; [|exact Hm]. cbn [fst snd]. rewrite Heq. discriminate.
    + constructor; [exact Hk | exact IH].
Qed.

Lemma others_negb (peerId : jsstring) (m : list (jsstring * option Handler)) :
  omap (fun entry => if negb (str_eqb entry.1 peerId) then entry.2 else None) m
  = others peerId m.
Proof.
  unfold others. induction m as [|[id h] m IH]; [reflexivity|].
  cbn [omap list_omap fst snd].
  destruct (str_eqb id peerId); cbn [negb]; rewrite IH; reflexivity.
Qed.

Lemma others_delete (peerId : jsstring) (m : list (jsstring * option Handler)) :
  omap (fun entry => if true then entry.2 else None) (peers_delete peerId m)
  = others peerId m.
Proof.
  unfold others, peers_delete. induction m as [|[id h] m IH]; [reflexivity|].
  cbn [List.filter omap list_omap fst snd].
  destruct (str_eqb id peerId); cbn [negb omap list_omap snd]; rewrite IH; reflexivity.
Qed.

Lemma peers_get_set (peerId id : jsstring) (onSignal : option Handler)
  (m : list (jsstring * option Handler)) :
  peers_get (peers_set peerId onSignal m) id
  = if bool_decide (id = peerId) then Some onSignal else peers_get m id.
Proof.
  unfold peers_get. induction m as [|[k h] m IH]; cbn [peers_set List.find fst];
    unfold str_eqb in *.
  - destruct (decide (id = peerId)) as [->|Hne].
    + rewrite !bool_decide_eq_true_2 by reflexivity. reflexivity.
    + rewrite (bool_decide_eq_false_2 (peerId = id)) by congruence.
      rewrite bool_decide_eq_false_2 by exact Hne. reflexivity.
  - destruct (decide (k = peerId)) as [->|Hk].
    + rewrite (bool_decide_eq_true_2 (peerId = peerId)) by reflexivity.
      cbn [List.find fst].
      destruct (decide (id = peerId)) as [->|Hne].
      * rewrite !bool_decide_eq_true_2 by reflexivity. reflexivity.
      * rewrite (bool_decide_eq_false_2 (peerId = id)) by congruence.
        rewrite (bool_decide_eq_false_2 (id = peerId)) by exact Hne. reflexivity.
    + rewrite (bool_decide_eq_false_2 (k = peerId)) by exact Hk.
      cbn [List.find fst].
      destruct (decide (k = id)) as [->|Hk'].
      * rewrite (bool_decide_eq_true_2 (id = id)) by reflexivity.
        rewrite (bool_decide_eq_false_2 (id = peerId)) by exact Hk. reflexivity.
      * rewrite (bool_decide_eq_false_2 (k = id)) by exact Hk'. exact IH.
Qed.

Lemma peers_get_delete (peerId : jsstring) (m : list (jsstring * option Handler)) :
  peers_get (peers_delete peerId m) peerId = None.
Proof.
  unfold peers_get, peers_delete. induction m as [|[k h] m IH]; [reflexivity|].
  cbn [List.filter fst]. destruct (str_eqb k peerId) eqn:Hk; cbn [negb]; [exact IH|].
  cbn [List.find fst]. rewrite Hk. exact IH.
Qed.

End Server.

End SignalingFacts.

(** A peer that joins is told to every other peer and not to itself: the
    handlers of the others, each of which is a function, are called once
    each with [peer-joined] and its id, in the order in which they joined,
    and then the server's own callback, if it has one. Afterwards the
    server knows the handler of the new peer under its id, and the
    handlers of the others as before; a peer that joins again replaces
    its handler. *)
Theorem join_tells_the_others {Handler Signal : Type}
  (s : Signaling.Server Handler) (peerId : jsstring) (onSignal : option Handler) :
  Forall (fun entry => entry.1 <> peerId -> is_Some entry.2) (Signaling.peers s) ->
  let joined := Signaling.join (Signal := Signal) peerId onSignal s in
  Signaling.threw joined = false
  /\ Signaling.calls joined
     = List.map (fun handler => Signaling.Handle handler (Signaling.PeerJoined peerId))
         (Props.others peerId (Signaling.peers s))
       ++ (if Signaling.onPeerJoined s then [Signaling.OnPeerJoined peerId] else [])
  /\ (forall id,
        Signaling.peers_get (Signaling.peers (Signaling.after joined)) id
        = if bool_decide (id = peerId) then Some onSignal
          else Signaling.peers_get (Signaling.peers s) id).
Proof.
  intros Hhandlers joined. unfold joined, Signaling.join.
  rewrite SignalingFacts.notifyAll_spec.
  - cbn [Signaling.threw Signaling.calls Signaling.after Signaling.peers].
    split; [reflexivity|]. split.
    + rewrite SignalingFacts.others_negb, SignalingFacts.others_set.
      destruct (Signaling.onPeerJoined s); [reflexivity|].
      rewrite app_nil_r. reflexivity.
    + intros id. apply SignalingFacts.peers_get_set.
  - cbn [Signaling.peers]. apply SignalingFacts.handlers_after_set. exact Hhandlers.
Qed.

(** A third peer joins a server that two have joined: both are told, in
    the order in which they joined, and the new peer is not. *)
Lemma join_tells_alice_and_bob :
  Signaling.calls
    (Signaling.join (Signal := jsstring) (js "carol") (Some 3%nat) MoreSamples.room)
  = [Signaling.Handle 1%nat (Signaling.PeerJoined (js "carol"));
     Signaling.Handle 2%nat (Signaling.PeerJoined (js "carol"))].
Proof.
  refine (eq_trans
            (proj1 (proj2 (join_tells_the_others (Signal := jsstring) MoreSamples.room
                             (js "carol") (Some 3%nat) _))) _).
  - apply List.Forall_forall. intros entry Hentry. vm_compute in Hentry.
    repeat (destruct Hentry as [<- | Hentry]; [intros _; eexists; reflexivity|]).
    destruct Hentry.
  - vm_compute. reflexivity.
Defined.

(** A signal reaches the peer it is sent to if that peer has joined, and
    nobody otherwise: sent to a peer that has just joined it is handed to
    the handler the peer gave, once; sent to a peer that has left, or to
    a server nobody has joined, it is dropped. Sending a signal never
    throws and leaves the server as it is. A peer that leaves is told to
    every peer that remains, whether it had joined or not. *)
Theorem signals_reach_members_only {Handler Signal : Type}
  (s : Signaling.Server Handler) (peerId fromPeerId : jsstring) (signal : Signal) :
  (forall onSignal,
     Signaling.calls
       (Signaling.sendSignal fromPeerId peerId signal
          (Signaling.after (Signaling.join (Signal := Signal) peerId onSignal s)))
     = match onSignal with
       | Some handler =>
           [Signaling.Handle handler (Signaling.SignalFrom fromPeerId signal)]
       | None => []
       end)
  /\ Signaling.calls
       (Signaling.sendSignal fromPeerId peerId signal
          (Signaling.after (Signaling.leave (Signal := Signal) peerId s)))
     = []
  /\ Signaling.calls
       (Signaling.sendSignal (Handler := Handler) fromPeerId peerId signal
          Signaling.constructor)
     = []
  /\ (forall toPeerId,
        Signaling.threw (Signaling.sendSignal fromPeerId toPeerId signal s) = false
        /\ Signaling.after (Signaling.sendSignal fromPeerId toPeerId signal s) = s)
  /\ (Forall (fun entry => entry.1 <> peerId -> is_Some entry.2) (Signaling.peers s) ->
      Signaling.threw (Signaling.leave (Signal := Signal) peerId s) = false
      /\ Signaling.calls (Signaling.leave (Signal := Signal) peerId s)
         = List.map (fun handler => Signaling.Handle handler (Signaling.PeerLeft peerId))
             (Props.others peerId (Signaling.peers s))
           ++ (if Signaling.onPeerLeft s then [Signaling.OnPeerLeft peerId] else [])).
Proof.
  split; [|split; [|split; [|split]]].
  - intros onSignal. unfold Signaling.sendSignal, Signaling.join.
    destruct (Signaling.notifyAll _ _ _) as [calls threw].
    cbn [Signaling.after Signaling.peers].
    rewrite SignalingFacts.peers_get_set, bool_decide_eq_true_2 by reflexivity.
    destruct onSignal; reflexivity.
  - unfold Signaling.sendSignal, Signaling.leave.
    destruct (Signaling.notifyAll _ _ _) as [calls threw].
    cbn [Signaling.after Signaling.peers].
    rewrite SignalingFacts.peers_get_delete. reflexivity.
  - reflexivity.
  - intros toPeerId. unfold Signaling.sendSignal.
    destruct (Signaling.peers_get (Signaling.peers s) toPeerId) as [[h|]|];
      split; reflexivity.
  - intros Hhandlers. unfold Signaling.leave.
    rewrite SignalingFacts.notifyAll_spec.
    + cbn [Signaling.threw Signaling.calls Signaling.peers].
      split; [reflexivity|].
      rewrite SignalingFacts.others_delete.
      destruct (Signaling.onPeerLeft s); [reflexivity|].
      rewrite app_nil_r. reflexivity.
    + cbn [Signaling.peers]. unfold Signaling.peers_delete.
      apply Forall_forall. intros entry Hentry _.
      apply list_elem_of_In, filter_In in Hentry. destruct Hentry as [Hin Hsel].
      rewrite List.Forall_forall in Hhandlers. apply (Hhandlers entry Hin).
      apply SignalingFacts.selected_other. exact Hsel.
Qed.

(** When bob leaves the server that alice and bob have joined, alice is
    told, and a signal to bob is dropped. *)
Lemma signals_after_bob_left :
  Signaling.calls (Signaling.leave (Signal := jsstring) (js "bob") MoreSamples.room)
  = [Signaling.Handle 1%nat (Signaling.PeerLeft (js "bob"))]
  /\ Signaling.calls
       (Signaling.sendSignal (js "alice") (js "bob") (js "offer")
          (Signaling.after
             (Signaling.leave (Signal := jsstring) (js "bob") MoreSamples.room)))
     = [].
Proof.
  destruct (signals_reach_members_only MoreSamples.room (js "bob") (js "alice")
              (js "offer")) as (_ & Hleft & _ & _ & Hleave).
  split; [|exact Hleft].
  destruct Hleave as (_ & Hcalls).
  - apply List.Forall_forall. intros entry Hentry. vm_compute in Hentry.
    repeat (destruct Hentry as [<- | Hentry]; [intros _; eexists; reflexivity|]).
    destruct Hentry.
  - rewrite Hcalls. vm_compute. reflexivity.
Defined.
